(** * sql-agent: the text-to-SQL pipeline, embedded shallowly

    From the graph module: [qualifySqlTables], [validateSqlTables],
    [loadDatabaseSchema], the four nodes [nodeIntrospect],
    [nodeGenerateSQL], [nodeExecuteSQL] and [nodeAnswer] with its helpers,
    and the graph behind [runSqlAgent]; from the service:
    [RagService.ask]; from the controller: [RagController.ask].

    Strings are sequences of code units.  This development covers the
    code units below 256 (Latin-1), on which [toLowerCase], [trim] and the
    regular-expression classes all act one code unit at a time. *)

From stdpp Require Import gmap strings.
From Stdlib Require Import String Ascii List ZArith Bool Lia.
From Stdlib Require Import QArith Qround Qabs Qpower Lqa.
From Stdlib Require Import Floats.SpecFloat.
Import ListNotations.
Close Scope Q_scope.
Local Open Scope string_scope.
Local Open Scope list_scope.

(** ** Code units and the character classes of the regular expressions *)

Definition code (c : ascii) : N := N_of_ascii c.

Definition between (lo hi : N) (c : ascii) : bool :=
  ((lo <=? code c) && (code c <=? hi))%N.

Definition isUpper (c : ascii) : bool := between 65 90 c.
Definition isLower (c : ascii) : bool := between 97 122 c.
Definition isDigit (c : ascii) : bool := between 48 57 c.

(** [[a-zA-Z_]] *)
Definition isIdentStart (c : ascii) : bool :=
  isLower c || isUpper c || (code c =? 95)%N.

(** [\w] *)
Definition isWordChar (c : ascii) : bool := isIdentStart c || isDigit c.

(** [\s], which is also the set [String.prototype.trim] strips: TAB, LF,
    VT, FF, CR, SPACE and NO-BREAK SPACE. *)
Definition isWhiteSpace (c : ascii) : bool :=
  between 9 13 c || (code c =? 32)%N || (code c =? 160)%N.

Definition dquote : ascii := ascii_of_N 34.

(** The class of every code unit but the double quote (written [\x22]). *)
Definition notQuote (c : ascii) : bool := negb (code c =? 34)%N.

(** ** String helpers of the JavaScript runtime *)

Definition toLowerChar (c : ascii) : ascii :=
  if isUpper c || between 192 214 c || between 216 222 c
  then ascii_of_N (code c + 32) else c.

Fixpoint toLowerCase (s : string) : string :=
  match s with
  | EmptyString => EmptyString
  | String c r => String (toLowerChar c) (toLowerCase r)
  end.

Fixpoint dropSpaces (s : string) : string :=
  match s with
  | String c r => if isWhiteSpace c then dropSpaces r else s
  | EmptyString => EmptyString
  end.

(** [trimEnd]: the string up to its last code unit that is not white space. *)
Fixpoint trimEnd (s : string) : string :=
  match s with
  | EmptyString => EmptyString
  | String c r =>
      match trimEnd r with
      | EmptyString => if isWhiteSpace c then EmptyString else String c EmptyString
      | t => String c t
      end
  end.

Definition trim (s : string) : string := trimEnd (dropSpaces s).

(** [s.split(sep)] for a one-character separator: never the empty array. *)
Fixpoint split (sep : ascii) (s : string) : list string :=
  match s with
  | EmptyString => [EmptyString]
  | String c r =>
      if Ascii.eqb c sep then EmptyString :: split sep r
      else match split sep r with
           | h :: t => String c h :: t
           | [] => [String c EmptyString]
           end
  end.

(** [s.replace(/c/g, '')] and [s.replace(/a/g, 'b')] for a class of code units. *)
Fixpoint removeAll (p : ascii -> bool) (s : string) : string :=
  match s with
  | EmptyString => EmptyString
  | String c r => if p c then removeAll p r else String c (removeAll p r)
  end.

Fixpoint replaceChar (a b : ascii) (s : string) : string :=
  match s with
  | EmptyString => EmptyString
  | String c r => String (if Ascii.eqb c a then b else c) (replaceChar a b r)
  end.

Fixpoint endsWith (s suffix : string) : bool :=
  String.eqb s suffix ||
  match s with
  | EmptyString => false
  | String _ r => endsWith r suffix
  end.

Fixpoint skipn_string (n : nat) (s : string) : string :=
  match n, s with
  | S n', String _ r => skipn_string n' r
  | _, _ => s
  end.

Definition firstn_string (n : nat) (s : string) : string := substring 0 n s.

(** A value interpolated in a template literal: [undefined] prints as such. *)
Definition tmpl (o : option string) : string :=
  match o with Some s => s | None => "undefined" end.

(** A string is truthy when it is not empty. *)
Definition truthy (s : string) : bool := negb (String.eqb s "").

Definition quoted (s : string) : string :=
  String dquote s +:+ String dquote EmptyString.

(** ** [Set<string>]: insertion-ordered, without duplicates *)

Module JsSet.
Definition t := list string.
Definition empty : t := [].
Definition has (x : string) (s : t) : bool := existsb (String.eqb x) s.
Definition add (x : string) (s : t) : t := if has x s then s else s ++ [x].
Definition size (s : t) : nat := List.length s.
(** [new Set(array)] *)
Definition of_list (l : list string) : t := fold_left (fun s x => add x s) l empty.
(** [Array.from(set)] *)
Definition to_list (s : t) : list string := s.
End JsSet.

(** ** A backtracking matcher for the regular expressions of the source

    The constructors cover what the three patterns use: literals, classes,
    [\b], sequence, alternation, greedy [*] and [+] over a class, greedy
    [?] and capture groups.  The matcher is written in continuation-passing
    style, the way ECMAScript specifies it: an alternative or a shorter
    repetition is tried only when the continuation has failed. *)

Inductive regex : Type :=
| Eps
| Chr (c : ascii)
| Class (p : ascii -> bool)
| WordB
| Seq (r1 r2 : regex)
| Alt (r1 r2 : regex)
| Star (p : ascii -> bool)
| Plus (p : ascii -> bool)
| Opt (r : regex)
| Group (n : nat) (r : regex).

(** A sequence of several patterns, and a literal word. *)
Fixpoint Cat (l : list regex) : regex :=
  match l with
  | [] => Eps
  | [r] => r
  | r :: l' => Seq r (Cat l')
  end.

Fixpoint Lit (s : string) : regex :=
  match s with
  | EmptyString => Eps
  | String c r => Seq (Chr c) (Lit r)
  end.

Definition captures := list (nat * string).

Definition getGroup (n : nat) (cs : captures) : option string :=
  option_map snd (find (fun '(k, _) => Nat.eqb k n) cs).

Record mstate : Type := MState {
  prev : option ascii;     (* the code unit before the current position *)
  pos : nat;               (* the current position *)
  rest : string;           (* the input from the current position on *)
  caps : captures
}.

Definition isWordOpt (o : option ascii) : bool :=
  match o with Some c => isWordChar c | None => false end.

Definition peek (s : string) : option ascii :=
  match s with String c _ => Some c | EmptyString => None end.

(** Canonicalize of a non-unicode, ignore-case pattern, as a code unit:
    the upper-case mapping when it is one code unit, except that no code
    unit from 128 up may fold to one below 128. *)
Definition canonicalize (c : ascii) : N :=
  let n := code c in
  if isLower c then (n - 32)%N
  else if (between 224 246 c || between 248 254 c) then (n - 32)%N
  else if (n =? 255)%N then 376%N
  else if (n =? 181)%N then 924%N
  else n.

Definition chrMatches (ignoreCase : bool) (c x : ascii) : bool :=
  if ignoreCase then (canonicalize c =? canonicalize x)%N else Ascii.eqb c x.

(** Under ignore-case a class matches a code unit when it holds one with
    the same canonical form.  The classes of the three patterns are closed
    under this folding ([foldClosed] checks it), so the matcher applies a
    class as it is. *)
Definition allCodeUnits : list ascii := List.map ascii_of_nat (seq 0 256).

Definition foldClosed (p : ascii -> bool) : bool :=
  forallb (fun c =>
    forallb (fun d =>
      implb (canonicalize c =? canonicalize d)%N (Bool.eqb (p c) (p d)))
      allCodeUnits) allCodeUnits.

Fixpoint greedy (p : ascii -> bool) (pv : option ascii) (i : nat) (s : string)
    (cs : captures) (k : mstate -> option mstate) : option mstate :=
  match s with
  | String c r =>
      if p c then
        match greedy p (Some c) (S i) r cs k with
        | Some e => Some e
        | None => k (MState pv i s cs)
        end
      else k (MState pv i s cs)
  | EmptyString => k (MState pv i s cs)
  end.

Fixpoint rmatch (ignoreCase : bool) (r : regex) (st : mstate)
    (k : mstate -> option mstate) : option mstate :=
  match r with
  | Eps => k st
  | Chr c =>
      match rest st with
      | String x xs =>
          if chrMatches ignoreCase c x
          then k (MState (Some x) (S (pos st)) xs (caps st)) else None
      | EmptyString => None
      end
  | Class p =>
      match rest st with
      | String x xs =>
          if p x then k (MState (Some x) (S (pos st)) xs (caps st)) else None
      | EmptyString => None
      end
  | WordB =>
      if xorb (isWordOpt (prev st)) (isWordOpt (peek (rest st)))
      then k st else None
  | Seq a b => rmatch ignoreCase a st (fun st' => rmatch ignoreCase b st' k)
  | Alt a b =>
      match rmatch ignoreCase a st k with
      | Some e => Some e
      | None => rmatch ignoreCase b st k
      end
  | Star p => greedy p (prev st) (pos st) (rest st) (caps st) k
  | Plus p =>
      match rest st with
      | String x xs =>
          if p x then greedy p (Some x) (S (pos st)) xs (caps st) k else None
      | EmptyString => None
      end
  | Opt a =>
      match rmatch ignoreCase a st k with
      | Some e => Some e
      | None => k st
      end
  | Group n a =>
      rmatch ignoreCase a st (fun st' =>
        k (MState (prev st') (pos st') (rest st')
             ((n, firstn_string (pos st' - pos st) (rest st)) :: caps st')))
  end.

(** What [RegExp.prototype.exec] returns on a match: [m.index], [m[0]] and
    the groups. *)
Record MatchResult : Type := MkMatch {
  index : nat;
  matched : string;
  groups : captures
}.

Definition group (n : nat) (m : MatchResult) : option string := getGroup n (groups m).

Definition matchAt (ignoreCase : bool) (r : regex) (pv : option ascii)
    (i : nat) (s : string) : option MatchResult :=
  match rmatch ignoreCase r (MState pv i s []) Some with
  | Some e => Some (MkMatch i (firstn_string (pos e - i) s) (caps e))
  | None => None
  end.

(** The successive matches of a global ([g]) pattern, as the loop
    [while ((m = re.exec(sql)) !== null)] and [String.prototype.replace]
    visit them: the search resumes where the last match ended.  [skip]
    counts the code units of the last match that are still to be passed.
    (After an empty match the search moves on by one code unit, as
    [replace] does; the patterns of the source have no empty match, see
    [matches_not_empty].) *)
Fixpoint scan (ignoreCase : bool) (r : regex) (skip : nat) (pv : option ascii)
    (i : nat) (s : string) : list MatchResult :=
  match skip with
  | S n =>
      match s with
      | String c s' => scan ignoreCase r n (Some c) (S i) s'
      | EmptyString => []
      end
  | O =>
      match matchAt ignoreCase r pv i s with
      | Some m =>
          m :: match s with
               | String c s' =>
                   scan ignoreCase r (String.length (matched m) - 1) (Some c) (S i) s'
               | EmptyString => []
               end
      | None =>
          match s with
          | String c s' => scan ignoreCase r 0 (Some c) (S i) s'
          | EmptyString => []
          end
      end
  end.

Definition matchAll (ignoreCase : bool) (r : regex) (s : string) : list MatchResult :=
  scan ignoreCase r 0 None 0 s.

(** [s.replace(re, callback)] over the matches of a global pattern: the
    text between the matches is kept, each match gives way to what the
    callback returns.  [i] is the position [s] starts at. *)
Fixpoint replaceMatches (f : MatchResult -> string) (ms : list MatchResult)
    (i : nat) (s : string) : string :=
  match ms with
  | [] => s
  | m :: ms' =>
      firstn_string (index m - i) s +:+ f m +:+
      replaceMatches f ms' (index m + String.length (matched m))
        (skipn_string (index m - i + String.length (matched m)) s)
  end.

Definition replaceAll (ignoreCase : bool) (r : regex) (f : MatchResult -> string)
    (s : string) : string :=
  replaceMatches f (matchAll ignoreCase r s) 0 s.

(** The least number of code units a match of the pattern takes. *)
Fixpoint minLen (r : regex) : nat :=
  match r with
  | Eps | WordB | Star _ | Opt _ => 0
  | Chr _ | Class _ | Plus _ => 1
  | Seq a b => minLen a + minLen b
  | Alt a b => Nat.min (minLen a) (minLen b)
  | Group _ a => minLen a
  end.

(** ** The three patterns *)

(** [[a-zA-Z_][\w]*], written I below *)
Definition ident : regex := Cat [Class isIdentStart; Star isWordChar].

(** [\x22[^\x22]+\x22]: a double-quoted identifier, written Q below *)
Definition quotedIdent : regex := Cat [Chr dquote; Plus notQuote; Chr dquote].

(** [/\b(I)\.(I)\b/g] in [validateSqlTables] *)
Definition re : regex :=
  Cat [WordB; Group 1 ident; Chr "."; Group 2 ident; WordB].

(** [/\b(FROM|JOIN)\s+(Q\.Q|Q|I)(\b)/g] in [qualifySqlTables] *)
Definition qualifyRe : regex :=
  Cat [WordB; Group 1 (Alt (Lit "FROM") (Lit "JOIN")); Plus isWhiteSpace;
       Group 2 (Alt (Cat [quotedIdent; Chr "."; quotedIdent])
               (Alt quotedIdent ident));
       Group 3 WordB].

(** [/\b(FROM|JOIN)\s+((Q)\.(Q)|(Q)|(I)(?:\.(I))?)/gi] in [validateSqlTables] *)
Definition fromJoinRe : regex :=
  Cat [WordB; Group 1 (Alt (Lit "FROM") (Lit "JOIN")); Plus isWhiteSpace;
       Group 2 (Alt (Cat [Group 3 quotedIdent; Chr "."; Group 4 quotedIdent])
               (Alt (Group 5 quotedIdent)
                    (Cat [Group 6 ident; Opt (Cat [Chr "."; Group 7 ident])])))].

(** ** [qualifySqlTables] *)

(** [const [a, b] = array]: an element that is missing is [undefined]. *)
Definition first (parts : list string) : option string := nth_error parts 0.
Definition second (parts : list string) : option string := nth_error parts 1.

(** The first loop: bare table name to the list of its [schema.table]
    candidates.  The key is [undefined] for an entry without a dot. *)
Definition tableToSchemas (lowerAllowed : list string)
    : gmap (option string) (list string) :=
  fold_left
    (fun (m : gmap (option string) (list string)) (fq : string) =>
       let parts := split "." fq in
       let schema := first parts in
       let tbl := second parts in
       let arr := default [] (m !! tbl) in
       <[tbl := arr ++ [tmpl schema +:+ "." +:+ tmpl tbl]]> m)
    lowerAllowed ∅.

(** The second loop, which fills [map] of the source: only the names with
    one candidate are kept. *)
Definition uniqueTables (t2s : gmap (option string) (list string))
    : gmap (option string) string :=
  omap (fun arr => match arr with [fq] => Some fq | _ => None end) t2s.

(** The callback of [sql.replace]: [(m, kw, target, tail) => ...]. *)
Definition qualifyCallback (map : gmap (option string) string)
    (m : MatchResult) : string :=
  let kw := tmpl (group 1 m) in
  let target := tmpl (group 2 m) in
  let tail := tmpl (group 3 m) in
  let unquoted := removeAll (Ascii.eqb dquote) target in
  let parts := split "." unquoted in
  match parts with
  | [p0] =>
      let tbl := toLowerCase p0 in
      match map !! Some tbl with
      | Some fq =>
          if truthy fq then
            let fqParts := split "." fq in
            kw +:+ " " +:+ quoted (tmpl (first fqParts)) +:+ "." +:+
            quoted (tmpl (second fqParts)) +:+ tail
          else matched m
      | None => matched m
      end
  | _ => matched m
  end.

Definition qualifySqlTables (sql : string) (allowedTables : list string) : string :=
  let lowerAllowed := List.map toLowerCase allowedTables in
  let map := uniqueTables (tableToSchemas lowerAllowed) in
  replaceAll false qualifyRe (qualifyCallback map) sql.

(** ** [validateSqlTables] *)

Record ValidationResult : Type := MkValidation {
  ok : bool;
  unknown : list string;
  noneFound : bool;
  foundTables : list string
}.

(** One turn of the first loop: [found.add(`${m[1]}.${m[2]}`.toLowerCase())]. *)
Definition addQualified (found : JsSet.t) (m : MatchResult) : JsSet.t :=
  JsSet.add (toLowerCase (tmpl (group 1 m) +:+ "." +:+ tmpl (group 2 m))) found.

(** One turn of the FROM/JOIN loop. *)
Definition addInferred (set : JsSet.t) (inferred : JsSet.t) (fm : MatchResult)
    : JsSet.t :=
  let full := tmpl (group 2 fm) in
  let parts := split "." (removeAll (Ascii.eqb dquote) full) in
  match parts with
  | [p0; p1] => JsSet.add (toLowerCase (p0 +:+ "." +:+ p1)) inferred
  | [p0] =>
      let tbl := toLowerCase p0 in
      let matches := List.filter (fun t => endsWith t ("." +:+ tbl)) (JsSet.to_list set) in
      match matches with
      | [t] => JsSet.add t inferred
      | _ => inferred
      end
  | _ => inferred
  end.

Definition notIn (set : JsSet.t) (f : string) : bool := negb (JsSet.has f set).

Definition validateSqlTables (sql : string) (allowedTables : list string)
    : ValidationResult :=
  let set := JsSet.of_list (List.map toLowerCase allowedTables) in
  let found := fold_left addQualified (matchAll false re sql) JsSet.empty in
  let unknown := List.filter (notIn set) (JsSet.to_list found) in
  let noneFound := Nat.eqb (JsSet.size found) 0 in
  let '(found, unknown, noneFound) :=
    if noneFound then
      let inferred :=
        fold_left (addInferred set) (matchAll true fromJoinRe sql) JsSet.empty in
      if Nat.ltb 0 (JsSet.size inferred) then
        let found := fold_left (fun f t => JsSet.add t f) inferred found in
        (found, List.filter (notIn set) (JsSet.to_list found),
         Nat.eqb (JsSet.size found) 0)
      else (found, unknown, noneFound)
    else (found, unknown, noneFound) in
  MkValidation (Nat.eqb (List.length unknown) 0 && negb noneFound)
    unknown noneFound (JsSet.to_list found).

(** ** Numbers: IEEE 754 binary64, as the Standard Library specifies it *)

Definition number : Type := spec_float.
Definition prec : Z := 53.
Definition emax : Z := 1024.

Definition zero : number := S754_zero false.

(** [Number.isFinite] on a number *)
Definition isFinite (x : number) : bool :=
  match x with
  | S754_zero _ | S754_finite _ _ _ => true
  | _ => false
  end.

(** The Number value for [(-1)^neg * M * 10^E]: the nearest binary64, ties
    to even; an integer is rounded as it is, a fraction through the
    quotient and the position of its remainder. *)
Definition ofDecimal (neg : bool) (M : N) (E : Z) : number :=
  match M with
  | N0 => S754_zero neg
  | Npos m =>
      match E with
      | Zneg e =>
          let '(q, e', l) :=
            SFdiv_core_binary prec emax (Zpos m) 0 (Zpos (10 ^ e)) 0 in
          binary_round_aux prec emax neg q e' l
      | _ =>
          match (Zpos m * 10 ^ E)%Z with
          | Zpos n => binary_round prec emax neg n 0
          | _ => S754_zero neg
          end
      end
  end.

Definition ofZ (z : Z) : number := ofDecimal (z <? 0)%Z (Z.abs_N z) 0.

(** [Math.round]: the nearest integer, a tie towards plus infinity; a zero
    result keeps the sign of the argument. *)
Definition Math_round (x : number) : number :=
  match x with
  | S754_finite s m (Zneg k) =>
      let v := cond_Zopp s (Zpos m) in
      let n := ((2 * v + 2 ^ Zpos k) / 2 ^ (Zpos k + 1))%Z in
      binary_normalize prec emax n 0 s
  | _ => x
  end.

Definition Math_abs (x : number) : number := SFabs x.

(** *** Decimal digits *)

Definition digitChar (d : N) : ascii := ascii_of_N (48 + d).

Fixpoint digitsFuel (fuel : nat) (n : N) (acc : string) : string :=
  match fuel with
  | O => acc
  | S f =>
      let acc' := String (digitChar (n mod 10)) acc in
      if (n / 10 =? 0)%N then acc' else digitsFuel f (n / 10) acc'
  end.

(** The decimal digits of a natural number, without leading zeros. *)
Definition digits (n : N) : string := digitsFuel (S (N.to_nat (N.log2 n))) n "".

(** Groups of three digits from the right, joined by [sep]. *)
Fixpoint groupFrom (sep : ascii) (k : nat) (s : string) : string :=
  match s with
  | EmptyString => EmptyString
  | String c r =>
      String c (if (Nat.eqb (k mod 3) 1) && negb (String.eqb r "")
                then String sep (groupFrom sep (k - 1) r)
                else groupFrom sep (k - 1) r)
  end.

Definition grouped (sep : ascii) (n : N) : string :=
  let d := digits n in groupFrom sep (String.length d) d.

(** *** [Number(string)] *)

(** A run of decimal digits: its value, its length and what follows. *)
Fixpoint takeDigits (s : string) (acc : N) (len : nat) : N * nat * string :=
  match s with
  | String c r =>
      if isDigit c then takeDigits r (acc * 10 + (code c - 48)) (S len)
      else (acc, len, s)
  | EmptyString => (acc, len, s)
  end.

Definition hexValue (c : ascii) : option N :=
  if isDigit c then Some (code c - 48)%N
  else if between 97 102 c then Some (code c - 87)%N
  else if between 65 70 c then Some (code c - 55)%N
  else None.

(** The digits of a literal in base 2, 8 or 16, all of the string. *)
Fixpoint radixDigits (base : N) (s : string) (acc : N) : option N :=
  match s with
  | EmptyString => Some acc
  | String c r =>
      match hexValue c with
      | Some d => if (d <? base)%N then radixDigits base r (acc * base + d) else None
      | None => None
      end
  end.

(** ExponentPart, optional: [e] or [E], a sign, digits, to the end. *)
Definition exponentPart (s : string) : option Z :=
  match s with
  | EmptyString => Some 0%Z
  | String c r =>
      if Ascii.eqb c "e" || Ascii.eqb c "E" then
        let '(neg, r') :=
          match r with
          | String "+" t => (false, t)
          | String "-" t => (true, t)
          | _ => (false, r)
          end in
        match takeDigits r' 0 0 with
        | (_, O, _) => None
        | (v, _, EmptyString) => Some (if neg then - Z.of_N v else Z.of_N v)%Z
        | _ => None
        end
      else None
  end.

(** StrUnsignedDecimalLiteral: [None] is NaN. *)
Definition unsignedDecimal (neg : bool) (s : string) : option number :=
  if String.eqb s "Infinity" then Some (S754_infinity neg)
  else
    let '(ip, ni, r1) := takeDigits s 0 0 in
    let '(fp, nf, r2) :=
      match r1 with
      | String "." t => takeDigits t 0 0
      | _ => (0%N, O, r1)
      end in
    if Nat.eqb (ni + nf) 0 then None
    else
      match exponentPart r2 with
      | Some ex =>
          Some (ofDecimal neg (ip * 10 ^ N.of_nat nf + fp) (ex - Z.of_nat nf))
      | None => None
      end.

(** [Number(s)]: StringToNumber; [None] is NaN. *)
Definition Number_ (s : string) : option number :=
  match trim s with
  | EmptyString => Some zero
  | String "+" r => unsignedDecimal false r
  | String "-" r => unsignedDecimal true r
  | String "0" (String c (String d r as body)) =>
      if Ascii.eqb c "x" || Ascii.eqb c "X" then option_map (fun n => ofZ (Z.of_N n)) (radixDigits 16 body 0)
      else if Ascii.eqb c "o" || Ascii.eqb c "O" then option_map (fun n => ofZ (Z.of_N n)) (radixDigits 8 body 0)
      else if Ascii.eqb c "b" || Ascii.eqb c "B" then option_map (fun n => ofZ (Z.of_N n)) (radixDigits 2 body 0)
      else unsignedDecimal false (trim s)
  | t => unsignedDecimal false t
  end.

(** *** [Number::toString] *)

(** The exact value of a finite number. *)
Definition valueOf (x : number) : Q :=
  match x with
  | S754_finite s m e => (inject_Z (cond_Zopp s (Zpos m)) * Qpower 2 e)%Q
  | _ => 0%Q
  end.

(** The least [n], from [lo] upwards, with [x < 10^n]. *)
Fixpoint magnitude (fuel : nat) (x : Q) (n : Z) : Z :=
  match fuel with
  | O => n
  | S f => if Qlt_le_dec x (Qpower 10 n) then n else magnitude f x (n + 1)%Z
  end.

(** The candidates [(s, n)] with [k] digits whose Number value is [x],
    each with its distance to [x]. *)
Definition candidates (x : number) (n0 : Z) (k : Z) : list (Z * Z * Q) :=
  let v := valueOf x in
  flat_map (fun n =>
    let unit := Qpower 10 (n - k) in
    let lo := Qfloor (v / unit)%Q in
    flat_map (fun s =>
      if ((10 ^ (k - 1) <=? s) && (s <? 10 ^ k))%Z &&
         SFeqb (ofDecimal false (Z.to_N s) (n - k)) x
      then [(s, n, Qabs (inject_Z s * unit - v)%Q)] else [])
      [lo; (lo + 1)%Z])
    [n0; (n0 + 1)%Z].

(** The closest candidate, the even one on a tie. *)
Definition better (a b : Z * Z * Q) : Z * Z * Q :=
  match Qcompare (snd a) (snd b) with
  | Lt => a
  | Gt => b
  | Eq => if Z.even (fst (fst a)) then a else b
  end.

Fixpoint shortest (fuel : nat) (x : number) (n0 : Z) (k : Z) : option (Z * Z * Z) :=
  match fuel with
  | O => None
  | S f =>
      match candidates x n0 k with
      | c :: cs => let '(s, n, _) := fold_left better cs c in Some (s, n, k)
      | [] => shortest f x n0 (k + 1)%Z
      end
  end.

Fixpoint zeros (n : nat) : string :=
  match n with O => "" | S n' => String "0" (zeros n') end.

Definition Number_toString (x : number) : string :=
  match x with
  | S754_nan => "NaN"
  | S754_zero _ => "0"
  | S754_infinity s => if s then "-Infinity" else "Infinity"
  | S754_finite sg _ _ =>
      let a := SFabs x in
      let sign := if sg then "-" else "" in
      let n0 := magnitude 700 (valueOf a) (-330) in
      match shortest 17 a n0 1 with
      | Some (s, n, k) =>
          let d := digits (Z.to_N s) in
          let expo :=
            (if (n - 1 <? 0)%Z then "e-" else "e+") +:+ digits (Z.abs_N (n - 1)) in
          sign +:+
          (if ((k <=? n) && (n <=? 21))%Z then d +:+ zeros (Z.to_nat (n - k))
           else if ((0 <? n) && (n <=? 21))%Z then
             firstn_string (Z.to_nat n) d +:+ "." +:+ skipn_string (Z.to_nat n) d
           else if ((-6 <? n) && (n <=? 0))%Z then
             "0." +:+ zeros (Z.to_nat (- n)) +:+ d
           else if (k =? 1)%Z then d +:+ expo
           else firstn_string 1 d +:+ "." +:+ skipn_string 1 d +:+ expo)
      | None => sign
      end
  end.

(** ** Values, rows and errors *)

Inductive JsValue : Type :=
| VUndefined
| VNull
| VBool (b : bool)
| VNumber (x : number)
| VString (s : string).

(** ToString, as a template literal applies it. *)
Definition ToString (v : JsValue) : string :=
  match v with
  | VUndefined => "undefined"
  | VNull => "null"
  | VBool b => if b then "true" else "false"
  | VNumber x => Number_toString x
  | VString s => s
  end.

(** A row: a column-keyed mapping, in column order. *)
Definition Row : Type := list (string * JsValue).

(** [row.name]: the property, or [undefined]. *)
Definition property (name : string) (row : Row) : JsValue :=
  match find (fun '(k, _) => String.eqb k name) row with
  | Some (_, v) => v
  | None => VUndefined
  end.

(** What a rejected promise carries, as far as the code looks at it:
    [err?.message]. *)
Record JsError : Type := MkError { message : option string }.

(** ** The capabilities and the computations that call them *)

(** A call on a capability. *)
Inductive Event : Type :=
| Connect                          (* getPool().connect() *)
| Query (text : string)            (* client.query(text) *)
| Release                          (* client.release() *)
| Complete (system user : string). (* llm.invoke([system, user]) *)

(** The database, as the calls made so far determine its answers:
    [connect] gives a client unless it fails, [query] gives [res.rows]
    unless it fails. *)
Record Database : Type := MkDatabase {
  connect : list Event -> option JsError;
  query : list Event -> string -> JsError + list Row
}.

Inductive Outcome (A : Type) : Type :=
| Returned (a : A)
| Thrown (e : JsError).
Arguments Returned {A} a.
Arguments Thrown {A} e.

(** An async function: from the calls made so far to its outcome and the
    calls made by then. *)
Definition M (A : Type) : Type := list Event -> Outcome A * list Event.

Definition ret {A} (a : A) : M A := fun log => (Returned a, log).

Definition throw {A} (e : JsError) : M A := fun log => (Thrown e, log).

Definition bind {A B} (c : M A) (k : A -> M B) : M B :=
  fun log =>
    match c log with
    | (Returned a, log') => k a log'
    | (Thrown e, log') => (Thrown e, log')
    end.

(** [try { body } catch (err) { handler }] *)
Definition tryCatch {A} (body : M A) (handler : JsError -> M A) : M A :=
  fun log =>
    match body log with
    | (Returned a, log') => (Returned a, log')
    | (Thrown e, log') => handler e log'
    end.

(** [try { body } finally { cleanup }] *)
Definition tryFinally {A} (body : M A) (cleanup : M unit) : M A :=
  fun log =>
    match body log with
    | (o, log') =>
        match cleanup log' with
        | (Returned _, log'') => (o, log'')
        | (Thrown e, log'') => (Thrown e, log'')
        end
    end.

Declare Scope js_scope.
Delimit Scope js_scope with js.
Notation "'await' x <- c ; k" := (bind c (fun x => k))
  (at level 10, x name, c at level 100, k at level 200) : js_scope.
Local Open Scope js_scope.

Definition pool_connect (db : Database) : M unit :=
  fun log =>
    match connect db log with
    | None => (Returned tt, log ++ [Connect])
    | Some e => (Thrown e, log ++ [Connect])
    end.

Definition client_query (db : Database) (text : string) : M (list Row) :=
  fun log =>
    match query db log text with
    | inr rows => (Returned rows, log ++ [Query text])
    | inl e => (Thrown e, log ++ [Query text])
    end.

Definition client_release : M unit := fun log => (Returned tt, log ++ [Release]).

(** ** The state of the graph; a node returns the channels it writes *)

Record State : Type := MkState {
  question : option string;
  schema : option string;
  allowedTables : option (list string);
  sql : option string;
  sqlClean : option string;
  rows : option (list Row);
  answer : option string;
  error : option string
}.

Definition noUpdate : State := MkState None None None None None None None None.

(** ** [nodeExecuteSQL] *)

Definition join (sep : string) (l : list string) : string := String.concat sep l.

(** [countRes.rows?.[0]?.count ?? 0] *)
Definition countOf (countRows : list Row) : JsValue :=
  match countRows with
  | [] => VNumber zero
  | row :: _ =>
      match property "count" row with
      | VUndefined | VNull => VNumber zero
      | v => v
      end
  end.

(** [{ rows, answer }] and [{ rows }]: the channels the node writes. *)
Definition rowsAndAnswer (rs : list Row) (a : option string) : State :=
  {| question := None; schema := None; allowedTables := None; sql := None;
     sqlClean := None; rows := Some rs; answer := a; error := None |}.

Definition nodeExecuteSQL (db : Database) (sql : string) (allowedTables : list string)
    : M State :=
  let v := validateSqlTables sql allowedTables in
  if negb (ok v) then
    let msgError :=
      if noneFound v
      then "Blocked execution. SQL must reference at least one fully-qualified allowed table."
      else "Blocked execution. Unknown tables: " +:+ join ", " (unknown v) in
    ret (rowsAndAnswer [] (Some msgError))
  else
    await _ <- pool_connect db;
    tryFinally
      (tryCatch
         (await res <- client_query db sql;
          match res with
          | [] =>
              match foundTables v with
              | first :: _ =>
                  if truthy first then
                    let parts := split "." first in
                    let schemaName := tmpl (nth_error parts 0) in
                    let tableName := tmpl (nth_error parts 1) in
                    let q := "SELECT COUNT(*)::int AS count FROM " +:+
                             quoted schemaName +:+ "." +:+ quoted tableName in
                    await countRes <- client_query db q;
                    let total := countOf countRes in
                    ret (rowsAndAnswer []
                           (Some ("No results. Diagnostics: " +:+
                                  quoted schemaName +:+ "." +:+
                                  quoted tableName +:+ " has " +:+
                                  ToString total +:+ " rows.")))
                  else ret (rowsAndAnswer res None)
              | [] => ret (rowsAndAnswer res None)
              end
          | _ :: _ => ret (rowsAndAnswer res None)
          end)
         (fun err =>
            let msg :=
              match message err with
              | Some m => if truthy m then m else "Database error"
              | None => "Database error"
              end in
            ret (rowsAndAnswer [] (Some ("DB error: " +:+ msg)))))
      client_release.

(** ** [RagService.ask] *)

Inductive AskResult : Type :=
| Rejected (message : string)                   (* { ok: false, message } *)
| Answered (question : string) (sql answer : option string)
           (rows : option (list Row)).           (* { ok: true, question, ... } *)

Definition ask_ok (r : AskResult) : bool :=
  match r with Rejected _ => false | Answered _ _ _ _ => true end.

Section RagService.

(** [runSqlAgent]: the compiled graph, invoked on the question. *)
Variable runSqlAgent : string -> M State.

Definition ask (question : string) : M AskResult :=
  if negb (truthy question) || Nat.eqb (String.length (trim question)) 0 then
    ret (Rejected "Missing query parameter q")
  else
    await result <- runSqlAgent question;
    ret (Answered question (sql result) (answer result) (rows result)).

End RagService.

(** ** [toNumberMaybe] and [formatCLP] of [nodeAnswer] *)

Definition toNumberMaybe (v : JsValue) : option number :=
  match v with
  | VNumber x => if isFinite x then Some x else None
  | VString s =>
      let s1 := removeAll isWhiteSpace s in
      let s2 := removeAll (Ascii.eqb ".") s1 in
      let s3 := replaceChar "," "." s2 in
      match Number_ s3 with
      | Some n => if isFinite n then Some n else None
      | None => None
      end
  | _ => None
  end.

Section FormatCLP.

(** [clpFmt.format], of [new Intl.NumberFormat('es-CL', { style:
    'currency', currency: 'CLP', minimumFractionDigits: 0,
    maximumFractionDigits: 0 })]. *)
Variable clpFmt_format : number -> string.

Definition formatCLP (num : number) : string :=
  if negb (isFinite num) then ""
  else
    let rounded := Math_round num in
    if SFltb rounded zero then "-" +:+ clpFmt_format (Math_abs rounded)
    else clpFmt_format rounded.

End FormatCLP.

(** The es-CL rendering of an amount in Chilean pesos without decimals:
    the peso sign, a minus sign after it for a negative amount, the digits
    in groups of three separated by a full stop (the rules the system
    prompt of [nodeAnswer] spells out: 1234567 reads as $1.234.567).  The
    digits are those of the shortest decimal that reads back as the
    number, the ones of [Number_toString], followed by zeros in a large
    amount; a decimal with a fraction is rounded half away from zero.
    [formatCLP] only formats finite numbers; the other cases print their
    name. *)
Definition esCL_format (x : number) : string :=
  match x with
  | S754_nan => "NaN"
  | S754_infinity s => if s then "-Infinity" else "Infinity"
  | S754_zero s => if s then "$-0" else "$0"
  | S754_finite sg _ _ =>
      let a := SFabs x in
      let n0 := magnitude 700 (valueOf a) (-330) in
      let amount :=
        match shortest 17 a n0 1 with
        | Some (s, n, k) =>
            if (k <=? n)%Z then (s * 10 ^ (n - k))%Z
            else ((2 * s + 10 ^ (k - n)) / (2 * 10 ^ (k - n)))%Z
        | None => 0%Z
        end in
      (if sg then "$-" else "$") +:+ grouped "." (Z.to_N amount)
  end.

(** What one turn of the FROM/JOIN loop adds, if anything. *)
Definition inferredOf (set : JsSet.t) (fm : MatchResult) : option string :=
  match split "." (removeAll (Ascii.eqb dquote) (tmpl (group 2 fm))) with
  | [p0; p1] => Some (toLowerCase (p0 +:+ "." +:+ p1))
  | [p0] =>
      match List.filter (fun t => endsWith t ("." +:+ toLowerCase p0)) set with
      | [t] => Some t
      | _ => None
      end
  | _ => None
  end.

(** * What the specification says, in its own words *)

(** The [schema.table] tokens of the whole text, lower-cased. *)
Definition qualifiedTokens (sql : string) : list string :=
  List.map (fun m => toLowerCase (tmpl (group 1 m) +:+ "." +:+ tmpl (group 2 m)))
    (matchAll false re sql).

(** The targets that follow FROM or JOIN, quoted or bare, as written. *)
Definition fromJoinTargets (sql : string) : list string :=
  List.map (fun m => tmpl (group 2 m)) (matchAll true fromJoinRe sql).

Definition unquote (target : string) : string := removeAll (Ascii.eqb dquote) target.

(** A FROM/JOIN target resolves to the table [t]: a two-part name to
    itself, lower-cased; a one-part name to the one allow-listed table
    that ends with a dot and that name. *)
Inductive Resolves (allowed : list string) (target t : string) : Prop :=
| resolves_two (a b : string) :
    split "." (unquote target) = [a; b] ->
    t = toLowerCase (a +:+ "." +:+ b) ->
    Resolves allowed target t
| resolves_one (a : string) :
    split "." (unquote target) = [a] ->
    In t (List.map toLowerCase allowed) ->
    endsWith t ("." +:+ toLowerCase a) = true ->
    (forall t', In t' (List.map toLowerCase allowed) ->
                endsWith t' ("." +:+ toLowerCase a) = true -> t' = t) ->
    Resolves allowed target t.

Definition isEmpty {A} (l : list A) : bool :=
  match l with [] => true | _ => false end.

(** A FROM/JOIN match whose target is written in double quotes, and the
    quoted targets of a text. *)
Definition isQuotedTarget (fm : MatchResult) : bool :=
  match group 3 fm, group 5 fm with
  | None, None => false
  | _, _ => true
  end.

Definition quotedTargets (sql : string) : list string :=
  List.map (fun m => tmpl (group 2 m))
    (List.filter isQuotedTarget (matchAll true fromJoinRe sql)).

(** The allow-listed tables a one-part name could stand for. *)
Definition suffixCandidates (allowed : list string) (name : string) : list string :=
  List.filter (fun t => endsWith t ("." +:+ toLowerCase name))
    (JsSet.of_list (List.map toLowerCase allowed)).

(** The reading of the second claim as it is worded: the update is
    tagged with the error kind. *)
Definition blockedWithErrorKind (db : Database) (sql : string)
    (allowed : list string) (log : list Event) : Prop :=
  ok (validateSqlTables sql allowed) = false ->
  exists st, nodeExecuteSQL db sql allowed log = (Returned st, log) /\
             rows st = Some [] /\ error st = Some "UNKNOWN_TABLES".

(** A question that is empty or made of white space only. *)
Definition blank (question : string) : Prop :=
  forall c, In c (list_ascii_of_string question) -> isWhiteSpace c = true.

(** [err?.message || 'Database error'] *)
Definition messageOf (err : JsError) : string :=
  match message err with
  | Some m => if truthy m then m else "Database error"
  | None => "Database error"
  end.

(** The diagnostic query on a table of [foundTables]. *)
Definition countQuery (table : string) : string :=
  "SELECT COUNT(*)::int AS count FROM " +:+
  quoted (tmpl (nth_error (split "." table) 0)) +:+ "." +:+
  quoted (tmpl (nth_error (split "." table) 1)).

(** Databases for the examples: one that answers every query with no
    row but the count, one whose queries all fail. *)
Definition dbEmpty : Database :=
  MkDatabase (fun _ => None)
    (fun _ q => if String.eqb (substring 0 12 q) "SELECT COUNT"
                then inr [[("count", VNumber (ofZ 42))]] else inr []).

Definition dbFailing : Database :=
  MkDatabase (fun _ => None)
    (fun _ _ => inl (MkError (Some "relation does not exist"))).

(** The candidates of a bare table name, as the first loop of
    [qualifySqlTables] collects them: one for each entry of the lower-cased
    allow-list whose second part is that name. *)
Definition entriesFor (key : option string) (lowerAllowed : list string) : list string :=
  List.map (fun fq => tmpl (first (split "." fq)) +:+ "." +:+ tmpl (second (split "." fq)))
    (List.filter (fun fq => bool_decide (second (split "." fq) = key)) lowerAllowed).

(** Every code unit of the string is in the class. *)
Fixpoint allChars (p : ascii -> bool) (s : string) : bool :=
  match s with
  | EmptyString => true
  | String c r => p c && allChars p r
  end.

(** The last code unit of [s], or [pv] when [s] is empty. *)
Fixpoint lastChar (pv : option ascii) (s : string) : option ascii :=
  match s with
  | EmptyString => pv
  | String c r => lastChar (Some c) r
  end.

(** The text starts with one of the two keywords, in upper case. *)
Definition keywordAt (s : string) : bool := prefix "FROM" s || prefix "JOIN" s.

(** No keyword starts at any of the first [n] positions of the text. *)
Fixpoint noKeywordBefore (n : nat) (s : string) : bool :=
  match n with
  | O => true
  | S n' =>
      negb (keywordAt s) &&
      match s with
      | EmptyString => true
      | String _ r => noKeywordBefore n' r
      end
  end.

(** A bare table name: [[a-zA-Z_][\w]*]. *)
Definition bareName (t : string) : bool :=
  match t with
  | String c r => isIdentStart c && allChars isWordChar r
  | EmptyString => false
  end.

(** A run of white space, not empty. *)
Definition whiteRun (ws : string) : bool :=
  negb (String.eqb ws "") && allChars isWhiteSpace ws.

(** A pipeline for the examples: it calls both capabilities. *)
Definition agentCalling : string -> M State :=
  fun question log =>
    (Returned noUpdate, log ++ [Connect; Complete "system" question; Release]).

(** The binary64 number nearest to 1234.56. *)
Definition precio : number := S754_finite false 5429652300748554 (-42).


(** A text with an unquoted token and a quoted FROM target. *)
Definition sqlQuotedInside : string := "SELECT p.x FROM " +:+ quoted "s.t".

(** A text whose only table reference is a bare name, with a qualified
    column. *)
Definition sqlColumnOnly : string := "SELECT t.col FROM t".

(** An occurrence of a table token in the text: an identifier, a dot and
    an identifier, with no word character right before or right after. *)
Definition TokenAt (sql pre a b post : string) : Prop :=
  sql = pre +:+ a +:+ "." +:+ b +:+ post /\
  bareName a = true /\ bareName b = true /\
  isWordOpt (lastChar None pre) = false /\ isWordOpt (peek post) = false.

(** [t] is a token of the text, in lower case. *)
Definition IsToken (sql t : string) : Prop :=
  exists pre a b post,
    TokenAt sql pre a b post /\ t = toLowerCase a +:+ "." +:+ toLowerCase b.

(** A token that does not come right after a dot (in a.b.c the token b.c
    does, and the scan, which goes on after a.b, does not see it). *)
Definition IsLeadingToken (sql t : string) : Prop :=
  exists pre a b post,
    TokenAt sql pre a b post /\ lastChar None pre <> Some "."%char /\
    t = toLowerCase a +:+ "." +:+ toLowerCase b.

(** The text has an even number of double quotes: what follows it is
    outside double quotes. *)
Fixpoint evenQuotes (s : string) : bool :=
  match s with
  | EmptyString => true
  | String c r => if Ascii.eqb c dquote then negb (evenQuotes r) else evenQuotes r
  end.

(** A token written outside double quotes. *)
Definition IsUnquotedToken (sql t : string) : Prop :=
  exists pre a b post,
    TokenAt sql pre a b post /\ evenQuotes pre = true /\
    t = toLowerCase a +:+ "." +:+ toLowerCase b.








(** The number for -0.3. *)
Definition minusThreeTenths : number := ofDecimal true 3 (-1).

(** The reading of the end of the eighth claim as it is worded: the
    rendering of a negative value starts with a minus sign. *)
Definition negativePrefixed (fmt : number -> string) (x : number) : Prop :=
  (valueOf x < 0)%Q -> exists rest, formatCLP fmt x = "-" +:+ rest.

(** The reading of the fourth claim as it is worded: with an unquoted
    token in the text, no quoted FROM/JOIN target is found or unknown. *)
Definition quotedTargetsAbsent (sql : string) (allowed : list string) : Prop :=
  (exists u, IsUnquotedToken sql u) ->
  forall target t,
    In target (quotedTargets sql) -> Resolves allowed target t ->
    ~ In t (foundTables (validateSqlTables sql allowed)) /\
    ~ In t (unknown (validateSqlTables sql allowed)).

(** The reading of the tenth claim as it is worded: when every FROM/JOIN
    target is a one-part name without a single candidate, nothing is
    found and nothing is unknown. *)
Definition unresolvableGivesNoneFound (sql : string) (allowed : list string) : Prop :=
  (forall target, In target (fromJoinTargets sql) ->
     exists name, split "." (unquote target) = [name] /\
                  List.length (suffixCandidates allowed name) <> 1) ->
  noneFound (validateSqlTables sql allowed) = true /\
  unknown (validateSqlTables sql allowed) = [].


(** * The rest of the graph module, and the controller *)

(** ** The sanitation of the model's reply in [nodeGenerateSQL] *)

Definition backtick : ascii := ascii_of_N 96.
Definition newline : ascii := ascii_of_N 10.
Definition nl : string := String newline EmptyString.

(** Three backticks. *)
Definition fence : string :=
  String backtick (String backtick (String backtick EmptyString)).

(** [[a-zA-Z]] *)
Definition isLetter (c : ascii) : bool := isLower c || isUpper c.

Fixpoint dropLetters (s : string) : string :=
  match s with
  | String c r => if isLetter c then dropLetters r else s
  | EmptyString => EmptyString
  end.

Definition dropNewline (s : string) : string :=
  match s with
  | String c r => if Ascii.eqb c newline then r else s
  | EmptyString => EmptyString
  end.

(** The first alternative of the fence pattern, anchored at the start of
    the text: three backticks, the longest run of letters, a line feed if
    one follows.  Nothing follows it in the alternative, so the greedy
    choices stand. *)
Definition dropOpenFence (s : string) : string :=
  if prefix fence s then dropNewline (dropLetters (skipn_string 3 s)) else s.

(** The second alternative, anchored at the end of the text: it matches at
    the one position where exactly three backticks are left. *)
Fixpoint dropCloseFence (s : string) : string :=
  if String.eqb s fence then EmptyString
  else match s with
       | EmptyString => EmptyString
       | String c r => String c (dropCloseFence r)
       end.

(** [s.replace(F, '')] for the global fence pattern F: the anchored
    opening alternative can only match at position 0, and the search for
    the closing one resumes after it. *)
Definition stripFences (s : string) : string := dropCloseFence (dropOpenFence s).

(** [s.replace(/\s+/g, ' ')] *)
Definition collapseWhiteSpace (s : string) : string :=
  replaceAll false (Plus isWhiteSpace) (fun _ => " ") s.

(** The two sanitation statements of [nodeGenerateSQL]. *)
Definition sanitize (content : string) : string :=
  let sql := trim (stripFences (trim content)) in
  trim (collapseWhiteSpace sql).

(** Each run of white space gives way to one space; [inRun] tells that
    the code unit before was white space. *)
Fixpoint collapse (inRun : bool) (s : string) : string :=
  match s with
  | EmptyString => EmptyString
  | String c r =>
      if isWhiteSpace c
      then if inRun then collapse true r else String " " (collapse true r)
      else String c (collapse false r)
  end.

(** Every white-space code unit of the text is a space that follows a
    code unit which is not white space ([afterSpace] tells what came
    before), and the text does not end with one. *)
Fixpoint singleSpaced (afterSpace : bool) (s : string) : bool :=
  match s with
  | EmptyString => negb afterSpace
  | String c r =>
      if isWhiteSpace c
      then Ascii.eqb c " " && negb afterSpace && singleSpaced true r
      else singleSpaced false r
  end.

(** A single line: words separated by one space each, nothing around. *)
Definition singleLine (s : string) : bool :=
  match s with
  | EmptyString => true
  | _ => singleSpaced true s
  end.

Definition spaceOpt (o : option ascii) : bool :=
  match o with Some c => isWhiteSpace c | None => false end.

(** ** [RagController.ask] *)

(** What the handler sends: [res.send(text)] or [res.json(data)], after
    the headers it has set, in that order. *)
Inductive Body : Type :=
| TextBody (text : string)
| JsonBody (data : AskResult).

Record Response : Type := MkResponse {
  headers : list (string * string);
  body : Body
}.

(** [data.sql ?? ''] *)
Definition sqlOrEmpty (data : AskResult) : string :=
  match data with
  | Answered _ (Some sql) _ _ => sql
  | _ => EmptyString
  end.

(** The Markdown body: the SQL in a fence labelled sql. *)
Definition mdBody (sql : string) : string :=
  fence +:+ "sql" +:+ nl +:+ sql +:+ nl +:+ fence +:+ nl.

(** [format === name], for the query parameter [format]. *)
Definition formatIs (format : option string) (name : string) : bool :=
  match format with Some f => String.eqb f name | None => false end.

Module RagController.
Section Handler.

Variable runSqlAgent : string -> M State.

(** [q] and [format] are the query parameters, [None] when absent. *)
Definition ask (q format : option string) : M Response :=
  await data <- ask runSqlAgent (match q with Some s => s | None => EmptyString end);
  if formatIs format "sql" then
    ret (MkResponse [("Content-Type", "text/plain; charset=utf-8")]
           (TextBody (sqlOrEmpty data)))
  else if formatIs format "md" then
    ret (MkResponse [("Content-Type", "text/markdown; charset=utf-8")]
           (TextBody (mdBody (sqlOrEmpty data))))
  else if formatIs format "sqldownload" then
    ret (MkResponse [("Content-Type", "text/plain; charset=utf-8");
                     ("Content-Disposition",
                      "attachment; filename=" +:+ quoted "query.sql")]
           (TextBody (sqlOrEmpty data)))
  else ret (MkResponse [] (JsonBody data)).

End Handler.
End RagController.

(** ** The language model *)

(** [msg.content]: a string, or an array of blocks, each a string or an
    object whose [text] is read. *)
Inductive ContentBlock : Type :=
| StringBlock (s : string)
| ObjectBlock (text : option string).

Inductive Content : Type :=
| StringContent (s : string)
| BlockContent (blocks : list ContentBlock).

(** The model, as the calls made so far determine its reply to the two
    messages. *)
Record Llm : Type := MkLlm {
  invoke : list Event -> string -> string -> JsError + Content
}.

Definition llm_invoke (llm : Llm) (system user : string) : M Content :=
  fun log =>
    match invoke llm log system user with
    | inr content => (Returned content, log ++ [Complete system user])
    | inl e => (Thrown e, log ++ [Complete system user])
    end.

(** [typeof c === 'string' ? c : c.text || ''] *)
Definition blockText (c : ContentBlock) : string :=
  match c with
  | StringBlock s => s
  | ObjectBlock (Some t) => t
  | ObjectBlock None => EmptyString
  end.

(** The reply as one string: the blocks joined by line feeds. *)
Definition contentText (content : Content) : string :=
  match content with
  | StringContent s => s
  | BlockContent blocks => join nl (List.map blockText blocks)
  end.

(** ** [nodeGenerateSQL] *)

Definition generateSystem : string :=
  join nl
    ["You are a helpful data analyst that writes PostgreSQL SQL queries.";
     "Constraints:";
     "- Use ONLY the tables and columns available in the provided schema.";
     "- Prefer safe, read-only queries (SELECT only).";
     "- If aggregation is requested (e.g., top products), include ORDER BY and LIMIT.";
     "- Use ANSI SQL and functions supported by PostgreSQL.";
     "- Quote identifiers (schema, table, and column names) with double quotes EXACTLY as they appear in the SCHEMA/ALLOWED_TABLES (PostgreSQL is case-sensitive with quoted identifiers).";
     "- Do NOT add WHERE filters unless they are clearly implied by the question.";
     "- Prefer straightforward queries (e.g., ORDER BY + LIMIT for top-N) without unnecessary conditions.";
     "- For single-table queries, fully-qualify and quote the table ONLY in the FROM clause (e.g., FROM " +:+ quoted "public" +:+ "." +:+ quoted "Producto" +:+ "). In SELECT/ORDER BY, use only quoted column names without table prefixes (e.g., SELECT " +:+ quoted "nombre" +:+ " ... ORDER BY " +:+ quoted "precio" +:+ " DESC).";
     "- Only use table qualifiers on columns when there are multiple tables and ambiguity.";
     "- Return ONLY the SQL, without explanation or markdown fences."].

Definition generatePrompt (schema : string) (allowedTables : list string)
    (question : string) : string :=
  "SCHEMA" +:+ nl +:+ schema +:+ nl +:+ nl +:+
  "ALLOWED_TABLES (use only fully qualified names, and quote exactly like this):" +:+ nl +:+
  join nl (List.map (fun t => "- " +:+ t) allowedTables) +:+ nl +:+ nl +:+
  "QUESTION: " +:+ question +:+ nl +:+ nl +:+
  "Write a single PostgreSQL SQL query to answer the question. You MUST use only tables from ALLOWED_TABLES and you MUST double-quote identifiers exactly as shown (e.g., " +:+
  quoted "public" +:+ "." +:+ quoted "Producto" +:+
  "). If the question cannot be answered with these tables, write: SELECT 1 WHERE FALSE;".

(** [{ sql, answer, error }] and [{ sql, sqlClean }]: the channels the
    node writes. *)
Definition sqlAnswerError (s a e : string) : State :=
  {| question := None; schema := None; allowedTables := None; sql := Some s;
     sqlClean := None; rows := None; answer := Some a; error := Some e |}.

Definition sqlAndClean (s clean : string) : State :=
  {| question := None; schema := None; allowedTables := None; sql := Some s;
     sqlClean := Some clean; rows := None; answer := None; error := None |}.

(** The source text of the pattern that [sqlClean] is stripped of.  (In
    the template literal that builds it the escaped full stops are plain
    full stops.) *)
Definition qualifierPattern (table : string) : string :=
  let parts := split "." table in
  quoted (tmpl (nth_error parts 0)) +:+ "." +:+
  quoted (tmpl (nth_error parts 1)) +:+ ".".

Section GenerateSQL.

(** [text.replace(new RegExp(source, 'g'), '')], for a pattern compiled
    at run time; the constructor throws on a source that is no pattern. *)
Variable removePattern : string -> string -> JsError + string.

Definition nodeGenerateSQL (llm : Llm) (question schema : string)
    (allowedTables : list string) : M State :=
  await msg <- llm_invoke llm generateSystem
                 (generatePrompt schema allowedTables question);
  let sql0 := sanitize (contentText msg) in
  let sql1 := qualifySqlTables sql0 allowedTables in
  let v := validateSqlTables sql1 allowedTables in
  if negb (ok v) then
    let msgError :=
      if noneFound v
      then "SQL must reference at least one fully-qualified table from: " +:+
           join ", " allowedTables +:+ ". Use schema.table names."
      else "SQL references unknown tables: " +:+ join ", " (unknown v) +:+
           ". Allowed tables: " +:+ join ", " allowedTables in
    ret (sqlAnswerError sql1 msgError "UNKNOWN_TABLES")
  else
    match foundTables v with
    | [table] =>
        match removePattern (qualifierPattern table) sql1 with
        | inr clean => ret (sqlAndClean sql1 clean)
        | inl e => throw e
        end
    | _ => ret (sqlAndClean sql1 sql1)
    end.

End GenerateSQL.

(** ** [loadDatabaseSchema] and [nodeIntrospect] *)

Definition catalogQuery : string :=
  join nl
    [EmptyString;
     "      SELECT c.table_schema, c.table_name, c.column_name, c.data_type";
     "      FROM information_schema.columns c";
     "      JOIN information_schema.tables t";
     "        ON c.table_schema = t.table_schema AND c.table_name = t.table_name";
     "      WHERE t.table_type = 'BASE TABLE' AND c.table_schema NOT IN ('pg_catalog', 'information_schema')";
     "      ORDER BY c.table_schema, c.table_name, c.ordinal_position;";
     "      "].

Definition tableKey (row : Row) : string :=
  ToString (property "table_schema" row) +:+ "." +:+
  ToString (property "table_name" row).

Definition columnOf (row : Row) : string :=
  ToString (property "column_name" row) +:+ " " +:+
  ToString (property "data_type" row).

(** One turn of the grouping loop on the map [byTable], kept as its
    entries in insertion order, each with its [columns]: a key not seen
    before gets an entry at the end, then the column is pushed. *)
Fixpoint pushColumn (key column : string) (byTable : list (string * list string))
    : list (string * list string) :=
  match byTable with
  | [] => [(key, [column])]
  | (k, columns) :: others =>
      if String.eqb k key then (k, columns ++ [column]) :: others
      else (k, columns) :: pushColumn key column others
  end.

Definition groupColumns (rows : list Row) : list (string * list string) :=
  fold_left (fun byTable row => pushColumn (tableKey row) (columnOf row) byTable)
    rows [].

Definition tableLine (entry : string * list string) : string :=
  "TABLE " +:+ fst entry +:+ " ( " +:+ join ", " (snd entry) +:+ " )".

(** The result is the pair of [schemaText] and [allowedTables]. *)
Definition loadDatabaseSchema (db : Database) : M (string * list string) :=
  await _ <- pool_connect db;
  tryFinally
    (await tablesRes <- client_query db catalogQuery;
     let byTable := groupColumns tablesRes in
     ret (join nl (List.map tableLine byTable), List.map fst byTable))
    client_release.

Definition schemaAndTables (text : string) (tables : list string) : State :=
  {| question := None; schema := Some text; allowedTables := Some tables;
     sql := None; sqlClean := None; rows := None; answer := None; error := None |}.

Definition nodeIntrospect (db : Database) : M State :=
  await loaded <- loadDatabaseSchema db;
  ret (schemaAndTables (fst loaded) (snd loaded)).

(** ** [nodeAnswer] *)

(** [Object.keys(row)]: the keys that are array indices first, in
    ascending order, then the others in insertion order. *)
Fixpoint decimalValue (acc : N) (s : string) : N :=
  match s with
  | EmptyString => acc
  | String c r => decimalValue (acc * 10 + (code c - 48))%N r
  end.

Definition arrayIndex (k : string) : option N :=
  match k with
  | EmptyString => None
  | String c r =>
      if allChars isDigit k && (negb (Ascii.eqb c "0") || String.eqb r EmptyString)
      then let n := decimalValue 0 k in
           if (n <? 4294967295)%N then Some n else None
      else None
  end.

Fixpoint insertIndex (n : N) (k : string) (l : list (N * string)) : list (N * string) :=
  match l with
  | [] => [(n, k)]
  | (m, j) :: r => if (n <? m)%N then (n, k) :: l else (m, j) :: insertIndex n k r
  end.

Definition Object_keys (row : Row) : list string :=
  let keys := List.map fst row in
  List.map snd
    (fold_left (fun acc k =>
                  match arrayIndex k with
                  | Some n => insertIndex n k acc
                  | None => acc
                  end) keys []) ++
  List.filter (fun k => match arrayIndex k with Some _ => false | None => true end) keys.

Definition answerOnly (a : string) : State :=
  {| question := None; schema := None; allowedTables := None; sql := None;
     sqlClean := None; rows := None; answer := Some a; error := None |}.

(** [priorAnswer && priorAnswer.trim().length > 0] *)
Definition notBlank (priorAnswer : option string) : bool :=
  match priorAnswer with
  | Some p => truthy p && Nat.ltb 0 (String.length (trim p))
  | None => false
  end.

(** [process.env.OPENAI_API_KEY] is set to a string that is not empty. *)
Definition hasKey (apiKey : option string) : bool :=
  match apiKey with Some k => truthy k | None => false end.

Section Answer.

(** [JSON.stringify] on an array of rows. *)
Variable JSON_stringify : list Row -> string.

(** The two messages of the branch that calls the model, computed from
    the state: the fixed system text and the user text with the question,
    the tables, the sample rows and the statistics serialised. *)
Variable answerMessages : State -> string * string.

(** [apiKey] is [process.env.OPENAI_API_KEY]. *)
Definition nodeAnswer (apiKey : option string) (llm : Llm) (state : State) : M State :=
  let priorAnswer := answer state in
  if negb (hasKey apiKey) then
    let fallback :=
      if notBlank priorAnswer then tmpl priorAnswer else EmptyString in
    let fallback :=
      if negb (truthy fallback) then
        match rows state with
        | Some (row :: others) =>
            "Found " +:+
            Number_toString (ofZ (Z.of_nat (List.length (row :: others)))) +:+
            " rows. Keys: " +:+ join ", " (Object_keys row) +:+
            ". Sample: " +:+ JSON_stringify (firstn 3 (row :: others))
        | _ => "No results."
        end
      else fallback in
    ret (answerOnly fallback)
  else
    await msg <- llm_invoke llm (fst (answerMessages state)) (snd (answerMessages state));
    let md := trim (contentText msg) in
    let a :=
      if truthy md then md
      else match priorAnswer with
           | Some p => if truthy p then p else "Sin resultados."
           | None => "Sin resultados."
           end in
    ret (answerOnly a).

End Answer.

(** ** The graph and [runSqlAgent] *)

(** A channel keeps its value unless the node's update writes it. *)
Definition orElse {A} (update current : option A) : option A :=
  match update with Some _ => update | None => current end.

Definition mergeState (state update : State) : State :=
  {| question := orElse (question update) (question state);
     schema := orElse (schema update) (schema state);
     allowedTables := orElse (allowedTables update) (allowedTables state);
     sql := orElse (sql update) (sql state);
     sqlClean := orElse (sqlClean update) (sqlClean state);
     rows := orElse (rows update) (rows state);
     answer := orElse (answer update) (answer state);
     error := orElse (error update) (error state) |}.

(** [graph.invoke({ question })] starts from the question alone. *)
Definition initialState (q : string) : State :=
  {| question := Some q; schema := None; allowedTables := None; sql := None;
     sqlClean := None; rows := None; answer := None; error := None |}.

Definition runNode (node : State -> M State) (state : State) : M State :=
  await update <- node state;
  ret (mergeState state update).

(** [state.allowedTables], which [nodeIntrospect] has written before any
    node reads it. *)
Definition tablesOf (state : State) : list string :=
  match allowedTables state with Some l => l | None => [] end.

Section Graph.

Variable removePattern : string -> string -> JsError + string.
Variable JSON_stringify : list Row -> string.
Variable answerMessages : State -> string * string.

(** The four nodes in the order of the edges: introspect, generate_sql,
    execute_sql, format_answer. *)
Definition runSqlAgent (apiKey : option string) (db : Database) (llm : Llm)
    (q : string) : M State :=
  await s1 <- runNode (fun _ => nodeIntrospect db) (initialState q);
  await s2 <- runNode (fun s => nodeGenerateSQL removePattern llm
                                  (tmpl (question s)) (tmpl (schema s)) (tablesOf s)) s1;
  await s3 <- runNode (fun s => nodeExecuteSQL db (tmpl (sql s)) (tablesOf s)) s2;
  runNode (nodeAnswer JSON_stringify answerMessages apiKey llm) s3.

End Graph.

(** ** The helpers of [nodeAnswer] *)

(** [s.includes(sub)] *)
Fixpoint includes (s sub : string) : bool :=
  prefix sub s ||
  match s with
  | EmptyString => false
  | String _ r => includes r sub
  end.

Definition moneyNameHints : list string :=
  ["precio"; "monto"; "total"; "valor"; "costo"; "venta"; "ventas"; "importe";
   "subtotal"; "neto"; "bruto"].

Definition isMoneyColumn (name : string) : bool :=
  let n := toLowerCase name in
  existsb (fun h => includes n h) moneyNameHints.

(** [s.replace(/a/g, w)] for one code unit [a]. *)
Fixpoint replaceWith (a : ascii) (w : string) (s : string) : string :=
  match s with
  | EmptyString => EmptyString
  | String c r =>
      if Ascii.eqb c a then w +:+ replaceWith a w r
      else String c (replaceWith a w r)
  end.

Definition escapeHtml (str : string) : string :=
  replaceWith "'" "&#39;"
    (replaceWith dquote "&quot;"
       (replaceWith ">" "&gt;"
          (replaceWith "<" "&lt;"
             (replaceWith "&" "&amp;" str)))).

(** A line feed or a carriage return. *)
Definition isLineBreak (c : ascii) : bool := (code c =? 10)%N || (code c =? 13)%N.

Fixpoint replaceClass (p : ascii -> bool) (b : ascii) (s : string) : string :=
  match s with
  | EmptyString => EmptyString
  | String c r => String (if p c then b else c) (replaceClass p b r)
  end.

(** On the values of this development [JSON.stringify] is only reached
    by a boolean. *)
Definition escapeCell (v : JsValue) : string :=
  match v with
  | VNull | VUndefined => EmptyString
  | VString s => escapeHtml (replaceClass isLineBreak " " s)
  | VNumber x => escapeHtml (replaceClass isLineBreak " " (Number_toString x))
  | VBool b => escapeHtml (replaceClass isLineBreak " " (if b then "true" else "false"))
  end.

(** The code unit is none of the four that open or close a tag or an
    attribute value. *)
Definition htmlSafe (c : ascii) : bool :=
  negb (Ascii.eqb c "<") && negb (Ascii.eqb c ">") &&
  negb (Ascii.eqb c dquote) && negb (Ascii.eqb c "'").

(** ** The statistics of [nodeAnswer] *)

Module NumericStats.
Record t : Type := Mk {
  count : nat;
  min : number;
  max : number;
  avg : number
}.
End NumericStats.

Definition isNaN (x : number) : bool :=
  match x with S754_nan => true | _ => false end.

Definition isZeroOfSign (s : bool) (x : number) : bool :=
  match x with S754_zero s' => Bool.eqb s s' | _ => false end.

(** One turn of [Math.min]: a NaN wins; minus zero is below plus zero. *)
Definition lowerOf (lowest x : number) : number :=
  if isNaN lowest || isNaN x then S754_nan
  else if isZeroOfSign true x && isZeroOfSign false lowest then x
  else if SFltb x lowest then x else lowest.

Definition Math_min (nums : list number) : number :=
  fold_left lowerOf nums (S754_infinity false).

(** One turn of [Math.max]. *)
Definition higherOf (highest x : number) : number :=
  if isNaN highest || isNaN x then S754_nan
  else if isZeroOfSign false x && isZeroOfSign true highest then x
  else if SFltb highest x then x else highest.

Definition Math_max (nums : list number) : number :=
  fold_left higherOf nums (S754_infinity true).

(** [Array.isArray(rows) ? rows.slice(0, 100) : []] *)
Definition rowsForStats (rows : option (list Row)) : list Row :=
  match rows with Some rs => firstn 100 rs | None => [] end.

(** The inner loop: the values of the column [k] that [toNumberMaybe]
    reads as numbers. *)
Definition numsOf (k : string) (rs : list Row) : list number :=
  flat_map (fun r => match toNumberMaybe (property k r) with
                     | Some n => [n]
                     | None => []
                     end) rs.

(** [numericStats], as its entries in the order they are written. *)
Definition numericStats (rows : option (list Row)) : list (string * NumericStats.t) :=
  match rowsForStats rows with
  | [] => []
  | row :: others =>
      flat_map
        (fun k =>
           match numsOf k (row :: others) with
           | [] => []
           | n :: ns =>
               let nums := n :: ns in
               let sum := fold_left (SFadd prec emax) nums zero in
               [(k, NumericStats.Mk (List.length nums) (Math_min nums) (Math_max nums)
                      (SFdiv prec emax sum (ofZ (Z.of_nat (List.length nums)))))]
           end)
        (Object_keys row)
  end.

(** ** The calls of a run, read as a protocol *)

(** Where a run stands with the pool: no client held, a client just
    asked for, a client that has served a query. *)
Inductive Holding : Type := Idle | Asked | Serving.

(** A query needs a client; a client serves at least one query and is
    released before anything else happens; the model is called with no
    client held; at the end no serving client is left (a run may end on
    the request for a client, when that request fails). *)
Fixpoint protocol (h : Holding) (trace : list Event) : bool :=
  match trace with
  | [] => match h with Serving => false | _ => true end
  | e :: rest =>
      match h, e with
      | Idle, Connect => protocol Asked rest
      | Idle, Complete _ _ => protocol Idle rest
      | Asked, Query _ => protocol Serving rest
      | Serving, Query _ => protocol Serving rest
      | Serving, Release => protocol Idle rest
      | _, _ => false
      end
  end.

(** The message of a blocked execution. *)
Definition blockedMessage (v : ValidationResult) : string :=
  if noneFound v
  then "Blocked execution. SQL must reference at least one fully-qualified allowed table."
  else "Blocked execution. Unknown tables: " +:+ join ", " (unknown v).

(** ** Instances for the examples *)

Definition removeNothing : string -> string -> JsError + string :=
  fun _ text => inr text.

Definition jsonOfRows : list Row -> string := fun _ => "[...]".

Definition someMessages : State -> string * string := fun _ => ("system", "user").

Definition catalogRow (s t c d : string) : Row :=
  [("table_schema", VString s); ("table_name", VString t);
   ("column_name", VString c); ("data_type", VString d)].

Definition shopCatalog : list Row :=
  [catalogRow "public" "producto" "nombre" "text";
   catalogRow "public" "producto" "precio" "numeric";
   catalogRow "ventas" "pedido" "id" "integer"].

(** A database with two tables: it answers the catalogue query, counts
    no row, and gives one row to any other query. *)
Definition dbShop : Database :=
  MkDatabase (fun _ => None)
    (fun _ q =>
       if String.eqb q catalogQuery then inr shopCatalog
       else if prefix "SELECT COUNT" q then inr [[("count", VNumber (ofZ 0))]]
       else inr [[("nombre", VString "pan")]]).

Definition dbDown : Database :=
  MkDatabase (fun _ => Some (MkError (Some "connection refused")))
    (fun _ _ => inr []).

Definition dbNoCatalog : Database :=
  MkDatabase (fun _ => None) (fun _ _ => inl (MkError (Some "permission denied"))).

Definition llmReplying (reply : string) : Llm :=
  MkLlm (fun _ _ _ => inr (StringContent reply)).

Definition llmFailing : Llm :=
  MkLlm (fun _ _ _ => inl (MkError (Some "rate limit"))).

(** The request of the examples, answered by the shop. *)
Definition shopAgent : string -> M State :=
  runSqlAgent removeNothing jsonOfRows someMessages None dbShop
    (llmReplying "SELECT nombre FROM producto").

(** The columns of the table [key] in the map of [loadDatabaseSchema]. *)
Definition columnsOf (key : string) (byTable : list (string * list string))
    : list string :=
  match find (fun entry => String.eqb (fst entry) key) byTable with
  | Some entry => snd entry
  | None => []
  end.

(** The catalogue rows of one table, in the order they came. *)
Definition rowsOfTable (key : string) (tablesRes : list Row) : list Row :=
  List.filter (fun row => String.eqb (tableKey row) key) tablesRes.

(** A database that gives its first client and refuses every later one. *)
Definition dbDropping : Database :=
  MkDatabase
    (fun log => match log with
                | [] => None
                | _ :: _ => Some (MkError (Some "too many clients"))
                end)
    (fun _ q => if String.eqb q catalogQuery then inr shopCatalog else inr []).

(** The reading of the sixth claim as it is worded: whatever the database
    raises while the query is executed, the node returns. *)
Definition errorNeverPropagated (db : Database) (sqlText : string)
    (allowed : list string) (log : list Event) : Prop :=
  exists st log', nodeExecuteSQL db sqlText allowed log = (Returned st, log').

(** * Lemmas *)

(** ** Sets *)

Lemma has_In (x : string) (s : JsSet.t) : JsSet.has x s = true <-> In x s.
Proof.
  unfold JsSet.has. rewrite existsb_exists. split.
  - intros [y [Hy Heq]]. apply String.eqb_eq in Heq. now subst.
  - intros H. exists x. split; [assumption | apply String.eqb_refl].
Qed.

Lemma add_In (x t : string) (s : JsSet.t) :
  In t (JsSet.add x s) <-> t = x \/ In t s.
Proof.
  unfold JsSet.add. destruct (JsSet.has x s) eqn:E.
  - apply has_In in E. split; [now right | intros [-> | H]; assumption].
  - rewrite in_app_iff. simpl. intuition.
Qed.

Lemma add_NoDup (x : string) (s : JsSet.t) : NoDup s -> NoDup (JsSet.add x s).
Proof.
  intros H. unfold JsSet.add. destruct (JsSet.has x s) eqn:E; [assumption |].
  apply NoDup_app; [assumption | repeat constructor; simpl; tauto |].
  intros y Hy [<- | []]. apply has_In in Hy. congruence.
Qed.

Section FoldAdd.
Context {A : Type} (step : JsSet.t -> A -> JsSet.t) (pick : A -> option string).
Hypothesis step_pick : forall s a,
  step s a = match pick a with Some t => JsSet.add t s | None => s end.

Lemma fold_step_In (l : list A) (s : JsSet.t) (t : string) :
  In t (fold_left step l s) <->
  In t s \/ exists a, In a l /\ pick a = Some t.
Proof using step_pick.
  revert s. induction l as [| a l IH]; intros s; simpl.
  - split; [now left | intros [H | [a [[] _]]]; assumption].
  - rewrite IH, step_pick. destruct (pick a) as [u |] eqn:E.
    + rewrite add_In. split.
      * intros [[-> | H] | [b [Hb Hp]]]; eauto.
      * intros [H | [b [[<- | Hb] Hp]]]; eauto.
        left. left. congruence.
    + split.
      * intros [H | [b [Hb Hp]]]; eauto.
      * intros [H | [b [[<- | Hb] Hp]]]; eauto. congruence.
Qed.

Lemma fold_step_NoDup (l : list A) (s : JsSet.t) :
  NoDup s -> NoDup (fold_left step l s).
Proof using step_pick.
  revert s. induction l as [| a l IH]; intros s H; simpl; [assumption |].
  apply IH. rewrite step_pick. destruct (pick a); [now apply add_NoDup | assumption].
Qed.
End FoldAdd.

Lemma of_list_In (l : list string) (t : string) : In t (JsSet.of_list l) <-> In t l.
Proof.
  unfold JsSet.of_list.
  rewrite (fold_step_In (fun s x => JsSet.add x s) Some) by reflexivity.
  unfold JsSet.empty. simpl. split.
  - intros [[] | [a [Ha E]]]. now inversion E; subst.
  - intros H. right. eauto.
Qed.

Lemma of_list_NoDup (l : list string) : NoDup (JsSet.of_list l).
Proof.
  unfold JsSet.of_list.
  apply (fold_step_NoDup (fun s x => JsSet.add x s) Some); [reflexivity | constructor].
Qed.

Lemma add_all_fresh (l s : JsSet.t) :
  NoDup (s ++ l) -> fold_left (fun f t => JsSet.add t f) l s = s ++ l.
Proof.
  revert s. induction l as [| a l IH]; intros s H; simpl.
  - now rewrite app_nil_r.
  - assert (Hfresh : JsSet.has a s = false).
    { destruct (JsSet.has a s) eqn:E; [| reflexivity].
      apply has_In in E. apply NoDup_remove_2 in H.
      exfalso. apply H. apply in_or_app. now left. }
    unfold JsSet.add at 2. rewrite Hfresh.
    rewrite IH; rewrite <- app_assoc; [reflexivity | exact H].
Qed.

Lemma filter_singleton {A} (P : A -> bool) (l : list A) (t : A) :
  NoDup l ->
  (List.filter P l = [t] <->
   In t l /\ P t = true /\ forall t', In t' l -> P t' = true -> t' = t).
Proof.
  intros Hnd. split.
  - intros E.
    assert (Hin : forall x, In x (List.filter P l) <-> x = t).
    { intros x. rewrite E. simpl. intuition. }
    assert (Ht : In t (List.filter P l)) by now apply Hin.
    apply filter_In in Ht. destruct Ht as [Ht Hp]. repeat split; try assumption.
    intros t' Ht' Hp'. apply Hin. apply filter_In. now split.
  - intros (Hin & Hp & Huniq).
    pose proof (NoDup_filter P Hnd) as Hnd'.
    assert (Hall : forall x, In x (List.filter P l) -> x = t).
    { intros x Hx. apply filter_In in Hx. now apply Huniq. }
    assert (Ht : In t (List.filter P l)) by (apply filter_In; now split).
    destruct (List.filter P l) as [| a [| b r]].
    + destruct Ht.
    + now rewrite (Hall a (or_introl eq_refl)).
    + exfalso. inversion Hnd' as [| ? ? Hna _]. apply Hna.
      rewrite (Hall a), <- (Hall b); simpl; auto.
Qed.

(** ** Strings *)

Lemma append_cons (c : ascii) (r b : string) : String c r +:+ b = String c (r +:+ b).
Proof. reflexivity. Qed.

Lemma append_nil_l (b : string) : "" +:+ b = b.
Proof. reflexivity. Qed.

Lemma append_nil_r (s : string) : s +:+ "" = s.
Proof.
  induction s as [| c r IH]; [reflexivity |]. now rewrite append_cons, IH.
Qed.

Lemma append_assoc (a b c : string) : (a +:+ b) +:+ c = a +:+ (b +:+ c).
Proof.
  induction a as [| x r IH]; [reflexivity |]. now rewrite !append_cons, IH.
Qed.

Lemma length_append (a b : string) :
  String.length (a +:+ b) = String.length a + String.length b.
Proof.
  induction a as [| x r IH]; [reflexivity |]. rewrite append_cons. simpl. now rewrite IH.
Qed.

Lemma firstn_append (a b : string) : firstn_string (String.length a) (a +:+ b) = a.
Proof.
  unfold firstn_string. induction a as [| x r IH].
  - rewrite append_nil_l. now destruct b.
  - rewrite append_cons. simpl. now rewrite IH.
Qed.

Lemma skipn_append (a b : string) : skipn_string (String.length a) (a +:+ b) = b.
Proof.
  induction a as [| x r IH]; [now destruct b |]. rewrite append_cons. exact IH.
Qed.

Lemma skipn_append_more (a b : string) (n : nat) :
  skipn_string (String.length a + n) (a +:+ b) = skipn_string n b.
Proof.
  induction a as [| x r IH]; [reflexivity |]. rewrite append_cons. exact IH.
Qed.

Lemma firstn_skipn_string (n : nat) (s : string) :
  firstn_string n s +:+ skipn_string n s = s.
Proof.
  unfold firstn_string. revert n. induction s as [| c r IH]; intros [| n]; simpl;
    try reflexivity.
  now rewrite append_cons, IH.
Qed.

Lemma firstn_length_firstn (n : nat) (s : string) :
  firstn_string (String.length (firstn_string n s)) s = firstn_string n s.
Proof.
  unfold firstn_string. revert n. induction s as [| c r IH]; intros [| n]; simpl;
    try reflexivity.
  now rewrite IH.
Qed.

(** ** The matches of a global pattern *)

Lemma allCodeUnits_complete (c : ascii) : In c allCodeUnits.
Proof.
  rewrite <- (ascii_nat_embedding c). apply in_map. apply in_seq.
  pose proof (nat_ascii_bounded c). lia.
Qed.

Lemma foldClosed_spec (p : ascii -> bool) :
  foldClosed p = true ->
  forall c d, canonicalize c = canonicalize d -> p c = p d.
Proof.
  unfold foldClosed. intros H c d E.
  rewrite forallb_forall in H. specialize (H c (allCodeUnits_complete c)).
  rewrite forallb_forall in H. specialize (H d (allCodeUnits_complete d)).
  rewrite E, N.eqb_refl in H. simpl in H. now apply Bool.eqb_prop.
Qed.

(** The classes of the patterns do not tell apart two code units with the
    same canonical form. *)
Lemma classes_fold_closed (c d : ascii) :
  canonicalize c = canonicalize d ->
  isIdentStart c = isIdentStart d /\ isWordChar c = isWordChar d /\
  isWhiteSpace c = isWhiteSpace d /\ notQuote c = notQuote d.
Proof.
  intros E. repeat split; apply foldClosed_spec; try exact E; vm_compute; reflexivity.
Qed.

Lemma matchAt_index (ic : bool) (r : regex) (pv : option ascii) (i : nat)
    (s : string) (m : MatchResult) :
  matchAt ic r pv i s = Some m ->
  index m = i /\ exists n, matched m = firstn_string n s.
Proof.
  unfold matchAt. destruct (rmatch ic r _ Some) as [e |]; [| discriminate].
  intros [= <-]. simpl. eauto.
Qed.

(** A replacement that gives every match back leaves the text as it is.
    [g] is the text passed since the last match ended. *)
Lemma replace_scan_id (ic : bool) (r : regex) (f : MatchResult -> string)
    (s : string) :
  forall (skip : nat) (pv : option ascii) (i i0 : nat) (g : string),
    i0 + String.length g = i + skip ->
    (forall m, In m (scan ic r skip pv i s) -> f m = matched m) ->
    replaceMatches f (scan ic r skip pv i s) i0 (g +:+ skipn_string skip s) =
    g +:+ skipn_string skip s.
Proof.
  induction s as [| c s' IH]; intros skip pv i i0 g Hpos Hf.
  - destruct skip as [| n]; simpl; [| reflexivity].
    destruct (matchAt ic r pv i "") as [m |] eqn:Em; simpl; [| reflexivity].
    destruct (matchAt_index _ _ _ _ _ _ Em) as [Hi [n Hm]].
    rewrite (Hf m) by (simpl; rewrite Em; now left).
    assert (Hempty : matched m = "") by (rewrite Hm; now destruct n).
    rewrite Hempty, Hi. simpl.
    replace (i - i0) with (String.length g) by lia.
    rewrite Nat.add_0_r, firstn_append, skipn_append. reflexivity.
  - destruct skip as [| n].
    + simpl scan in *. simpl skipn_string.
      destruct (matchAt ic r pv i (String c s')) as [m |] eqn:Em.
      * destruct (matchAt_index _ _ _ _ _ _ Em) as [Hi [n Hm]].
        simpl replaceMatches.
        rewrite (Hf m) by now left.
        rewrite Hi. replace (i - i0) with (String.length g) by lia.
        rewrite firstn_append, skipn_append_more.
        assert (Hlen : firstn_string (String.length (matched m)) (String c s') = matched m).
        { rewrite Hm. apply firstn_length_firstn. }
        destruct (String.length (matched m)) as [| len] eqn:El.
        -- simpl skipn_string. simpl Nat.sub.
           specialize (IH 0 (Some c) (S i) (i + 0) (String c "")).
           simpl skipn_string in IH. rewrite append_cons, append_nil_l in IH.
           rewrite IH; [| simpl; lia | intros m' Hm'; apply Hf; now right].
           rewrite <- Hlen. reflexivity.
        -- simpl skipn_string. simpl Nat.sub in *. rewrite Nat.sub_0_r in *.
           specialize (IH len (Some c) (S i) (i + S len) "").
           rewrite append_nil_l in IH.
           rewrite IH; [| simpl; lia | intros m' Hm'; apply Hf; now right].
           rewrite <- Hlen.
           change (skipn_string len s') with (skipn_string (S len) (String c s')).
           now rewrite firstn_skipn_string.
      * specialize (IH 0 (Some c) (S i) i0 (g +:+ String c "")).
        simpl skipn_string in IH. rewrite append_assoc in IH.
        rewrite append_cons, append_nil_l in IH.
        apply IH; [rewrite length_append; simpl; lia | exact Hf].
    + simpl scan in *. simpl skipn_string.
      apply IH; [lia | exact Hf].
Qed.

Lemma replaceAll_id (ic : bool) (r : regex) (f : MatchResult -> string) (s : string) :
  (forall m, In m (matchAll ic r s) -> f m = matched m) ->
  replaceAll ic r f s = s.
Proof.
  intros Hf. unfold replaceAll, matchAll.
  exact (replace_scan_id ic r f s 0 None 0 0 "" eq_refl Hf).
Qed.

(** ** The map of [qualifySqlTables] *)

Lemma tableToSchemas_fold (lowerAllowed : list string)
    (m : gmap (option string) (list string)) (key : option string) :
  default [] (fold_left
    (fun (m : gmap (option string) (list string)) (fq : string) =>
       let parts := split "." fq in
       let schema := first parts in
       let tbl := second parts in
       let arr := default [] (m !! tbl) in
       <[tbl := arr ++ [tmpl schema +:+ "." +:+ tmpl tbl]]> m)
    lowerAllowed m !! key) =
  default [] (m !! key) ++ entriesFor key lowerAllowed.
Proof.
  revert m. induction lowerAllowed as [| fq l IH]; intros m.
  - unfold entriesFor. simpl. now rewrite app_nil_r.
  - simpl fold_left. rewrite IH. unfold entriesFor. simpl List.filter.
    destruct (decide (second (split "." fq) = key)) as [E | Hne]; [subst key |].
    + rewrite lookup_insert_eq. rewrite bool_decide_eq_true_2 by reflexivity.
      simpl. now rewrite <- app_assoc.
    + rewrite lookup_insert_ne by exact Hne.
      rewrite bool_decide_eq_false_2 by exact Hne. reflexivity.
Qed.

Lemma tableToSchemas_lookup (lowerAllowed : list string) (key : option string) :
  default [] (tableToSchemas lowerAllowed !! key) = entriesFor key lowerAllowed.
Proof.
  unfold tableToSchemas. rewrite tableToSchemas_fold. now rewrite lookup_empty.
Qed.

(** A bare name is in the final map when it has one candidate and no more. *)
Lemma uniqueTables_lookup (lowerAllowed : list string) (key : option string)
    (fq : string) :
  uniqueTables (tableToSchemas lowerAllowed) !! key = Some fq <->
  entriesFor key lowerAllowed = [fq].
Proof.
  unfold uniqueTables. rewrite lookup_omap.
  rewrite <- tableToSchemas_lookup.
  destruct (tableToSchemas lowerAllowed !! key) as [[| a [| b l]] |]; simpl;
    split; intros H; try discriminate; congruence.
Qed.

Lemma uniqueTables_none (lowerAllowed : list string) (key : option string) :
  List.length (entriesFor key lowerAllowed) <> 1 ->
  uniqueTables (tableToSchemas lowerAllowed) !! key = None.
Proof.
  intros Hlen.
  destruct (uniqueTables (tableToSchemas lowerAllowed) !! key) as [fq |] eqn:E;
    [| reflexivity].
  apply uniqueTables_lookup in E. rewrite E in Hlen. now elim Hlen.
Qed.

(** ** [qualifySqlTables] leaves alone what it cannot resolve *)

Lemma callback_unchanged (map : gmap (option string) string) (m : MatchResult) :
  (forall p0, split "." (unquote (tmpl (group 2 m))) = [p0] ->
              map !! Some (toLowerCase p0) = None) ->
  qualifyCallback map m = matched m.
Proof.
  intros H. unfold qualifyCallback. fold (unquote (tmpl (group 2 m))).
  destruct (split "." (unquote (tmpl (group 2 m)))) as [| p0 [| p1 l]]; try reflexivity.
  now rewrite (H p0 eq_refl).
Qed.

(** When every one-part FROM/JOIN target of the text has no candidate in
    the allow-list, or two or more, [qualifySqlTables] returns the text
    unchanged. *)
Lemma qualify_unchanged (sql : string) (allowed : list string) :
  (forall m p0,
     In m (matchAll false qualifyRe sql) ->
     split "." (unquote (tmpl (group 2 m))) = [p0] ->
     List.length (entriesFor (Some (toLowerCase p0)) (List.map toLowerCase allowed)) <> 1) ->
  qualifySqlTables sql allowed = sql.
Proof.
  intros H. unfold qualifySqlTables. apply replaceAll_id.
  intros m Hm. apply callback_unchanged. intros p0 Hp.
  apply uniqueTables_none. exact (H m p0 Hm Hp).
Qed.

(** ** The pattern of [qualifySqlTables] on a bare name *)

Lemma identStart_word (c : ascii) : isIdentStart c = true -> isWordChar c = true.
Proof. unfold isWordChar. now intros ->. Qed.

Lemma word_not_quote (c : ascii) : isWordChar c = true -> Ascii.eqb dquote c = false.
Proof.
  destruct c as [[] [] [] [] [] [] [] []]; vm_compute; congruence.
Qed.

Lemma word_not_dot (c : ascii) : isWordChar c = true -> Ascii.eqb c "." = false.
Proof.
  destruct c as [[] [] [] [] [] [] [] []]; vm_compute; congruence.
Qed.

Lemma word_not_space (c : ascii) : isWordChar c = true -> isWhiteSpace c = false.
Proof.
  destruct c as [[] [] [] [] [] [] [] []]; vm_compute; congruence.
Qed.

Lemma lower_word (c : ascii) : isWordChar c = true -> isWordChar (toLowerChar c) = true.
Proof.
  destruct c as [[] [] [] [] [] [] [] []]; vm_compute; congruence.
Qed.

Lemma lastChar_word (c : ascii) (r : string) :
  isWordChar c = true -> allChars isWordChar r = true ->
  isWordOpt (lastChar (Some c) r) = true.
Proof.
  revert c. induction r as [| d r IH]; intros c Hc Hr; simpl in *; [exact Hc |].
  apply andb_true_iff in Hr. destruct Hr as [Hd Hr]. now apply IH.
Qed.

Lemma lastChar_append (pv : option ascii) (a b : string) :
  lastChar pv (a +:+ b) = lastChar (lastChar pv a) b.
Proof.
  revert pv. induction a as [| x r IH]; intros pv; [reflexivity |].
  rewrite append_cons. simpl. apply IH.
Qed.

(** A literal word matches where the text starts with it. *)
Lemma rmatch_Lit (w : string) :
  forall (st : mstate) (k : mstate -> option mstate),
    rmatch false (Lit w) st k =
    if prefix w (rest st)
    then k (MState (lastChar (prev st) w) (pos st + String.length w)
              (skipn_string (String.length w) (rest st)) (caps st))
    else None.
Proof.
  induction w as [| c w IH]; intros [pv i s cs] k; simpl.
  - rewrite Nat.add_0_r. now destruct s.
  - destruct s as [| x xs]; [reflexivity |]. unfold chrMatches.
    destruct (Ascii.eqb_spec c x) as [<- | Hne].
    + rewrite IH. simpl. rewrite Nat.add_succ_r.
      destruct (ascii_dec c c) as [_ | Hcc]; [reflexivity | now elim Hcc].
    + simpl. destruct (ascii_dec c x) as [Hcx | _]; [now elim Hne | reflexivity].
Qed.

(** A greedy repetition over a run of the class that ends where the class
    does: the continuation is tried first at the end of the run. *)
Lemma greedy_run (p : ascii -> bool) (xs : string) :
  forall (pv : option ascii) (i : nat) (r : string) (cs : captures)
         (k : mstate -> option mstate) (e : mstate),
    allChars p xs = true ->
    match r with String c _ => p c = false | EmptyString => True end ->
    k (MState (lastChar pv xs) (i + String.length xs) r cs) = Some e ->
    greedy p pv i (xs +:+ r) cs k = Some e.
Proof.
  induction xs as [| x xs IH]; intros pv i r cs k e Hall Hr Hk.
  - rewrite append_nil_l. simpl in Hk. rewrite Nat.add_0_r in Hk.
    destruct r as [| c r']; simpl; [exact Hk |]. now rewrite Hr.
  - rewrite append_cons. simpl in Hall. apply andb_true_iff in Hall.
    destruct Hall as [Hx Hall]. simpl. rewrite Hx.
    rewrite (IH (Some x) (S i) r cs k e Hall Hr); [reflexivity |].
    simpl in Hk. now rewrite Nat.add_succ_r in Hk.
Qed.

(** Without a keyword at the position, the pattern does not match there. *)
Lemma matchAt_no_keyword (pv : option ascii) (i : nat) (s : string) :
  keywordAt s = false -> matchAt false qualifyRe pv i s = None.
Proof.
  unfold keywordAt. intros H. apply orb_false_iff in H. destruct H as [HF HJ].
  unfold matchAt.
  change (rmatch false qualifyRe (MState pv i s []) Some) with
    (if xorb (isWordOpt pv) (isWordOpt (peek s)) then
       match rmatch false (Lit "FROM") (MState pv i s [])
               (fun st' => rmatch false
                  (Cat [Plus isWhiteSpace;
                        Group 2 (Alt (Cat [quotedIdent; Chr "."; quotedIdent])
                                     (Alt quotedIdent ident));
                        Group 3 WordB])
                  (MState (prev st') (pos st') (rest st')
                     ((1, firstn_string (pos st' - i) s) :: caps st')) Some)
       with
       | Some e => Some e
       | None =>
           rmatch false (Lit "JOIN") (MState pv i s [])
               (fun st' => rmatch false
                  (Cat [Plus isWhiteSpace;
                        Group 2 (Alt (Cat [quotedIdent; Chr "."; quotedIdent])
                                     (Alt quotedIdent ident));
                        Group 3 WordB])
                  (MState (prev st') (pos st') (rest st')
                     ((1, firstn_string (pos st' - i) s) :: caps st')) Some)
       end
     else None).
  rewrite !rmatch_Lit. simpl rest. rewrite HF, HJ.
  now destruct (xorb _ _).
Qed.

Lemma qualifyTail_bare (pv : option ascii) (i : nat) (ws t post : string)
    (cs : captures) :
  whiteRun ws = true -> bareName t = true -> isWordOpt (peek post) = false ->
  rmatch false
    (Cat [Plus isWhiteSpace;
          Group 2 (Alt (Cat [quotedIdent; Chr "."; quotedIdent])
                       (Alt quotedIdent ident));
          Group 3 WordB])
    (MState pv i (ws +:+ t +:+ post) cs) Some =
  Some (MState (lastChar pv (ws +:+ t)) (i + String.length ws + String.length t) post
          ((3, "") :: (2, t) :: cs)).
Proof.
  intros Hws Ht Hpost.
  destruct ws as [| w ws']; [discriminate |].
  destruct t as [| c r]; [discriminate |].
  unfold whiteRun in Hws. simpl in Hws. apply andb_true_iff in Hws. destruct Hws as [Hw Hws'].
  simpl in Ht. apply andb_true_iff in Ht. destruct Ht as [Hc Hr].
  pose proof (identStart_word c Hc) as Hcw.
  rewrite !append_cons. unfold quotedIdent, ident.
  cbn [rmatch Cat rest pos prev caps chrMatches]. rewrite Hw.
  apply greedy_run; [exact Hws' | now apply word_not_space |].
  cbn [rmatch Cat rest pos prev caps chrMatches].
  rewrite (word_not_quote c Hcw), Hc.
  apply greedy_run; [exact Hr | destruct post; [exact I | exact Hpost] |].
  cbn [rest pos prev caps].
  rewrite (lastChar_word c r Hcw Hr), Hpost. cbn [xorb].
  rewrite Nat.sub_diag.
  replace (S (S i + String.length ws') + String.length r - (S i + String.length ws'))
    with (String.length (String c r)) by (simpl; lia).
  rewrite <- append_cons, firstn_append.
  cbn [lastChar]. rewrite lastChar_append. cbn [lastChar].
  replace (S (S i + String.length ws') + String.length r)
    with (i + String.length (String w ws') + String.length (String c r))
    by (simpl; lia).
  destruct post; reflexivity.
Qed.

Lemma prefix_append (a b : string) : prefix a (a +:+ b) = true.
Proof.
  induction a as [| c r IH]; [now destruct b |]. rewrite append_cons. simpl.
  destruct (ascii_dec c c) as [_ | H]; [exact IH | now elim H].
Qed.

Lemma prefix_other (c d : ascii) (a b : string) :
  c <> d -> prefix (String c a) (String d b) = false.
Proof.
  intros H. simpl. destruct (ascii_dec c d) as [E | _]; [now elim H | reflexivity].
Qed.

Lemma matchAt_bare (pv : option ascii) (i : nat) (kw ws t post : string) :
  kw = "FROM" \/ kw = "JOIN" ->
  isWordOpt pv = false ->
  whiteRun ws = true -> bareName t = true -> isWordOpt (peek post) = false ->
  matchAt false qualifyRe pv i (kw +:+ ws +:+ t +:+ post) =
  Some (MkMatch i (kw +:+ ws +:+ t) [(3, ""); (2, t); (1, kw)]).
Proof.
  intros Hkw Hpv Hws Ht Hpost. unfold matchAt.
  set (s := kw +:+ ws +:+ t +:+ post).
  change (rmatch false qualifyRe (MState pv i s []) Some) with
    (if xorb (isWordOpt pv) (isWordOpt (peek s)) then
       match rmatch false (Lit "FROM") (MState pv i s [])
               (fun st' => rmatch false
                  (Cat [Plus isWhiteSpace;
                        Group 2 (Alt (Cat [quotedIdent; Chr "."; quotedIdent])
                                     (Alt quotedIdent ident));
                        Group 3 WordB])
                  (MState (prev st') (pos st') (rest st')
                     ((1, firstn_string (pos st' - i) s) :: caps st')) Some)
       with
       | Some e => Some e
       | None =>
           rmatch false (Lit "JOIN") (MState pv i s [])
               (fun st' => rmatch false
                  (Cat [Plus isWhiteSpace;
                        Group 2 (Alt (Cat [quotedIdent; Chr "."; quotedIdent])
                                     (Alt quotedIdent ident));
                        Group 3 WordB])
                  (MState (prev st') (pos st') (rest st')
                     ((1, firstn_string (pos st' - i) s) :: caps st')) Some)
       end
     else None).
  rewrite !rmatch_Lit. cbn [rest pos prev caps].
  assert (Hlen : String.length kw = 4) by (destruct Hkw as [-> | ->]; reflexivity).
  assert (Hb : xorb (isWordOpt pv) (isWordOpt (peek s)) = true).
  { rewrite Hpv. subst s. destruct Hkw as [-> | ->]; reflexivity. }
  rewrite Hb.
  assert (Hskip : skipn_string 4 s = ws +:+ t +:+ post).
  { subst s. rewrite <- Hlen. apply skipn_append. }
  assert (Hfirst : firstn_string (i + 4 - i) s = kw).
  { replace (i + 4 - i) with (String.length kw) by lia. subst s. apply firstn_append. }
  assert (Hres : forall pv', rmatch false
                  (Cat [Plus isWhiteSpace;
                        Group 2 (Alt (Cat [quotedIdent; Chr "."; quotedIdent])
                                     (Alt quotedIdent ident));
                        Group 3 WordB])
                  (MState pv' (i + 4) (skipn_string 4 s)
                     ((1, firstn_string (i + 4 - i) s) :: [])) Some =
                Some (MState (lastChar pv' (ws +:+ t))
                        (i + 4 + String.length ws + String.length t) post
                        [(3, ""); (2, t); (1, kw)])).
  { intros pv'. rewrite Hskip, Hfirst. now apply qualifyTail_bare. }
  assert (Hmatched : firstn_string (i + 4 + String.length ws + String.length t - i) s =
                     kw +:+ ws +:+ t).
  { replace (i + 4 + String.length ws + String.length t - i)
      with (String.length (kw +:+ ws +:+ t)) by (rewrite !length_append; lia).
    subst s. rewrite <- !append_assoc. rewrite (append_assoc kw ws t).
    apply firstn_append. }
  destruct Hkw as [-> | ->].
  - replace (prefix "FROM" s) with true by (subst s; now rewrite prefix_append).
    simpl String.length. rewrite Hres. cbn [pos caps]. now rewrite Hmatched.
  - replace (prefix "FROM" s) with false
      by (subst s; rewrite !append_cons; now rewrite prefix_other).
    replace (prefix "JOIN" s) with true by (subst s; now rewrite prefix_append).
    simpl String.length. rewrite Hres. cbn [pos caps]. now rewrite Hmatched.
Qed.

Lemma scan_no_keyword (pre : string) :
  forall (pv : option ascii) (i : nat) (rest : string),
    noKeywordBefore (String.length pre) (pre +:+ rest) = true ->
    scan false qualifyRe 0 pv i (pre +:+ rest) =
    scan false qualifyRe 0 (lastChar pv pre) (i + String.length pre) rest.
Proof.
  induction pre as [| x pre IH]; intros pv i rest H.
  - rewrite append_nil_l. simpl. now rewrite Nat.add_0_r.
  - rewrite append_cons in *. simpl in H. apply andb_true_iff in H.
    destruct H as [Hk H]. apply negb_true_iff in Hk.
    cbn [scan]. rewrite (matchAt_no_keyword _ _ _ Hk).
    rewrite (IH (Some x) (S i) rest H). simpl. now rewrite Nat.add_succ_r.
Qed.

Lemma scan_skip (ic : bool) (r : regex) (xs : string) :
  forall (pv : option ascii) (i : nat) (rest : string),
    scan ic r (String.length xs) pv i (xs +:+ rest) =
    scan ic r 0 (lastChar pv xs) (i + String.length xs) rest.
Proof.
  induction xs as [| x xs IH]; intros pv i rest.
  - rewrite append_nil_l. simpl. now rewrite Nat.add_0_r.
  - rewrite append_cons. cbn [scan String.length lastChar].
    rewrite IH. now rewrite Nat.add_succ_r.
Qed.

Lemma scan_end (post : string) :
  forall (pv : option ascii) (i : nat),
    noKeywordBefore (S (String.length post)) post = true ->
    scan false qualifyRe 0 pv i post = [].
Proof.
  induction post as [| x post IH]; intros pv i H.
  - cbn [scan]. now rewrite matchAt_no_keyword.
  - cbn [noKeywordBefore String.length] in H. apply andb_true_iff in H.
    destruct H as [Hk H]. apply negb_true_iff in Hk.
    cbn [scan]. rewrite (matchAt_no_keyword _ _ _ Hk). now apply IH.
Qed.

(** The one match of the pattern in a text with one keyword, followed by a
    bare name. *)
Lemma matchAll_bare (pre kw ws t post : string) :
  kw = "FROM" \/ kw = "JOIN" ->
  isWordOpt (lastChar None pre) = false ->
  noKeywordBefore (String.length pre) (pre +:+ kw +:+ ws +:+ t +:+ post) = true ->
  whiteRun ws = true -> bareName t = true ->
  isWordOpt (peek post) = false ->
  noKeywordBefore (S (String.length post)) post = true ->
  matchAll false qualifyRe (pre +:+ kw +:+ ws +:+ t +:+ post) =
  [MkMatch (String.length pre) (kw +:+ ws +:+ t) [(3, ""); (2, t); (1, kw)]].
Proof.
  intros Hkw Hpre Hnk Hws Ht Hpost Hend. unfold matchAll.
  rewrite (scan_no_keyword pre None 0 _ Hnk). simpl Nat.add.
  pose proof (matchAt_bare (lastChar None pre) (String.length pre) kw ws t post
                Hkw Hpre Hws Ht Hpost) as Hm.
  assert (Hk : exists k0 kw', kw = String k0 kw' /\ String.length kw' = 3).
  { destruct Hkw as [-> | ->]; eexists _, _; split; reflexivity. }
  destruct Hk as [k0 [kw' [-> Hlen]]].
  rewrite !append_cons in *. cbn [scan]. rewrite Hm. cbn [matched].
  f_equal.
  replace (String.length (String k0 (kw' +:+ ws +:+ t)) - 1)
    with (String.length (kw' +:+ ws +:+ t)) by (simpl; lia).
  rewrite <- (append_assoc ws t post), <- (append_assoc kw' (ws +:+ t) post).
  rewrite <- (append_assoc kw' ws t) at 1. rewrite (append_assoc kw' ws t).
  rewrite scan_skip. now apply scan_end.
Qed.

Lemma allChars_impl (p q : ascii -> bool) (s : string) :
  (forall c, p c = true -> q c = true) -> allChars p s = true -> allChars q s = true.
Proof.
  intros Hpq. induction s as [| c r IH]; simpl; [reflexivity |].
  intros H. apply andb_true_iff in H. destruct H as [Hc Hr].
  now rewrite (Hpq c Hc), IH.
Qed.

Lemma removeAll_id (p : ascii -> bool) (s : string) :
  allChars (fun c => negb (p c)) s = true -> removeAll p s = s.
Proof.
  induction s as [| c r IH]; simpl; [reflexivity |].
  intros H. apply andb_true_iff in H. destruct H as [Hc Hr].
  apply negb_true_iff in Hc. now rewrite Hc, IH.
Qed.

Lemma split_first (sep : ascii) (s : string) : exists h l, split sep s = h :: l.
Proof.
  induction s as [| c r [h [l IH]]]; simpl; [eauto |].
  destruct (Ascii.eqb c sep); [eauto |]. rewrite IH. eauto.
Qed.

Lemma split_single (sep : ascii) (s : string) :
  allChars (fun c => negb (Ascii.eqb c sep)) s = true -> split sep s = [s].
Proof.
  induction s as [| c r IH]; simpl; [reflexivity |].
  intros H. apply andb_true_iff in H. destruct H as [Hc Hr].
  apply negb_true_iff in Hc. now rewrite Hc, IH.
Qed.

Lemma split_two (sep : ascii) (a b : string) :
  allChars (fun c => negb (Ascii.eqb c sep)) a = true ->
  allChars (fun c => negb (Ascii.eqb c sep)) b = true ->
  split sep (a +:+ String sep b) = [a; b].
Proof.
  intros Ha Hb. induction a as [| c r IH].
  - rewrite append_nil_l. simpl. rewrite Ascii.eqb_refl. now rewrite split_single.
  - rewrite append_cons. simpl in *. apply andb_true_iff in Ha. destruct Ha as [Hc Hr].
    apply negb_true_iff in Hc. now rewrite Hc, IH.
Qed.

Lemma split_no_sep (sep : ascii) (s p : string) :
  In p (split sep s) -> allChars (fun c => negb (Ascii.eqb c sep)) p = true.
Proof.
  revert p. induction s as [| c r IH]; simpl; intros p.
  - intros [<- | []]. reflexivity.
  - destruct (Ascii.eqb c sep) eqn:E.
    + intros [<- | H]; [reflexivity | now apply IH].
    + destruct (split_first sep r) as [h [l Hs]]. rewrite Hs in *.
      intros [<- | H].
      * simpl. rewrite E. simpl. apply IH. now left.
      * apply IH. now right.
Qed.

Lemma lower_allWord (s : string) :
  allChars isWordChar s = true -> allChars isWordChar (toLowerCase s) = true.
Proof.
  induction s as [| c r IH]; simpl; [reflexivity |].
  intros H. apply andb_true_iff in H. destruct H as [Hc Hr].
  now rewrite (lower_word c Hc), IH.
Qed.

Lemma bareName_word (t : string) : bareName t = true -> allChars isWordChar t = true.
Proof.
  destruct t as [| c r]; [discriminate |]. simpl. intros H.
  apply andb_true_iff in H. destruct H as [Hc Hr].
  now rewrite (identStart_word c Hc), Hr.
Qed.

(** Where the text has one keyword, followed by a bare table name, and
    one entry of the lower-cased allow-list has this name (lower-cased)
    as its table part, [qualifySqlTables] puts the quoted schema of the
    entry and the quoted lower-cased name in place of the bare name. *)
Lemma qualify_bare_name (pre kw ws t post : string) (allowed : list string)
    (entry : string) :
  kw = "FROM" \/ kw = "JOIN" ->
  isWordOpt (lastChar None pre) = false ->
  noKeywordBefore (String.length pre) (pre +:+ kw +:+ ws +:+ t +:+ post) = true ->
  whiteRun ws = true -> bareName t = true ->
  isWordOpt (peek post) = false ->
  noKeywordBefore (S (String.length post)) post = true ->
  List.filter (fun fq => bool_decide (second (split "." fq) = Some (toLowerCase t)))
    (List.map toLowerCase allowed) = [entry] ->
  qualifySqlTables (pre +:+ kw +:+ ws +:+ t +:+ post) allowed =
  pre +:+ kw +:+ " " +:+ quoted (tmpl (first (split "." entry))) +:+ "." +:+
  quoted (toLowerCase t) +:+ post.
Proof.
  intros Hkw Hpre Hnk Hws Ht Hpost Hend Hentry.
  unfold qualifySqlTables, replaceAll.
  rewrite (matchAll_bare pre kw ws t post Hkw Hpre Hnk Hws Ht Hpost Hend).
  cbn [replaceMatches index matched]. rewrite Nat.sub_0_r, firstn_append.
  rewrite skipn_append_more.
  replace (kw +:+ ws +:+ t +:+ post) with ((kw +:+ ws +:+ t) +:+ post)
    by (now rewrite !append_assoc).
  rewrite skipn_append.
  apply (f_equal (String.append pre)).
  replace (kw +:+ " " +:+ quoted (tmpl (first (split "." entry))) +:+ "." +:+
           quoted (toLowerCase t) +:+ post)
    with ((kw +:+ " " +:+ quoted (tmpl (first (split "." entry))) +:+ "." +:+
           quoted (toLowerCase t) +:+ "") +:+ post)
    by (unfold quoted; rewrite !append_assoc; reflexivity).
  apply (f_equal (fun x => x +:+ post)).
  pose proof (bareName_word t Ht) as Hword.
  unfold qualifyCallback, group. cbn [groups getGroup find option_map snd tmpl Nat.eqb].
  rewrite removeAll_id
    by (apply (allChars_impl isWordChar); [| exact Hword];
        intros c Hc; now rewrite (word_not_quote c Hc)).
  rewrite split_single
    by (apply (allChars_impl isWordChar); [| exact Hword];
        intros c Hc; now rewrite (word_not_dot c Hc)).
  assert (Hsecond : second (split "." entry) = Some (toLowerCase t)).
  { assert (Hin : In entry [entry]) by now left. rewrite <- Hentry in Hin.
    apply filter_In in Hin. destruct Hin as [_ Hb]. now apply bool_decide_eq_true in Hb. }
  destruct (split_first "." entry) as [h [l Hsplit]].
  assert (Hh : allChars (fun c => negb (Ascii.eqb c ".")) h = true).
  { apply (split_no_sep "." entry). rewrite Hsplit. now left. }
  assert (Hfq : uniqueTables (tableToSchemas (List.map toLowerCase allowed))
                  !! Some (toLowerCase t) = Some (h +:+ "." +:+ toLowerCase t)).
  { apply uniqueTables_lookup. unfold entriesFor. rewrite Hentry. simpl.
    rewrite Hsecond, Hsplit. reflexivity. }
  rewrite Hfq. rewrite Hsplit. cbn [first nth_error tmpl].
  assert (Htruthy : truthy (h +:+ "." +:+ toLowerCase t) = true) by (now destruct h).
  rewrite Htruthy.
  change (h +:+ "." +:+ toLowerCase t) with (h +:+ String "." (toLowerCase t)).
  rewrite (split_two "." h (toLowerCase t) Hh)
    by (apply (allChars_impl isWordChar); [| now apply lower_allWord];
        intros c Hc; now rewrite (word_not_dot c Hc)).
  cbn [first second nth_error tmpl]. reflexivity.
Qed.

(** ** The pattern of the full-text scan *)

(** Whatever a greedy repetition returns comes from the continuation,
    tried after some run of the class. *)
Lemma greedy_inv (p : ascii -> bool) (s : string) :
  forall (pv : option ascii) (i : nat) (cs : captures)
         (k : mstate -> option mstate) (e : mstate),
    greedy p pv i s cs k = Some e ->
    exists xs r, s = xs +:+ r /\ allChars p xs = true /\
                 k (MState (lastChar pv xs) (i + String.length xs) r cs) = Some e.
Proof.
  induction s as [| c s IH]; intros pv i cs k e H; simpl in H.
  - exists "", "". simpl. rewrite Nat.add_0_r. auto.
  - destruct (p c) eqn:Hc.
    + destruct (greedy p (Some c) (S i) s cs k) as [e' |] eqn:Eg.
      * injection H as <-. apply IH in Eg. destruct Eg as [xs [r [-> [Hall Hk]]]].
        exists (String c xs), r. rewrite append_cons. simpl.
        rewrite Hc, Hall, Nat.add_succ_r. auto.
      * exists "", (String c s). simpl. rewrite Nat.add_0_r. auto.
    + exists "", (String c s). simpl. rewrite Nat.add_0_r. auto.
Qed.

(** A match of the full-text pattern at a position: the text there is an
    identifier, a dot and an identifier, between two word boundaries; the
    groups are the two identifiers. *)
Lemma matchAt_re_shape (pv : option ascii) (i : nat) (s : string) (m : MatchResult) :
  matchAt false re pv i s = Some m <->
  exists a b post,
    s = a +:+ "." +:+ b +:+ post /\ bareName a = true /\ bareName b = true /\
    isWordOpt pv = false /\ isWordOpt (peek post) = false /\
    m = MkMatch i (a +:+ "." +:+ b) [(2, b); (1, a)].
Proof.
  unfold matchAt, re, ident. cbn [rmatch Cat rest pos prev caps chrMatches].
  split.
  - destruct (xorb (isWordOpt pv) (isWordOpt (peek s))) eqn:Hb; [| discriminate].
    destruct s as [| c s]; [discriminate |].
    destruct (isIdentStart c) eqn:Hc; [| discriminate].
    destruct (greedy isWordChar _ _ _ _ _) as [e |] eqn:Eg; [| discriminate].
    intros [= <-].
    apply greedy_inv in Eg. destruct Eg as [xs [r [-> [Hxs Hk]]]].
    cbn [rest pos prev caps] in Hk.
    destruct r as [| d r]; [discriminate |].
    destruct (Ascii.eqb_spec "." d) as [<- | Hne]; [| discriminate].
    destruct r as [| c2 r]; [discriminate |].
    destruct (isIdentStart c2) eqn:Hc2; [| discriminate].
    apply greedy_inv in Hk. destruct Hk as [ys [post [-> [Hys Hk]]]].
    cbn [rest pos prev caps] in Hk.
    destruct (xorb _ _) eqn:Hb2 in Hk; [| discriminate].
    injection Hk as <-. cbn [pos caps].
    rewrite (lastChar_word c2 ys (identStart_word c2 Hc2) Hys) in Hb2.
    simpl in Hb. rewrite (identStart_word c Hc) in Hb.
    exists (String c xs), (String c2 ys), post.
    split; [reflexivity |].
    split; [simpl; now rewrite Hc, Hxs |].
    split; [simpl; now rewrite Hc2, Hys |].
    split; [now destruct (isWordOpt pv) |].
    split; [now destruct (isWordOpt (peek post)) |].
    { f_equal.
      * match goal with |- context [firstn_string ?n _] =>
          replace n with (String.length (String c xs +:+ "." +:+ String c2 ys))
            by (rewrite ?length_append; simpl; lia) end.
        replace (String c (xs +:+ String "." (String c2 (ys +:+ post))))
          with ((String c xs +:+ "." +:+ String c2 ys) +:+ post)
          by (now rewrite !append_assoc).
        apply firstn_append.
      * f_equal.
        -- f_equal.
           match goal with |- context [firstn_string ?n _] =>
          replace n with (String.length (String c2 ys))
            by (rewrite ?length_append; simpl; lia) end.
           rewrite <- append_cons. apply firstn_append.
        -- f_equal. f_equal.
           match goal with |- context [firstn_string ?n _] =>
             replace n with (String.length (String c xs))
               by (rewrite ?length_append; simpl; lia) end.
           rewrite <- append_cons. apply firstn_append. }
  - intros (a & b & post & -> & Ha & Hb & Hpv & Hpost & ->).
    destruct a as [| c xs]; [discriminate |].
    destruct b as [| c2 ys]; [discriminate |].
    simpl in Ha, Hb. apply andb_true_iff in Ha. destruct Ha as [Hc Hxs].
    apply andb_true_iff in Hb. destruct Hb as [Hc2 Hys].
    change (String c xs +:+ "." +:+ String c2 ys +:+ post)
      with (String c (xs +:+ String "." (String c2 (ys +:+ post)))). cbn [peek isWordOpt].
    rewrite Hpv, (identStart_word c Hc), Hc. cbn [xorb].
    erewrite (greedy_run isWordChar xs).
    2: exact Hxs.
    2: reflexivity.
    2: { cbn [rest pos prev caps]. rewrite Ascii.eqb_refl, Hc2.
         apply greedy_run; [exact Hys | destruct post; [exact I | exact Hpost] |].
         cbn [rest pos prev caps].
         rewrite (lastChar_word c2 ys (identStart_word c2 Hc2) Hys), Hpost.
         cbn [xorb]. reflexivity. }
    cbn [pos caps]. do 2 f_equal.
    + match goal with |- context [firstn_string ?n _] =>
        replace n with (String.length (String c xs +:+ "." +:+ String c2 ys))
          by (rewrite ?length_append; simpl; lia) end.
      replace (String c (xs +:+ String "." (String c2 (ys +:+ post))))
        with ((String c xs +:+ "." +:+ String c2 ys) +:+ post)
        by (now rewrite !append_assoc).
      rewrite firstn_append. reflexivity.
    + f_equal.
      * f_equal.
        match goal with |- context [firstn_string ?n _] =>
          replace n with (String.length (String c2 ys))
            by (rewrite ?length_append; simpl; lia) end.
        rewrite <- append_cons. apply firstn_append.
      * do 2 f_equal.
        match goal with |- context [firstn_string ?n _] =>
          replace n with (String.length (String c xs))
            by (rewrite ?length_append; simpl; lia) end.
        rewrite <- append_cons. apply firstn_append.
Qed.

(** Every match of a scan is a match of the pattern at some position of
    the text. *)
Lemma scan_In (ic : bool) (r : regex) (s : string) :
  forall (skip : nat) (pv : option ascii) (i : nat) (m : MatchResult),
    In m (scan ic r skip pv i s) ->
    exists pre s' pv',
      s = pre +:+ s' /\ matchAt ic r pv' (i + String.length pre) s' = Some m.
Proof.
  induction s as [| c s IH]; intros skip pv i m H.
  - destruct skip; simpl in H; [| destruct H].
    destruct (matchAt ic r pv i "") as [m' |] eqn:Em; [| destruct H].
    destruct H as [<- | []]. exists "", "", pv. simpl. rewrite Nat.add_0_r. auto.
  - assert (Hrec : forall skip',
              In m (scan ic r skip' (Some c) (S i) s) ->
              exists pre s' pv',
                String c s = pre +:+ s' /\
                matchAt ic r pv' (i + String.length pre) s' = Some m).
    { intros skip' H'. apply IH in H'. destruct H' as [pre [s' [pv' [-> Hm]]]].
      exists (String c pre), s', pv'. rewrite append_cons. simpl.
      rewrite Nat.add_succ_r. auto. }
    destruct skip; cbn [scan] in H; [| now apply (Hrec skip)].
    destruct (matchAt ic r pv i (String c s)) as [m' |] eqn:Em.
    + destruct H as [<- | H]; [| now apply (Hrec _ H)].
      exists "", (String c s), pv. simpl. rewrite Nat.add_0_r. auto.
    + now apply (Hrec 0).
Qed.

Lemma lower_append (a b : string) :
  toLowerCase (a +:+ b) = toLowerCase a +:+ toLowerCase b.
Proof.
  induction a as [| c r IH]; [reflexivity |]. rewrite append_cons. simpl.
  now rewrite IH.
Qed.

(** The tokens of the full-text scan: each is an occurrence in the text
    of an identifier, a dot and an identifier, lower-cased; it splits into
    its two parts. *)
Lemma qualifiedTokens_shape (sql : string) (tok : string) :
  In tok (qualifiedTokens sql) ->
  exists a b pre post,
    sql = pre +:+ a +:+ "." +:+ b +:+ post /\
    bareName a = true /\ bareName b = true /\
    tok = toLowerCase a +:+ "." +:+ toLowerCase b /\
    split "." tok = [toLowerCase a; toLowerCase b].
Proof.
  unfold qualifiedTokens, matchAll. intros H. apply in_map_iff in H.
  destruct H as [m [<- Hm]]. apply scan_In in Hm.
  destruct Hm as [pre [s' [pv' [-> Hm]]]]. apply matchAt_re_shape in Hm.
  destruct Hm as (a & b & post & -> & Ha & Hb & _ & _ & ->).
  exists a, b, pre, post. split; [reflexivity |]. split; [exact Ha |].
  split; [exact Hb |].
  unfold group. cbn [groups getGroup find option_map snd tmpl Nat.eqb].
  rewrite !lower_append.
  change (toLowerCase ".") with ".". split; [reflexivity |].
  change (toLowerCase a +:+ "." +:+ toLowerCase b)
    with (toLowerCase a +:+ String "." (toLowerCase b)).
  apply split_two;
    (apply (allChars_impl isWordChar);
     [intros c Hc; now rewrite (word_not_dot c Hc)
     | apply lower_allWord; now apply bareName_word]).
Qed.

(** ** Every match takes some text

    The loop [while ((m = re.exec(sql)) !== null)] only ends because no
    match is empty: each match of a pattern takes at least [minLen] code
    units, and the three patterns of the source have a positive [minLen]. *)

Lemma rmatch_progress (ic : bool) (r : regex) :
  forall (st : mstate) (k : mstate -> option mstate) (e : mstate),
    rmatch ic r st k = Some e ->
    exists st' consumed,
      k st' = Some e /\ rest st = consumed +:+ rest st' /\
      pos st' = pos st + String.length consumed /\
      minLen r <= String.length consumed.
Proof.
  induction r as [| c | p | | a IHa b IHb | a IHa b IHb | p | p | a IHa | n a IHa];
    intros st k e H; cbn [rmatch minLen] in *.
  - exists st, "". rewrite Nat.add_0_r. auto.
  - destruct (rest st) as [| x xs] eqn:Er; [discriminate |].
    destruct (chrMatches ic c x); [| discriminate].
    eexists _, (String x ""). split; [exact H |]. cbn [rest pos].
    repeat split; simpl; lia.
  - destruct (rest st) as [| x xs] eqn:Er; [discriminate |].
    destruct (p x); [| discriminate].
    eexists _, (String x ""). split; [exact H |]. cbn [rest pos].
    repeat split; simpl; lia.
  - destruct (xorb _ _); [| discriminate].
    exists st, "". rewrite Nat.add_0_r. auto.
  - apply IHa in H. destruct H as (st1 & c1 & H & Hr1 & Hp1 & Hl1).
    apply IHb in H. destruct H as (st2 & c2 & H & Hr2 & Hp2 & Hl2).
    exists st2, (c1 +:+ c2). split; [exact H |].
    rewrite Hr1, Hr2, append_assoc, length_append. repeat split; lia.
  - destruct (rmatch ic a st k) as [e' |] eqn:Ea.
    + injection H as <-. apply IHa in Ea.
      destruct Ea as (st' & c & Hk & Hr & Hp & Hl).
      exists st', c. repeat split; try assumption. lia.
    + apply IHb in H. destruct H as (st' & c & Hk & Hr & Hp & Hl).
      exists st', c. repeat split; try assumption. lia.
  - apply greedy_inv in H. destruct H as (xs & r & Hs & _ & Hk).
    eexists _, xs. split; [exact Hk |]. cbn [rest pos]. repeat split; [exact Hs | lia].
  - destruct (rest st) as [| x xs0] eqn:Er; [discriminate |].
    destruct (p x); [| discriminate].
    apply greedy_inv in H. destruct H as (xs & r & -> & _ & Hk).
    eexists _, (String x xs). split; [exact Hk |]. cbn [rest pos].
    repeat split; simpl; lia.
  - destruct (rmatch ic a st k) as [e' |] eqn:Ea.
    + injection H as <-. apply IHa in Ea.
      destruct Ea as (st' & c & Hk & Hr & Hp & Hl).
      exists st', c. repeat split; try assumption. lia.
    + exists st, "". rewrite Nat.add_0_r. repeat split; [exact H | lia].
  - apply IHa in H. destruct H as (st' & c & Hk & Hr & Hp & Hl).
    eexists _, c. split; [exact Hk |]. cbn [rest pos]. auto.
Qed.

(** A match is the text at its position, and it is no shorter than
    [minLen]. *)
Lemma matchAt_progress (ic : bool) (r : regex) (pv : option ascii) (i : nat)
    (s : string) (m : MatchResult) :
  matchAt ic r pv i s = Some m ->
  (exists after, s = matched m +:+ after) /\ minLen r <= String.length (matched m).
Proof.
  unfold matchAt. destruct (rmatch ic r _ Some) as [e |] eqn:E; [| discriminate].
  intros [= <-]. apply rmatch_progress in E.
  destruct E as (st' & c & [= ->] & Hr & Hp & Hl). cbn [rest pos matched] in *.
  rewrite Hp. replace (i + String.length c - i) with (String.length c) by lia.
  rewrite Hr, firstn_append. eauto.
Qed.

Lemma matches_not_empty (ic : bool) (r : regex) (s : string) (m : MatchResult) :
  0 < minLen r -> In m (matchAll ic r s) -> matched m <> "".
Proof.
  intros Hmin Hm. apply scan_In in Hm. destruct Hm as (pre & s' & pv' & _ & Hm).
  apply matchAt_progress in Hm. destruct Hm as [_ Hl].
  intros E. rewrite E in Hl. simpl in Hl. lia.
Qed.

Lemma source_patterns_progress :
  minLen re = 3 /\ minLen qualifyRe = 6 /\ minLen fromJoinRe = 6.
Proof. repeat split. Qed.

(** ** The tokens of a text

    What the full-text scan finds, said without the pattern: the
    occurrences of an identifier, a dot and an identifier between word
    boundaries. *)

(** Every match of a scan is a match at a position of the text, after
    the code unit that stands before it. *)
Lemma scan_In_prev (ic : bool) (r : regex) (s : string) :
  forall (skip : nat) (pv : option ascii) (i : nat) (m : MatchResult),
    In m (scan ic r skip pv i s) ->
    exists pre s',
      s = pre +:+ s' /\
      matchAt ic r (lastChar pv pre) (i + String.length pre) s' = Some m.
Proof.
  induction s as [| c s IH]; intros skip pv i m H.
  - destruct skip; simpl in H; [| destruct H].
    destruct (matchAt ic r pv i "") as [m' |] eqn:Em; [| destruct H].
    destruct H as [<- | []]. exists "", "". simpl. rewrite Nat.add_0_r. auto.
  - assert (Hrec : forall skip',
              In m (scan ic r skip' (Some c) (S i) s) ->
              exists pre s',
                String c s = pre +:+ s' /\
                matchAt ic r (lastChar pv pre) (i + String.length pre) s' = Some m).
    { intros skip' H'. apply IH in H'. destruct H' as [pre [s' [-> Hm]]].
      exists (String c pre), s'. rewrite append_cons. simpl.
      rewrite Nat.add_succ_r. auto. }
    destruct skip; cbn [scan] in H; [| now apply (Hrec skip)].
    destruct (matchAt ic r pv i (String c s)) as [m' |] eqn:Em.
    + destruct H as [<- | H]; [| now apply (Hrec _ H)].
      exists "", (String c s). simpl. rewrite Nat.add_0_r. auto.
    + now apply (Hrec 0).
Qed.

(** A match at a position is found by the scan when no match that starts
    before it goes past it. *)
Lemma scan_finds (ic : bool) (r : regex) (pre : string) :
  forall (rest : string) (skip : nat) (pv : option ascii) (i : nat) (m : MatchResult),
    skip <= String.length pre ->
    (forall pre1 c pre2 m',
       pre = pre1 +:+ String c pre2 ->
       matchAt ic r (lastChar pv pre1) (i + String.length pre1)
         (String c pre2 +:+ rest) = Some m' ->
       String.length (matched m') <= S (String.length pre2)) ->
    matchAt ic r (lastChar pv pre) (i + String.length pre) rest = Some m ->
    In m (scan ic r skip pv i (pre +:+ rest)).
Proof.
  induction pre as [| c pre IH]; intros rest skip pv i m Hskip Hin Hm.
  - rewrite append_nil_l. simpl in Hskip, Hm. rewrite Nat.add_0_r in Hm.
    replace skip with 0 by lia.
    destruct rest as [| d rest]; cbn [scan]; rewrite Hm; now left.
  - rewrite append_cons.
    assert (Hrec : forall skip',
              skip' <= String.length pre ->
              In m (scan ic r skip' (Some c) (S i) (pre +:+ rest))).
    { intros skip' Hs. apply IH; [exact Hs | |].
      - intros pre1 d pre2 m' -> Hm'.
        apply (Hin (String c pre1) d pre2 m'); [now rewrite append_cons |].
        cbn [lastChar String.length]. now rewrite Nat.add_succ_r.
      - cbn [lastChar String.length] in Hm. now rewrite Nat.add_succ_r in Hm. }
    destruct skip as [| n]; cbn [scan].
    + destruct (matchAt ic r pv i (String c (pre +:+ rest))) as [m' |] eqn:Em.
      * right. apply Hrec.
        pose proof (Hin "" c pre m' eq_refl) as Hlen.
        cbn [lastChar String.length] in Hlen. rewrite Nat.add_0_r in Hlen.
        rewrite append_cons in Hlen. specialize (Hlen Em). lia.
      * apply Hrec. lia.
    + apply Hrec. simpl in Hskip. lia.
Qed.

(** A match at a position makes the scan find something, there or before. *)
Lemma scan_nonempty (ic : bool) (r : regex) (pre : string) :
  forall (rest : string) (skip : nat) (pv : option ascii) (i : nat) (m : MatchResult),
    skip <= String.length pre ->
    matchAt ic r (lastChar pv pre) (i + String.length pre) rest = Some m ->
    scan ic r skip pv i (pre +:+ rest) <> [].
Proof.
  induction pre as [| c pre IH]; intros rest skip pv i m Hskip Hm.
  - rewrite append_nil_l. simpl in Hskip, Hm. rewrite Nat.add_0_r in Hm.
    replace skip with 0 by lia.
    destruct rest as [| d rest]; cbn [scan]; rewrite Hm; discriminate.
  - rewrite append_cons.
    assert (Hrec : forall skip',
              skip' <= String.length pre ->
              scan ic r skip' (Some c) (S i) (pre +:+ rest) <> []).
    { intros skip' Hs. apply (IH rest skip' (Some c) (S i) m Hs).
      cbn [lastChar String.length] in Hm. now rewrite Nat.add_succ_r in Hm. }
    destruct skip as [| n]; cbn [scan].
    + destruct (matchAt ic r pv i (String c (pre +:+ rest))); [discriminate |].
      apply Hrec. lia.
    + apply Hrec. simpl in Hskip. lia.
Qed.

(** The last code unit of a text that begins another one is a code unit
    of that one. *)
Lemma lastChar_within (P : ascii -> bool) (u : string) :
  forall (v w z : string) (pv : option ascii),
    u <> "" -> u +:+ v = w +:+ z -> String.length u <= String.length w ->
    allChars P w = true ->
    exists y, lastChar pv u = Some y /\ P y = true.
Proof.
  induction u as [| c u IH]; intros v w z pv Hne E Hlen Hall; [now elim Hne |].
  destruct w as [| d w]; [simpl in Hlen; lia |].
  rewrite !append_cons in E. injection E as <- E.
  simpl in Hall. apply andb_true_iff in Hall. destruct Hall as [Hc Hw].
  destruct u as [| c' u'].
  - exists c. now split.
  - cbn [lastChar]. apply (IH v w z (Some c)); [discriminate | exact E | | exact Hw].
    simpl in Hlen |- *. lia.
Qed.

Lemma token_chars (a b : string) :
  bareName a = true -> bareName b = true ->
  allChars (fun c => isWordChar c || Ascii.eqb c ".") (a +:+ "." +:+ b) = true.
Proof.
  intros Ha Hb. apply bareName_word in Ha. apply bareName_word in Hb.
  assert (Hw : forall t, allChars isWordChar t = true ->
                         allChars (fun c => isWordChar c || Ascii.eqb c ".") t = true).
  { intros t. apply allChars_impl. intros c ->. reflexivity. }
  induction a as [| c a IH].
  - rewrite append_nil_l. simpl. now apply Hw.
  - rewrite append_cons. simpl in Ha |- *. apply andb_true_iff in Ha.
    destruct Ha as [Hc Ha]. rewrite Hc. now apply IH.
Qed.

(** The token a match stands for. *)
Lemma token_of_match (i : nat) (a b : string) :
  toLowerCase (tmpl (group 1 (MkMatch i (a +:+ "." +:+ b) [(2, b); (1, a)])) +:+ "." +:+
               tmpl (group 2 (MkMatch i (a +:+ "." +:+ b) [(2, b); (1, a)]))) =
  toLowerCase a +:+ "." +:+ toLowerCase b.
Proof.
  unfold group. cbn [groups getGroup find option_map snd tmpl Nat.eqb].
  now rewrite !lower_append.
Qed.

Lemma tokens_sound (sql t : string) : In t (qualifiedTokens sql) -> IsToken sql t.
Proof.
  unfold qualifiedTokens, matchAll. intros H. apply in_map_iff in H.
  destruct H as [m [<- Hm]]. apply scan_In_prev in Hm.
  destruct Hm as [pre [s' [-> Hm]]]. apply matchAt_re_shape in Hm.
  destruct Hm as (a & b & post & -> & Ha & Hb & Hpv & Hpost & ->).
  exists pre, a, b, post. split; [now repeat split |]. apply token_of_match.
Qed.

Lemma tokens_leading (sql t : string) : IsLeadingToken sql t -> In t (qualifiedTokens sql).
Proof.
  intros (pre & a & b & post & (-> & Ha & Hb & Hpv & Hpost) & Hdot & ->).
  unfold qualifiedTokens, matchAll. apply in_map_iff.
  exists (MkMatch (0 + String.length pre) (a +:+ "." +:+ b) [(2, b); (1, a)]).
  split; [apply token_of_match |].
  apply scan_finds; [lia | |].
  - intros pre1 c pre2 m' E Hm'. apply matchAt_re_shape in Hm'.
    destruct Hm' as (a' & b' & post' & E' & Ha' & Hb' & _ & _ & ->).
    cbn [matched].
    destruct (le_lt_dec (String.length (a' +:+ "." +:+ b')) (S (String.length pre2)))
      as [Hle | Hgt]; [exact Hle | exfalso].
    assert (E2 : String c pre2 +:+ (a +:+ "." +:+ b +:+ post) =
                 (a' +:+ "." +:+ b') +:+ post')
      by (rewrite E', !append_assoc; reflexivity).
    destruct (lastChar_within (fun c => isWordChar c || Ascii.eqb c ".")
                (String c pre2) _ _ _ (lastChar None pre1) ltac:(discriminate) E2)
      as [y [Hy HP]].
    + cbn [String.length]. lia.
    + now apply token_chars.
    + rewrite E, lastChar_append, Hy in Hpv, Hdot. cbn [isWordOpt] in Hpv.
      rewrite Hpv in HP. cbn [orb] in HP. apply Ascii.eqb_eq in HP. subst y.
      now elim Hdot.
  - apply matchAt_re_shape. exists a, b, post. now repeat split.
Qed.

Lemma tokens_nonempty (sql t : string) : IsToken sql t -> qualifiedTokens sql <> [].
Proof.
  intros (pre & a & b & post & (-> & Ha & Hb & Hpv & Hpost) & _).
  unfold qualifiedTokens, matchAll. intros E. apply map_eq_nil in E. revert E.
  apply (scan_nonempty false re pre _ 0 None 0
           (MkMatch (0 + String.length pre) (a +:+ "." +:+ b) [(2, b); (1, a)]));
    [lia |].
  apply matchAt_re_shape. exists a, b, post. now repeat split.
Qed.

Lemma tokens_none (sql : string) :
  qualifiedTokens sql = [] <-> forall t, ~ IsToken sql t.
Proof.
  split.
  - intros E t Ht. now apply (tokens_nonempty sql t).
  - intros H. destruct (qualifiedTokens sql) as [| t l] eqn:E; [reflexivity |].
    elim (H t). apply tokens_sound. rewrite E. now left.
Qed.

(** ** The FROM/JOIN pattern, under ignore-case *)

























(** * The claims *)

(** ** The two loops of [validateSqlTables] *)

Lemma addInferred_pick (set inferred : JsSet.t) (fm : MatchResult) :
  addInferred set inferred fm =
  match inferredOf set fm with Some t => JsSet.add t inferred | None => inferred end.
Proof.
  unfold addInferred, inferredOf, JsSet.to_list.
  destruct (split "." _) as [| p0 [| p1 [| p2 r]]]; try reflexivity.
  destruct (List.filter _ set) as [| t [| u r]]; reflexivity.
Qed.

Lemma inferredOf_Resolves (allowed : list string) (fm : MatchResult) (t : string) :
  inferredOf (JsSet.of_list (List.map toLowerCase allowed)) fm = Some t <->
  Resolves allowed (tmpl (group 2 fm)) t.
Proof.
  unfold inferredOf. fold (unquote (tmpl (group 2 fm))).
  set (set := JsSet.of_list (List.map toLowerCase allowed)).
  assert (Hset : forall x, In x set <-> In x (List.map toLowerCase allowed))
    by (intros x; apply of_list_In).
  pose proof (of_list_NoDup (List.map toLowerCase allowed)) as Hnd. fold set in Hnd.
  split.
  - destruct (split "." (unquote (tmpl (group 2 fm)))) as [| p0 [| p1 [| p2 r]]] eqn:Es;
      try discriminate.
    + destruct (List.filter _ set) as [| u [| u' r]] eqn:Ef; try discriminate.
      intros [= <-]. apply (filter_singleton _ set u Hnd) in Ef.
      destruct Ef as (Hin & Hp & Huniq).
      apply (resolves_one allowed _ u p0); try assumption; [now apply Hset |].
      intros t' Ht' Hp'. apply Huniq; [now apply Hset | assumption].
    + intros [= <-]. now apply (resolves_two allowed _ _ p0 p1).
  - intros [a b Es -> | a Es Hin Hp Huniq]; rewrite Es; [reflexivity |].
    assert (Ef : List.filter (fun t0 => endsWith t0 ("." +:+ toLowerCase a)) set = [t]).
    { apply (filter_singleton _ set t Hnd). repeat split; try assumption.
      - now apply Hset.
      - intros t' Ht'. apply Huniq. now apply Hset. }
    now rewrite Ef.
Qed.

Lemma found_qualified (sql : string) (t : string) :
  In t (fold_left addQualified (matchAll false re sql) JsSet.empty) <->
  In t (qualifiedTokens sql).
Proof.
  rewrite (fold_step_In addQualified
             (fun m => Some (toLowerCase (tmpl (group 1 m) +:+ "." +:+ tmpl (group 2 m)))))
    by reflexivity.
  unfold qualifiedTokens, JsSet.empty. rewrite in_map_iff. simpl. split.
  - intros [[] | [m [Hm [= <-]]]]. eauto.
  - intros [m [<- Hm]]. right. eauto.
Qed.

Lemma found_qualified_nil (sql : string) :
  fold_left addQualified (matchAll false re sql) JsSet.empty = [] <->
  qualifiedTokens sql = [].
Proof.
  split; intros E.
  - destruct (qualifiedTokens sql) as [| t l] eqn:Eq; [reflexivity |].
    assert (H : In t (qualifiedTokens sql)) by (rewrite Eq; now left).
    apply found_qualified in H. rewrite E in H. destruct H.
  - destruct (fold_left addQualified _ _) as [| t l] eqn:Ef; [reflexivity |].
    assert (H : In t (qualifiedTokens sql)).
    { apply found_qualified. rewrite Ef. now left. }
    rewrite E in H. destruct H.
Qed.

Lemma found_inferred (sql : string) (allowed : list string) (t : string) :
  In t (fold_left (addInferred (JsSet.of_list (List.map toLowerCase allowed)))
          (matchAll true fromJoinRe sql) JsSet.empty) <->
  exists target, In target (fromJoinTargets sql) /\ Resolves allowed target t.
Proof.
  rewrite (fold_step_In _ _ (addInferred_pick _)).
  unfold fromJoinTargets, JsSet.empty. simpl. split.
  - intros [[] | [m [Hm E]]]. apply inferredOf_Resolves in E.
    exists (tmpl (group 2 m)). split; [| assumption]. apply in_map_iff. eauto.
  - intros [target [Hin Hr]]. apply in_map_iff in Hin. destruct Hin as [m [<- Hm]].
    right. exists m. split; [assumption |]. now apply inferredOf_Resolves.
Qed.

(** The result of [validateSqlTables], by cases on what the two loops found. *)
Lemma validate_cases (sql : string) (allowed : list string) :
  let set := JsSet.of_list (List.map toLowerCase allowed) in
  let qualified := fold_left addQualified (matchAll false re sql) JsSet.empty in
  let inferred := fold_left (addInferred set) (matchAll true fromJoinRe sql) JsSet.empty in
  let found := match qualified with [] => inferred | _ => qualified end in
  validateSqlTables sql allowed =
  MkValidation (isEmpty (List.filter (notIn set) found) && negb (isEmpty found))
    (List.filter (notIn set) found) (isEmpty found) found.
Proof.
  intros set qualified inferred found. unfold validateSqlTables.
  fold set. fold qualified. unfold JsSet.size, JsSet.to_list.
  destruct qualified as [| q qs] eqn:Eq; simpl.
  - fold inferred.
    assert (Hnd : NoDup inferred).
    { apply (fold_step_NoDup _ _ (addInferred_pick set)). constructor. }
    destruct inferred as [| i0 il] eqn:Ei; simpl; [reflexivity |].
    change (fold_left (fun f t => JsSet.add t f) il (JsSet.add i0 []))
      with (fold_left (fun f t => JsSet.add t f) (i0 :: il) []).
    rewrite (add_all_fresh (i0 :: il) []) by exact Hnd. simpl.
    subst found. simpl.
    destruct (notIn set i0); simpl; [reflexivity |].
    destruct (List.filter (notIn set) il); reflexivity.
  - subst found. simpl.
    destruct (notIn set q); simpl; [reflexivity |].
    destruct (List.filter (notIn set) qs); reflexivity.
Qed.

Lemma notIn_spec (set : JsSet.t) (f : string) : notIn set f = true <-> ~ In f set.
Proof.
  unfold notIn. rewrite negb_true_iff, <- not_true_iff_false. now rewrite has_In.
Qed.


(** ** The result of [validateSqlTables] *)

Lemma unquoted_is_token (sql t : string) : IsUnquotedToken sql t -> IsToken sql t.
Proof.
  intros (pre & a & b & post & H & _ & E). now exists pre, a, b, post.
Qed.

Lemma leading_is_token (sql t : string) : IsLeadingToken sql t -> IsToken sql t.
Proof.
  intros (pre & a & b & post & H & _ & E). now exists pre, a, b, post.
Qed.





Lemma prefix_weaken (h : string) :
  forall s b, prefix h s = true -> prefix h (s +:+ b) = true.
Proof.
  induction h as [| c h IH]; intros s b H; [now destruct (s +:+ b) |].
  destruct s as [| d s]; [discriminate |]. rewrite append_cons. simpl in *.
  destruct (ascii_dec c d); [now apply IH | discriminate].
Qed.

Lemma includes_append_r (s b h : string) :
  includes s h = true -> includes (s +:+ b) h = true.
Proof.
  induction s as [| c s IH]; intros H.
  - simpl in H. rewrite orb_false_r in H. destruct h; [| discriminate].
    now destruct ("" +:+ b).
  - cbn [includes] in H. rewrite append_cons. cbn [includes].
    apply orb_true_iff in H. destruct H as [H | H].
    + rewrite <- append_cons, (prefix_weaken h _ b H). reflexivity.
    + rewrite (IH H). apply orb_true_r.
Qed.

Lemma includes_append_l (a s h : string) :
  includes s h = true -> includes (a +:+ s) h = true.
Proof.
  intros H. induction a as [| c a IH]; [now rewrite append_nil_l |].
  rewrite append_cons. cbn [includes]. rewrite IH. apply orb_true_r.
Qed.

Lemma prefix_same (t : string) : prefix t t = true.
Proof.
  induction t as [| c r IH]; [reflexivity |]. simpl.
  destruct (ascii_dec c c) as [_ | H]; [exact IH | now elim H].
Qed.

(** A token of a text is a piece of the text in lower case. *)
Lemma token_in_text (sql t : string) :
  IsToken sql t -> includes (toLowerCase sql) t = true.
Proof.
  intros (pre & a & b & post & (-> & _) & ->).
  rewrite !lower_append. apply includes_append_l.
  change (toLowerCase ".") with ".".
  replace (toLowerCase a +:+ "." +:+ toLowerCase b +:+ toLowerCase post)
    with ((toLowerCase a +:+ "." +:+ toLowerCase b) +:+ toLowerCase post)
    by (rewrite !append_assoc; reflexivity).
  apply includes_append_r. destruct (toLowerCase a +:+ "." +:+ toLowerCase b) eqn:E.
  - reflexivity.
  - cbn [includes]. now rewrite prefix_same.
Qed.




(** When the text has a [schema.table] token, the tables found are these
    tokens and nothing else. *)
Lemma found_when_qualified (sql : string) (allowed : list string) (t : string) :
  qualifiedTokens sql <> [] ->
  (In t (foundTables (validateSqlTables sql allowed)) <-> In t (qualifiedTokens sql)).
Proof.
  intros Hne. rewrite validate_cases. simpl.
  destruct (fold_left addQualified (matchAll false re sql) JsSet.empty) eqn:Eq.
  - apply found_qualified_nil in Eq. contradiction.
  - rewrite <- Eq. apply found_qualified.
Qed.

Lemma unknown_subset_found (sql : string) (allowed : list string) (t : string) :
  In t (unknown (validateSqlTables sql allowed)) ->
  In t (foundTables (validateSqlTables sql allowed)).
Proof.
  rewrite validate_cases. simpl. intros H. now apply filter_In in H.
Qed.

Lemma unknown_not_allowed (sql : string) (allowed : list string) (t : string) :
  In t (unknown (validateSqlTables sql allowed)) ->
  ~ In t (List.map toLowerCase allowed).
Proof.
  rewrite validate_cases. simpl. intros H. apply filter_In in H.
  destruct H as [_ H]. apply notIn_spec in H. now rewrite of_list_In in H.
Qed.

(** C4, as worded, fails: the full-text scan also reads inside double
    quotes.  In [sqlQuotedInside] the token [p.x] is unquoted and the
    quoted FROM target holds the token [s.t], so the table it names is
    among the tables found, and among the unknown ones. *)
Lemma quoted_target_found_counterexample :
  foundTables (validateSqlTables sqlQuotedInside ["public.cliente"]) = ["p.x"; "s.t"] /\
  unknown (validateSqlTables sqlQuotedInside ["public.cliente"]) = ["p.x"; "s.t"] /\
  ~ quotedTargetsAbsent sqlQuotedInside ["public.cliente"].
Proof.
  split; [vm_compute; reflexivity |]. split; [vm_compute; reflexivity |].
  intros H.
  assert (Hu : exists u, IsUnquotedToken sqlQuotedInside u).
  { exists "p.x", "SELECT ", "p", "x", (" FROM " +:+ quoted "s.t").
    repeat split; reflexivity. }
  destruct (H Hu (quoted "s.t") "s.t") as [Hf _].
  - vm_compute. now left.
  - now apply (resolves_two _ _ _ "s" "t").
  - apply Hf. vm_compute. right. now left.
Qed.

(** C4, amended.  The full-text scan reads the whole text, inside double
    quotes as well.  When the text has at least one token (an identifier,
    a dot and an identifier between word boundaries), the FROM/JOIN scan
    is not run: every table found, and every unknown table, is a token of
    the text, and a quoted FROM/JOIN target is found or reported as
    unknown only if the table it names is itself a token of the text. *)
Theorem quoted_targets_skipped (sql : string) (allowed : list string) :
  (exists u, IsToken sql u) ->
  (forall t, In t (foundTables (validateSqlTables sql allowed)) <->
             In t (qualifiedTokens sql)) /\
  (forall t, In t (foundTables (validateSqlTables sql allowed)) -> IsToken sql t) /\
  (forall t, IsLeadingToken sql t ->
             In t (foundTables (validateSqlTables sql allowed))) /\
  (forall t, In t (unknown (validateSqlTables sql allowed)) ->
             IsToken sql t /\ ~ In t (List.map toLowerCase allowed)) /\
  (forall target t,
     In target (quotedTargets sql) -> Resolves allowed target t ->
     ~ IsToken sql t ->
     ~ In t (foundTables (validateSqlTables sql allowed)) /\
     ~ In t (unknown (validateSqlTables sql allowed))).
Proof.
  intros [u Hu]. apply tokens_nonempty in Hu.
  assert (Hfound : forall t, In t (foundTables (validateSqlTables sql allowed)) ->
                             IsToken sql t).
  { intros t Ht. apply tokens_sound. now apply (found_when_qualified sql allowed t Hu). }
  split; [intros t; now apply found_when_qualified |].
  split; [exact Hfound |].
  split; [| split].
  - intros t Ht. apply (found_when_qualified sql allowed t Hu). now apply tokens_leading.
  - intros t Ht. split; [| now apply (unknown_not_allowed sql)].
    apply Hfound. now apply unknown_subset_found.
  - intros target t _ _ Hnot. split.
    + intros Hin. apply Hnot. now apply Hfound.
    + intros Hin. apply Hnot. apply Hfound. now apply unknown_subset_found.
Qed.

Lemma quoted_targets_skipped_witness :
  let sql := "SELECT p.x FROM " +:+ quoted "public" +:+ "." +:+ quoted "secret" in
  foundTables (validateSqlTables sql ["public.secret"; "p.x"]) = ["p.x"] /\
  ~ In "public.secret" (foundTables (validateSqlTables sql ["public.secret"; "p.x"])).
Proof.
  intros sql. split; [vm_compute; reflexivity |].
  refine (proj1 (proj2 (proj2 (proj2 (proj2
            (quoted_targets_skipped sql ["public.secret"; "p.x"] _))))
            (quoted "public" +:+ "." +:+ quoted "secret") "public.secret" _ _ _)).
  - exists "p.x", "SELECT ", "p", "x",
      (" FROM " +:+ quoted "public" +:+ "." +:+ quoted "secret").
    repeat split; reflexivity.
  - vm_compute. now left.
  - now apply (resolves_two _ _ _ "public" "secret").
  - intros Ht. apply token_in_text in Ht. vm_compute in Ht. discriminate.
Defined.

(** C10, as worded, fails: a qualified column is a token of the full-text
    scan.  In [sqlColumnOnly] the only table reference is the bare name
    [t], which two allow-listed tables end with, yet [t.col] is found and
    reported as unknown, and [noneFound] is false. *)
Lemma unresolvable_names_counterexample :
  noneFound (validateSqlTables sqlColumnOnly ["a.t"; "b.t"]) = false /\
  unknown (validateSqlTables sqlColumnOnly ["a.t"; "b.t"]) = ["t.col"] /\
  ~ unresolvableGivesNoneFound sqlColumnOnly ["a.t"; "b.t"].
Proof.
  split; [vm_compute; reflexivity |]. split; [vm_compute; reflexivity |]. intros H.
  destruct H as [Hn _]; [| vm_compute in Hn; discriminate].
  intros target Ht. vm_compute in Ht. destruct Ht as [<- | []].
  exists "t". split; vm_compute; [reflexivity | lia].
Qed.

(** C10, amended.  In the FROM/JOIN scan a one-part name with no
    candidate, or with two or more, adds nothing; so for a text that holds
    no token at all (an identifier, a dot and an identifier between word
    boundaries, which a qualified column is too) and whose FROM/JOIN
    targets are all such names, nothing is found, nothing is unknown, and
    the failure is the one of no table found.  A text that holds a token
    never has that failure. *)
Theorem unresolvable_names_none_found (sql : string) (allowed : list string) :
  (forall inferred fm name,
     split "." (unquote (tmpl (group 2 fm))) = [name] ->
     List.length (suffixCandidates allowed name) <> 1 ->
     addInferred (JsSet.of_list (List.map toLowerCase allowed)) inferred fm = inferred) /\
  ((forall u, ~ IsToken sql u) ->
   (forall target, In target (fromJoinTargets sql) ->
      exists name, split "." (unquote target) = [name] /\
                   List.length (suffixCandidates allowed name) <> 1) ->
   let r := validateSqlTables sql allowed in
   noneFound r = true /\ unknown r = [] /\ foundTables r = [] /\ ok r = false) /\
  ((exists u, IsToken sql u) ->
   noneFound (validateSqlTables sql allowed) = false).
Proof.
  assert (Hone : forall fm name,
     split "." (unquote (tmpl (group 2 fm))) = [name] ->
     List.length (suffixCandidates allowed name) <> 1 ->
     inferredOf (JsSet.of_list (List.map toLowerCase allowed)) fm = None).
  { intros fm name Es Hlen. unfold inferredOf. fold (unquote (tmpl (group 2 fm))).
    rewrite Es. unfold suffixCandidates in Hlen.
    destruct (List.filter _ _) as [| t [| u l]]; try reflexivity.
    now elim Hlen. }
  split; [| split].
  - intros inferred fm name Es Hlen. rewrite addInferred_pick.
    now rewrite (Hone fm name Es Hlen).
  - intros Hq Hall r. subst r. rewrite validate_cases. simpl.
    apply tokens_none in Hq.
    apply found_qualified_nil in Hq. rewrite Hq.
    assert (Hinf : fold_left (addInferred (JsSet.of_list (List.map toLowerCase allowed)))
                     (matchAll true fromJoinRe sql) JsSet.empty = []).
    { destruct (fold_left (addInferred _) _ _) as [| t l] eqn:Ef; [reflexivity |].
      assert (Ht : In t (t :: l)) by now left. rewrite <- Ef in Ht.
      apply (fold_step_In _ _ (addInferred_pick _)) in Ht.
      destruct Ht as [[] | [m [Hm E]]].
      destruct (Hall (tmpl (group 2 m))) as [name [Es Hlen]].
      - unfold fromJoinTargets. apply in_map_iff. eauto.
      - rewrite (Hone m name Es Hlen) in E. discriminate. }
    rewrite Hinf. simpl. repeat split.
  - intros [u Hu]. apply tokens_nonempty in Hu.
    rewrite validate_cases. simpl.
    destruct (fold_left addQualified (matchAll false re sql) JsSet.empty) eqn:Eq;
      [| reflexivity].
    apply found_qualified_nil in Eq. contradiction.
Qed.

Lemma unresolvable_names_none_found_witness :
  let r := validateSqlTables "SELECT * FROM foo JOIN bar ON 1" ["a.foo"; "b.foo"] in
  noneFound r = true /\ unknown r = [] /\ foundTables r = [] /\ ok r = false.
Proof.
  apply (proj1 (proj2 (unresolvable_names_none_found
                  "SELECT * FROM foo JOIN bar ON 1" ["a.foo"; "b.foo"]))).
  - apply tokens_none. vm_compute. reflexivity.
  - intros target Ht. vm_compute in Ht.
    destruct Ht as [<- | [<- | []]].
    + exists "foo". split; vm_compute; [reflexivity | lia].
    + exists "bar". split; vm_compute; [reflexivity | lia].
Defined.

(** ** [qualifySqlTables] *)

(** Where [qualifySqlTables] has nothing to resolve, the validation of
    its result is the validation of the text. *)
Lemma validate_after_qualify (sql : string) (allowed : list string) :
  (forall m p0,
     In m (matchAll false qualifyRe sql) ->
     split "." (unquote (tmpl (group 2 m))) = [p0] ->
     List.length (entriesFor (Some (toLowerCase p0)) (List.map toLowerCase allowed)) <> 1) ->
  validateSqlTables (qualifySqlTables sql allowed) allowed =
  validateSqlTables sql allowed.
Proof.
  intros H. now rewrite (qualify_unchanged sql allowed H).
Qed.

(** The general case at work: one keyword, a bare name with one
    candidate in an allow-list in lower case. *)
Example qualify_bare_name_example :
  qualifySqlTables "SELECT * FROM producto WHERE precio > 10"
    ["public.producto"; "public.cliente"] =
  "SELECT * FROM " +:+ quoted "public" +:+ "." +:+ quoted "producto" +:+
  " WHERE precio > 10".
Proof.
  exact (qualify_bare_name "SELECT * " "FROM" " " "producto" " WHERE precio > 10"
           ["public.producto"; "public.cliente"] "public.producto"
           (or_introl eq_refl) eq_refl eq_refl eq_refl eq_refl eq_refl eq_refl eq_refl).
Qed.

(** A bare name with two candidates stays as it is. *)
Example qualify_ambiguous_example :
  qualifySqlTables "SELECT * FROM producto" ["public.producto"; "ventas.producto"] =
  "SELECT * FROM producto".
Proof.
  apply qualify_unchanged. intros m p0 Hm Hp.
  vm_compute in Hm. destruct Hm as [<- | []].
  vm_compute in Hp. injection Hp as <-. vm_compute. lia.
Qed.

(** C3. The allow-list holds the table [public.Producto]; the bare name
    after FROM maps to it and to no other.  [qualifySqlTables] rewrites it
    to the quoted name in lower case, which is not the quoted form of the
    allow-listed table.  An unqualified name written in double quotes is
    not rewritten at all: the pattern asks for a word boundary after the
    closing quote.  Nor is a name after the keyword in lower case, which
    the pattern of [validateSqlTables] accepts. *)
Theorem qualify_lowercases_the_table :
  qualifySqlTables "SELECT * FROM Producto" ["public.Producto"] =
    "SELECT * FROM " +:+ quoted "public" +:+ "." +:+ quoted "producto" /\
  qualifySqlTables "SELECT * FROM Producto" ["public.Producto"] <>
    "SELECT * FROM " +:+ quoted "public" +:+ "." +:+ quoted "Producto" /\
  qualifySqlTables ("SELECT * FROM " +:+ quoted "producto" +:+ " LIMIT 5")
    ["public.producto"] =
    "SELECT * FROM " +:+ quoted "producto" +:+ " LIMIT 5" /\
  qualifySqlTables "select * from producto" ["public.producto"] =
    "select * from producto".
Proof.
  split; [vm_compute; reflexivity |].
  split; [vm_compute; discriminate |].
  split; vm_compute; reflexivity.
Qed.

(** C9. Every table reference of the text is fully qualified, and the
    schema name [public] is also the name of the one allow-listed table
    [sales.public].  [qualifySqlTables] rewrites the schema part of the
    reference, and the validation of the rewritten text differs from the
    validation of the text. *)
Theorem qualify_changes_validation :
  let sql := "SELECT * FROM public.orders" in
  let allowed := ["public.orders"; "sales.public"] in
  qualifySqlTables sql allowed =
    "SELECT * FROM " +:+ quoted "sales" +:+ "." +:+ quoted "public" +:+ ".orders" /\
  foundTables (validateSqlTables sql allowed) = ["public.orders"] /\
  foundTables (validateSqlTables (qualifySqlTables sql allowed) allowed) = ["sales.public"] /\
  validateSqlTables (qualifySqlTables sql allowed) allowed <> validateSqlTables sql allowed.
Proof.
  repeat split; try (vm_compute; reflexivity).
  vm_compute. discriminate.
Qed.

(** ** [nodeExecuteSQL] *)

Lemma truthy_lower_dot (a b : string) : truthy (toLowerCase (a +:+ "." +:+ b)) = true.
Proof. destruct a; reflexivity. Qed.

Lemma truthy_endsWith (t x : string) : endsWith t ("." +:+ x) = true -> truthy t = true.
Proof. destruct t; simpl; [discriminate | reflexivity]. Qed.

Lemma found_truthy (sql : string) (allowed : list string) (t : string) :
  In t (foundTables (validateSqlTables sql allowed)) -> truthy t = true.
Proof.
  rewrite validate_cases. simpl.
  destruct (fold_left addQualified (matchAll false re sql) JsSet.empty) eqn:Eq.
  - intros H. apply found_inferred in H. destruct H as [target [_ Hr]].
    destruct Hr as [a b _ -> | a _ _ He _].
    + apply truthy_lower_dot.
    + exact (truthy_endsWith _ _ He).
  - rewrite <- Eq. intros H. apply found_qualified in H.
    unfold qualifiedTokens in H. apply in_map_iff in H.
    destruct H as [m [<- _]]. apply truthy_lower_dot.
Qed.

Lemma ok_found (sql : string) (allowed : list string) :
  ok (validateSqlTables sql allowed) = true ->
  exists first others,
    foundTables (validateSqlTables sql allowed) = first :: others /\
    truthy first = true.
Proof.
  intros H.
  destruct (foundTables (validateSqlTables sql allowed)) as [| first others] eqn:Ef.
  - rewrite validate_cases in H, Ef. simpl in H, Ef. rewrite Ef in H.
    rewrite andb_false_r in H. discriminate.
  - exists first, others. split; [reflexivity |].
    apply (found_truthy sql allowed). rewrite Ef. now left.
Qed.

(** When the text has a [schema.table] token, the diagnostic query counts
    the rows of the first table found, under its quoted lower-cased name. *)
Lemma countQuery_first (sql : string) (allowed : list string) :
  qualifiedTokens sql <> [] ->
  exists s t,
    hd "" (foundTables (validateSqlTables sql allowed)) = s +:+ "." +:+ t /\
    countQuery (s +:+ "." +:+ t) =
    "SELECT COUNT(*)::int AS count FROM " +:+ quoted s +:+ "." +:+ quoted t.
Proof.
  intros Hne.
  destruct (foundTables (validateSqlTables sql allowed)) as [| f l] eqn:Ef.
  - exfalso. destruct (qualifiedTokens sql) as [| tok toks] eqn:Et; [now elim Hne |].
    assert (Hin : In tok (foundTables (validateSqlTables sql allowed))).
    { apply found_when_qualified; rewrite Et; [discriminate | now left]. }
    rewrite Ef in Hin. destruct Hin.
  - assert (Hin : In f (qualifiedTokens sql)).
    { apply (found_when_qualified sql allowed f Hne). rewrite Ef. now left. }
    apply qualifiedTokens_shape in Hin.
    destruct Hin as (a & b & _ & _ & _ & _ & _ & -> & Hsplit).
    exists (toLowerCase a), (toLowerCase b). split; [reflexivity |].
    unfold countQuery. now rewrite Hsplit.
Qed.

(** C2, as worded, fails: the update that a blocked execution returns has
    no error kind. *)
Lemma blocked_execution_counterexample :
  ~ blockedWithErrorKind dbEmpty "SELECT * FROM public.unknown_table"
      ["public.producto"] [].
Proof.
  intros H. destruct (H ltac:(vm_compute; reflexivity)) as [st [E [_ Herr]]].
  vm_compute in E. injection E as <-. discriminate.
Qed.

(** C2, amended.  For every SQL text that fails the validation against
    the allow-list, [nodeExecuteSQL] returns empty rows and a diagnostic
    answer that starts with "Blocked execution." (it names the unknown
    tables, or says that no fully-qualified allowed table is referenced),
    the update carries no error kind, and no call is made on the database:
    the calls made so far are unchanged. *)
Theorem blocked_execution (db : Database) (sql : string) (allowed : list string)
    (log : list Event) :
  ok (validateSqlTables sql allowed) = false ->
  exists msg,
    nodeExecuteSQL db sql allowed log = (Returned (rowsAndAnswer [] (Some msg)), log) /\
    error (rowsAndAnswer [] (Some msg)) = None /\
    substring 0 18 msg = "Blocked execution." /\
    msg = if noneFound (validateSqlTables sql allowed)
          then "Blocked execution. SQL must reference at least one fully-qualified allowed table."
          else "Blocked execution. Unknown tables: " +:+
               join ", " (unknown (validateSqlTables sql allowed)).
Proof.
  intros Hok. unfold nodeExecuteSQL. rewrite Hok. simpl.
  eexists. split; [reflexivity |]. split; [reflexivity |].
  split; [| reflexivity].
  destruct (noneFound (validateSqlTables sql allowed)); reflexivity.
Qed.

Lemma blocked_execution_witness :
  nodeExecuteSQL dbEmpty "SELECT * FROM public.unknown_table" ["public.producto"] [] =
  (Returned (rowsAndAnswer []
     (Some "Blocked execution. Unknown tables: public.unknown_table")), []).
Proof.
  destruct (blocked_execution dbEmpty "SELECT * FROM public.unknown_table"
              ["public.producto"] []) as [msg [E [_ [_ Hmsg]]]].
  - vm_compute. reflexivity.
  - rewrite E, Hmsg. vm_compute. reflexivity.
Defined.



(** C6, as worded, fails: the client is asked for outside the [try]
    block.  With a database that gave a client for the catalogue and
    refuses the next one, the node throws the error of the database, and
    so does the run of the graph. *)
Lemma refused_client_counterexample :
  let log := [Connect; Query catalogQuery; Release] in
  nodeExecuteSQL dbDropping "SELECT nombre FROM public.producto"
    ["public.producto"; "ventas.pedido"] log =
  (Thrown (MkError (Some "too many clients")), log ++ [Connect]) /\
  ~ errorNeverPropagated dbDropping "SELECT nombre FROM public.producto"
      ["public.producto"; "ventas.pedido"] log /\
  fst (runSqlAgent removeNothing jsonOfRows someMessages None dbDropping
         (llmReplying "SELECT nombre FROM public.producto") "productos" []) =
  Thrown (MkError (Some "too many clients")).
Proof.
  intros log. split; [vm_compute; reflexivity |]. split.
  - intros [st [log' H]]. vm_compute in H. discriminate.
  - vm_compute. reflexivity.
Qed.

(** C6, amended.  Once the pool has given a client, a database error
    raised by the query, or by the diagnostic COUNT query, is caught: the
    node returns empty rows and the answer "DB error: " followed by the
    message of the error ("Database error" when it has none), with the
    client released, and no error escapes the node.  When the pool
    refuses the client, the error is thrown to the caller and no query is
    sent. *)
Theorem database_error_caught (db : Database) (sql : string)
    (allowed : list string) (log : list Event) :
  ok (validateSqlTables sql allowed) = true ->
  (connect db log = None ->
   (forall err,
      query db (log ++ [Connect]) sql = inl err ->
      nodeExecuteSQL db sql allowed log =
      (Returned (rowsAndAnswer [] (Some ("DB error: " +:+ messageOf err))),
       log ++ [Connect; Query sql; Release])) /\
   (forall err,
      let first := hd "" (foundTables (validateSqlTables sql allowed)) in
      query db (log ++ [Connect]) sql = inr [] ->
      query db (log ++ [Connect; Query sql]) (countQuery first) = inl err ->
      nodeExecuteSQL db sql allowed log =
      (Returned (rowsAndAnswer [] (Some ("DB error: " +:+ messageOf err))),
       log ++ [Connect; Query sql; Query (countQuery first); Release])) /\
   (exists st log', nodeExecuteSQL db sql allowed log = (Returned st, log'))) /\
  (forall err,
     connect db log = Some err ->
     nodeExecuteSQL db sql allowed log = (Thrown err, log ++ [Connect])).
Proof.
  intros Hok.
  destruct (ok_found sql allowed Hok) as [first [others [Hfound Htruthy]]].
  unfold nodeExecuteSQL. rewrite Hok, Hfound. simpl.
  unfold bind, tryFinally, tryCatch, pool_connect, client_query, client_release, ret.
  split.
  - intros Hconn. rewrite Hconn, Htruthy. fold (countQuery first). split; [| split].
    + intros err Hq. rewrite Hq. repeat rewrite <- app_assoc. reflexivity.
    + intros err Hq Hcount. rewrite Hq.
      replace ((log ++ [Connect]) ++ [Query sql]) with (log ++ [Connect; Query sql])
        by now rewrite <- app_assoc.
      unfold countQuery in Hcount. simpl in Hcount. rewrite Hcount.
      repeat rewrite <- app_assoc. reflexivity.
    + destruct (query db (log ++ [Connect]) sql) as [err | [| r rs]]; eauto.
      destruct (query db _ _); eauto.
  - intros err Hconn. now rewrite Hconn.
Qed.

Lemma database_error_caught_witness :
  nodeExecuteSQL dbFailing "SELECT * FROM public.producto" ["public.producto"] [] =
  (Returned (rowsAndAnswer [] (Some "DB error: relation does not exist")),
   [Connect; Query "SELECT * FROM public.producto"; Release]) /\
  nodeExecuteSQL dbDown "SELECT * FROM public.producto" ["public.producto"] [] =
  (Thrown (MkError (Some "connection refused")), [Connect]).
Proof.
  split.
  - exact (proj1 (proj1 (database_error_caught dbFailing "SELECT * FROM public.producto"
                           ["public.producto"] [] eq_refl) eq_refl)
             (MkError (Some "relation does not exist")) eq_refl).
  - exact (proj2 (database_error_caught dbDown "SELECT * FROM public.producto"
                    ["public.producto"] [] eq_refl)
             (MkError (Some "connection refused")) eq_refl).
Defined.

(** ** [RagService.ask] *)

Lemma dropSpaces_blank (s : string) : blank s -> dropSpaces s = "".
Proof.
  unfold blank. induction s as [| c r IH]; intros H; simpl; [reflexivity |].
  rewrite (H c) by (simpl; now left). apply IH.
  intros d Hd. apply H. simpl. now right.
Qed.

(** C7. For every question that is empty or made of white space only,
    [ask] returns a result with [ok = false] and does not run the
    pipeline: whatever [runSqlAgent] is, no call is made on the database
    or on the completion service. *)
Theorem blank_question_rejected (runSqlAgent : string -> M State)
    (question : string) (log : list Event) :
  blank question ->
  ask runSqlAgent question log = (Returned (Rejected "Missing query parameter q"), log) /\
  ask_ok (Rejected "Missing query parameter q") = false.
Proof.
  intros H. unfold ask, trim. rewrite (dropSpaces_blank question H). simpl.
  rewrite orb_true_r. split; reflexivity.
Qed.

Lemma blank_question_rejected_witness :
  ask agentCalling (String (ascii_of_N 32) (String (ascii_of_N 9) "")) [] =
  (Returned (Rejected "Missing query parameter q"), []).
Proof.
  refine (proj1 (blank_question_rejected agentCalling _ [] _)).
  intros c [<- | [<- | []]]; reflexivity.
Defined.

(** ** [toNumberMaybe] and [formatCLP] *)

(** [Math.round] on a number with a fraction takes the integer [n] nearest
    to [v / 2^k], the upper one on a tie: [n] is within one half of it. *)
Lemma Math_round_nearest (s : bool) (m k : positive) :
  let v := cond_Zopp s (Zpos m) in
  let n := ((2 * v + 2 ^ Zpos k) / 2 ^ (Zpos k + 1))%Z in
  Math_round (S754_finite s m (Zneg k)) = binary_normalize prec emax n 0 s /\
  (2 * v - 2 ^ Zpos k < 2 ^ (Zpos k + 1) * n <= 2 * v + 2 ^ Zpos k)%Z.
Proof.
  intros v n. split; [reflexivity |].
  assert (Hpos : (0 < 2 ^ Zpos k)%Z) by (apply Z.pow_pos_nonneg; lia).
  assert (Hpow : (2 ^ (Zpos k + 1) = 2 * 2 ^ Zpos k)%Z)
    by (rewrite Z.pow_add_r by lia; lia).
  subst n. rewrite Hpow.
  pose proof (Z.div_mod (2 * v + 2 ^ Zpos k) (2 * 2 ^ Zpos k) ltac:(lia)) as Hdm.
  pose proof (Z.mod_pos_bound (2 * v + 2 ^ Zpos k) (2 * 2 ^ Zpos k) ltac:(lia)) as Hb.
  lia.
Qed.

Lemma binary_round_sign (sx : bool) (mx : positive) (ex : Z) :
  SFltb (binary_round prec emax sx mx ex) zero = true -> sx = true.
Proof.
  unfold binary_round, binary_round_aux.
  destruct (shl_align _ _ _) as [mz ez].
  destruct (shr_fexp _ _ _ _ _) as [mrs e'].
  destruct (shr_fexp _ _ _ _ _) as [mrs' e''].
  destruct (shr_m mrs') as [| p | p]; try discriminate.
  destruct (Z.leb _ _); destruct sx; try discriminate; reflexivity.
Qed.

(** The minus branch of [formatCLP] is taken for negative numbers only. *)
Lemma rounded_below_zero (x : number) :
  SFltb (Math_round x) zero = true ->
  match x with
  | S754_finite s _ _ | S754_infinity s => s = true
  | _ => False
  end.
Proof.
  destruct x as [s | s | | s m e]; try discriminate.
  - now destruct s.
  - destruct e as [| p | k].
    + now destruct s.
    + now destruct s.
    + unfold Math_round, binary_normalize.
      destruct ((2 * cond_Zopp s (Z.pos m) + 2 ^ Z.pos k) / 2 ^ (Z.pos k + 1))%Z
        as [| n | n] eqn:En.
      * discriminate.
      * intros H. apply binary_round_sign in H. discriminate.
      * intros _. destruct s; [reflexivity | exfalso].
        assert (Hpos : (0 < 2 ^ Z.pos k)%Z) by (apply Z.pow_pos_nonneg; lia).
        assert (Hpow : (0 < 2 ^ (Z.pos k + 1))%Z) by (apply Z.pow_pos_nonneg; lia).
        pose proof (Z.div_pos (2 * cond_Zopp false (Z.pos m) + 2 ^ Z.pos k)
                      (2 ^ (Z.pos k + 1)) ltac:(simpl; lia) Hpow) as Hd.
        rewrite En in Hd. lia.
Qed.

Lemma digits2_size (p : positive) : digits2_pos p = Pos.size p.
Proof. induction p as [p IH | p IH |]; simpl; now rewrite ?IH. Qed.

(** A canonical mantissa has at most 53 binary digits. *)
Lemma valid_mantissa (s : bool) (m : positive) (e : Z) :
  valid_binary prec emax (S754_finite s m e) = true -> (Zpos m < 2 ^ 53)%Z.
Proof.
  unfold valid_binary, bounded, canonical_mantissa, fexp, emin, prec, emax.
  intros H. apply andb_true_iff in H. destruct H as [H _].
  apply Z.eqb_eq in H.
  assert (Hd : (Zpos (digits2_pos m) <= 53)%Z) by lia.
  rewrite digits2_size in Hd.
  pose proof (Pos.size_gt m) as Hg.
  apply Pos2Z.pos_lt_pos in Hg. rewrite Pos2Z.inj_pow in Hg.
  apply (Z.lt_le_trans _ _ _ Hg). apply Z.pow_le_mono_r; lia.
Qed.

Lemma small_digits (p : positive) : (Zpos p < 2 ^ 53)%Z -> (Zpos (digits2_pos p) <= 53)%Z.
Proof.
  intros H. rewrite digits2_size.
  destruct (Z_le_gt_dec (Zpos (Pos.size p)) 53) as [Hle | Hgt]; [exact Hle | exfalso].
  pose proof (Pos.size_le p) as Hl.
  apply Pos2Z.pos_le_pos in Hl. rewrite Pos2Z.inj_pow in Hl.
  assert (H54 : (2 ^ 54 <= 2 ^ Zpos (Pos.size p))%Z) by (apply Z.pow_le_mono_r; lia).
  change (2 ^ 54)%Z with (2 * 2 ^ 53)%Z in H54. lia.
Qed.

Lemma digits2_shift (d p : positive) :
  digits2_pos (Pos.iter xO p d) = (digits2_pos p + d)%positive.
Proof.
  revert p. induction d as [| d IH] using Pos.peano_ind; intros p.
  - simpl. lia.
  - rewrite Pos.iter_succ. simpl. rewrite IH. lia.
Qed.

(** A mantissa that is canonical for its exponent is not rounded. *)
Lemma binary_round_aux_exact (sx : bool) (m : positive) (e : Z) :
  fexp prec emax (Zpos (digits2_pos m) + e) = e -> (e <= emax - prec)%Z ->
  binary_round_aux prec emax sx (Zpos m) e loc_Exact = S754_finite sx m e.
Proof.
  intros Hf He. unfold binary_round_aux, shr_fexp. cbn [Zdigits2 shr_record_of_loc].
  rewrite Hf, Z.sub_diag. cbn [shr shr_m loc_of_shr_record round_nearest_even Zdigits2].
  rewrite Hf, Z.sub_diag. cbn [shr shr_m shr_record_of_loc].
  apply Z.leb_le in He. now rewrite He.
Qed.

(** An integer of at most 53 binary digits is a number as it is. *)
Lemma binary_round_small (sx : bool) (p : positive) :
  (Zpos p < 2 ^ 53)%Z ->
  exists m e,
    binary_round prec emax sx p 0 = S754_finite sx m e /\
    (e <= 0)%Z /\ (Zpos m = Zpos p * 2 ^ (- e))%Z.
Proof.
  intros Hp. apply small_digits in Hp.
  unfold binary_round, shl_align.
  assert (Hf : fexp prec emax (Zpos (digits2_pos p) + 0) = (Zpos (digits2_pos p) - 53)%Z)
    by (unfold fexp, emin, prec, emax; lia).
  rewrite Hf, Z.sub_0_r.
  destruct (Zpos (digits2_pos p) - 53)%Z as [| q | q] eqn:Ed; [| lia |].
  - exists p, 0%Z. split; [| split; [lia | change (2 ^ (- 0))%Z with 1%Z; lia]].
    apply binary_round_aux_exact; [| unfold emax, prec; lia].
    rewrite Hf. lia.
  - exists (Pos.iter xO p q), (Zneg q). split; [| split; [lia |]].
    + apply binary_round_aux_exact; [| unfold emax, prec; lia].
      rewrite digits2_shift. unfold fexp, emin, prec, emax. lia.
    + change (Pos.iter xO p q) with (shift_pos q p). rewrite shift_pos_correct.
      rewrite Z.pow_pos_fold. change (- Z.neg q)%Z with (Z.pos q). apply Z.mul_comm.
Qed.

Lemma pos_pow_1_l (k : positive) : (1 ^ k = 1)%positive.
Proof. apply Pos2Z.inj. rewrite Pos2Z.inj_pow. apply Z.pow_1_l. lia. Qed.

(** The value of a number with a negative exponent, as a fraction. *)
Lemma valueOf_fraction (s : bool) (m k : positive) :
  (valueOf (S754_finite s m (Zneg k)) == cond_Zopp s (Zpos m) # 2 ^ k)%Q.
Proof.
  unfold valueOf. cbn [Qpower]. change 2%Q with (2 # 1)%Q.
  rewrite Qpower_decomp_positive, <- Pos2Z.inj_pow, pos_pow_1_l.
  unfold Qeq, Qmult, Qinv, inject_Z. simpl. lia.
Qed.

(** The value of a number with an exponent that is not negative. *)
Lemma valueOf_integer (s : bool) (m : positive) (e : Z) :
  (0 <= e)%Z ->
  (valueOf (S754_finite s m e) == inject_Z (cond_Zopp s (Zpos m) * 2 ^ e))%Q.
Proof.
  intros He. unfold valueOf. rewrite inject_Z_mult, (Zpower_Qpower 2 e He). reflexivity.
Qed.

Lemma valueOf_scaled (s : bool) (m p : positive) (e : Z) :
  (e <= 0)%Z -> (Zpos m = Zpos p * 2 ^ (- e))%Z ->
  (valueOf (S754_finite s m e) == inject_Z (cond_Zopp s (Zpos p)))%Q.
Proof.
  intros He Hm. destruct e as [| q | q]; [| lia |].
  - rewrite valueOf_integer by lia. change (2 ^ 0)%Z with 1%Z.
    change (2 ^ (- 0))%Z with 1%Z in Hm. rewrite Z.mul_1_r in Hm |- *.
    injection Hm as ->. reflexivity.
  - rewrite valueOf_fraction. change (- Z.neg q)%Z with (Z.pos q) in Hm.
    rewrite <- Pos2Z.inj_pow in Hm.
    unfold Qeq, inject_Z. cbn [Qnum Qden]. destruct s; cbn [cond_Zopp]; lia.
Qed.

(** [Math.round] of a binary64 number is the integer nearest to it, the
    upper one on a tie. *)
Lemma Math_round_spec (x : number) :
  valid_binary prec emax x = true -> isFinite x = true ->
  isFinite (Math_round x) = true /\
  exists n : Z,
    (valueOf (Math_round x) == inject_Z n)%Q /\
    (inject_Z n - (1 # 2) <= valueOf x)%Q /\ (valueOf x < inject_Z n + (1 # 2))%Q.
Proof.
  intros Hv Hfin. destruct x as [s | s | | s m e]; try discriminate.
  - split; [reflexivity |]. exists 0%Z. cbn. change (inject_Z 0) with 0%Q.
    repeat split; try reflexivity; lra.
  - destruct e as [| e | k].
    + split; [reflexivity |]. exists (cond_Zopp s (Zpos m) * 2 ^ 0)%Z.
      cbn [Math_round]. rewrite valueOf_integer by lia. repeat split; try reflexivity; lra.
    + split; [reflexivity |]. exists (cond_Zopp s (Zpos m) * 2 ^ Zpos e)%Z.
      cbn [Math_round]. rewrite valueOf_integer by lia. repeat split; try reflexivity; lra.
    + pose proof (valid_mantissa s m (Zneg k) Hv) as Hm.
      destruct (Math_round_nearest s m k) as [-> Hn].
      set (v := cond_Zopp s (Zpos m)) in *.
      set (n := ((2 * v + 2 ^ Zpos k) / 2 ^ (Zpos k + 1))%Z) in *.
      assert (Hpos : (2 <= 2 ^ Zpos k)%Z).
      { change 2%Z with (2 ^ 1)%Z at 1. apply Z.pow_le_mono_r; lia. }
      assert (Hpow : (2 ^ (Zpos k + 1) = 2 * 2 ^ Zpos k)%Z)
        by (rewrite Z.pow_add_r by lia; lia).
      rewrite Hpow in Hn.
      assert (Hv' : (- Zpos m <= v <= Zpos m)%Z) by (subst v; destruct s; cbn; lia).
      assert (Hsmall : (- 2 ^ 53 < n < 2 ^ 53)%Z) by nia.
      assert (Hval : (valueOf (binary_normalize prec emax n 0 s) == inject_Z n)%Q /\
                     isFinite (binary_normalize prec emax n 0 s) = true).
      { destruct n as [| p | p]; cbn [binary_normalize].
        - split; reflexivity.
        - destruct (binary_round_small false p) as (m' & e' & -> & He' & Hm'); [lia |].
          split; [| reflexivity]. exact (valueOf_scaled false m' p e' He' Hm').
        - destruct (binary_round_small true p) as (m' & e' & -> & He' & Hm'); [lia |].
          split; [| reflexivity]. exact (valueOf_scaled true m' p e' He' Hm'). }
      destruct Hval as [Hval Hf]. split; [exact Hf |]. exists n.
      split; [exact Hval |].
      rewrite valueOf_fraction. fold v.
      unfold Qle, Qlt, Qminus, Qplus, Qopp, inject_Z. cbn [Qnum Qden].
      rewrite !Pos2Z.inj_mul, Pos2Z.inj_pow. lia.
Qed.

(** *** Integers of any size *)

Lemma digits2_bounds (p : positive) :
  (2 ^ (Zpos (digits2_pos p) - 1) <= Zpos p < 2 ^ Zpos (digits2_pos p))%Z.
Proof.
  rewrite digits2_size.
  pose proof (Pos.size_gt p) as Hg. apply Pos2Z.pos_lt_pos in Hg.
  rewrite Pos2Z.inj_pow in Hg.
  pose proof (Pos.size_le p) as Hl. apply Pos2Z.pos_le_pos in Hl.
  rewrite Pos2Z.inj_pow in Hl.
  split; [| exact Hg].
  assert (E : (2 ^ Zpos (Pos.size p) = 2 * 2 ^ (Zpos (Pos.size p) - 1))%Z).
  { rewrite <- Z.pow_succ_r by lia. f_equal. lia. }
  rewrite E in Hl. change (Z.pos p~0) with (2 * Z.pos p)%Z in Hl. lia.
Qed.

Lemma digits2_unique (p : positive) (n : Z) :
  (2 ^ (n - 1) <= Zpos p < 2 ^ n)%Z -> (1 <= n)%Z -> Zpos (digits2_pos p) = n.
Proof.
  intros [Hlo Hhi] Hn. pose proof (digits2_bounds p) as [Hl Hg].
  set (d := Zpos (digits2_pos p)) in *.
  destruct (Z.lt_trichotomy d n) as [Hlt | [E | Hgt]]; [exfalso | exact E | exfalso].
  - assert (H : (2 ^ d <= 2 ^ (n - 1))%Z) by (apply Z.pow_le_mono_r; lia). lia.
  - assert (H : (2 ^ n <= 2 ^ (d - 1))%Z) by (apply Z.pow_le_mono_r; lia). lia.
Qed.

Lemma shr_1_m (mrs : shr_record) :
  (0 <= shr_m mrs)%Z ->
  shr_m (shr_1 mrs) = (shr_m mrs / 2)%Z.
Proof.
  destruct mrs as [m r s]. cbn [shr_m]. intros Hm.
  destruct m as [| [p | p |] | p]; cbn [shr_1 shr_m]; try lia.
  - reflexivity.
  - apply (Z.div_unique (Zpos p~1) 2 (Zpos p) 1); lia.
  - apply (Z.div_unique (Zpos p~0) 2 (Zpos p) 0); lia.
  - reflexivity.
Qed.

Lemma iter_shr_m (n : positive) :
  forall mrs : shr_record,
    (0 <= shr_m mrs)%Z ->
    shr_m (iter_pos shr_1 n mrs) = (shr_m mrs / 2 ^ Zpos n)%Z.
Proof.
  assert (Hnn : forall mrs k, (0 <= shr_m mrs)%Z -> (0 < k)%Z -> (0 <= shr_m mrs / k)%Z)
    by (intros mrs k H Hk; apply Z.div_pos; lia).
  assert (Hp : forall q, (0 < 2 ^ Zpos q)%Z) by (intros q; apply Z.pow_pos_nonneg; lia).
  induction n as [n IH | n IH |]; intros mrs Hm; cbn [iter_pos].
  - assert (H1 : (0 <= shr_m (shr_1 mrs))%Z) by (rewrite shr_1_m by exact Hm; apply Hnn; lia).
    assert (H2 : (0 <= shr_m (iter_pos shr_1 n (shr_1 mrs)))%Z)
      by (rewrite IH by exact H1; apply Hnn; [exact H1 | apply Hp]).
    rewrite (IH _ H2), (IH _ H1), shr_1_m by exact Hm.
    rewrite !Z.div_div by (pose proof (Hp n); lia).
    f_equal. replace (Z.pos n~1) with (1 + Z.pos n + Z.pos n)%Z by lia.
    rewrite !Z.pow_add_r by lia. change (2 ^ 1)%Z with 2%Z. lia.
  - assert (H2 : (0 <= shr_m (iter_pos shr_1 n mrs))%Z)
      by (rewrite IH by exact Hm; apply Hnn; [exact Hm | apply Hp]).
    rewrite (IH _ H2), (IH _ Hm).
    rewrite !Z.div_div by (pose proof (Hp n); lia).
    f_equal. replace (Z.pos n~0) with (Z.pos n + Z.pos n)%Z by lia.
    now rewrite Z.pow_add_r by lia.
  - rewrite shr_1_m by exact Hm. reflexivity.
Qed.

(** An integer rounds to a number of its sign: never to a zero. *)
Lemma binary_round_integer (sx : bool) (p : positive) :
  exists m e,
    binary_round prec emax sx p 0 = S754_finite sx m e \/
    binary_round prec emax sx p 0 = S754_infinity sx.
Proof.
  destruct (Z_lt_le_dec (Zpos p) (2 ^ 53)) as [Hsmall | Hbig].
  { destruct (binary_round_small sx p Hsmall) as (m & e & H & _). eauto. }
  pose proof (digits2_bounds p) as [Hlo Hhi].
  set (d := Zpos (digits2_pos p)) in *.
  assert (Hd : (54 <= d)%Z).
  { destruct (Z_lt_le_dec d 54) as [Hlt | Hge]; [exfalso | exact Hge].
    assert (H : (2 ^ d <= 2 ^ 53)%Z) by (apply Z.pow_le_mono_r; lia). lia. }
  assert (Hf : fexp prec emax (Zpos (digits2_pos p) + 0) = (d - 53)%Z)
    by (unfold fexp, emin, prec, emax; fold d; lia).
  remember (binary_round prec emax sx p 0) as R eqn:ER.
  unfold binary_round, shl_align in ER. rewrite Hf, Z.sub_0_r in ER.
  destruct (d - 53)%Z as [| q | q] eqn:Eq; [lia | | lia].
  unfold binary_round_aux in ER. unfold shr_fexp at 1 in ER. cbn [Zdigits2 shr_record_of_loc] in ER.
  rewrite Hf, Z.sub_0_r in ER. cbn [shr] in ER.
  set (mrs := iter_pos shr_1 q {| shr_m := Z.pos p; shr_r := false; shr_s := false |}) in ER.
  assert (Hm1 : shr_m mrs = (Zpos p / 2 ^ Zpos q)%Z)
    by (subst mrs; now rewrite iter_shr_m).
  assert (Hq : (0 < 2 ^ Zpos q)%Z) by (apply Z.pow_pos_nonneg; lia).
  assert (Hpow : (2 ^ d = 2 ^ 53 * 2 ^ Zpos q)%Z)
    by (rewrite <- Z.pow_add_r by lia; f_equal; lia).
  assert (Hpow' : (2 ^ (d - 1) = 2 ^ 52 * 2 ^ Zpos q)%Z)
    by (rewrite <- Z.pow_add_r by lia; f_equal; lia).
  assert (Hb1 : (2 ^ 52 <= shr_m mrs < 2 ^ 53)%Z).
  { rewrite Hm1. split.
    - apply Z.div_le_lower_bound; [exact Hq | lia].
    - apply Z.div_lt_upper_bound; [exact Hq | lia]. }
  set (m2 := round_nearest_even (shr_m mrs) (loc_of_shr_record mrs)) in ER.
  assert (Hb2 : (2 ^ 52 <= m2 <= 2 ^ 53)%Z).
  { subst m2. unfold round_nearest_even.
    destruct (loc_of_shr_record mrs) as [| []]; try destruct (Z.even _); lia. }
  destruct m2 as [| p2 | p2] eqn:E2; [lia | | lia].
  unfold shr_fexp in ER. cbn [Zdigits2 shr_record_of_loc] in ER.
  destruct (Z_lt_le_dec (Zpos p2) (2 ^ 53)) as [Hlt | Hge].
  - assert (Hd2 : Zpos (digits2_pos p2) = 53%Z) by (apply digits2_unique; lia).
    assert (Hf2 : (fexp prec emax (Zpos (digits2_pos p2) + (0 + Zpos q)) - (0 + Zpos q) = 0)%Z)
      by (rewrite Hd2; unfold fexp, emin, prec, emax; lia).
    rewrite Hf2 in ER. cbn [shr shr_m] in ER.
    exists p2, (0 + Zpos q)%Z. rewrite ER. destruct (_ <=? _)%Z; auto.
  - assert (Ep2 : p2 = 9007199254740992%positive)
      by (apply Pos2Z.inj; change (Zpos 9007199254740992) with (2 ^ 53)%Z; lia).
    rewrite Ep2 in ER.
    change (digits2_pos 9007199254740992) with 54%positive in ER.
    assert (Hf2 : (fexp prec emax (54 + (0 + Zpos q)) - (0 + Zpos q) = 1)%Z)
      by (unfold fexp, emin, prec, emax; lia).
    rewrite Hf2 in ER. cbn [shr iter_pos shr_1 shr_m] in ER.
    exists 4503599627370496%positive. eexists. rewrite ER.
    destruct (_ <=? _)%Z; auto.
Qed.

(** The minus branch of [formatCLP] is taken by the numbers below minus
    one half, and by no other. *)
Lemma rounded_below_half (x : number) :
  isFinite x = true ->
  (SFltb (Math_round x) zero = true <-> (valueOf x < - (1 # 2))%Q).
Proof.
  intros Hfin. destruct x as [s | s | | s m e]; try discriminate.
  - cbn. split; [destruct s; discriminate | intros H; lra].
  - destruct e as [| e | k].
    + cbn [Math_round]. rewrite valueOf_integer by lia.
      change (2 ^ 0)%Z with 1%Z. rewrite Z.mul_1_r.
      destruct s; cbn [cond_Zopp]; (split; [| try reflexivity]).
      * intros _. unfold Qlt, inject_Z. cbn. lia.
      * discriminate.
      * unfold Qlt, inject_Z. cbn. lia.
    + cbn [Math_round]. rewrite valueOf_integer by lia.
      assert (Hp : (0 < 2 ^ Zpos e)%Z) by (apply Z.pow_pos_nonneg; lia).
      destruct s; cbn [cond_Zopp]; (split; [| try reflexivity]).
      * intros _. unfold Qlt, inject_Z. cbn [Qnum Qden Qopp Z.opp]. nia.
      * discriminate.
      * unfold Qlt, inject_Z. cbn [Qnum Qden Qopp Z.opp]. nia.
    + destruct (Math_round_nearest s m k) as [-> Hn].
      rewrite valueOf_fraction.
      set (v := cond_Zopp s (Zpos m)) in *.
      set (n := ((2 * v + 2 ^ Zpos k) / 2 ^ (Zpos k + 1))%Z) in *.
      assert (Hpos : (0 < 2 ^ Zpos k)%Z) by (apply Z.pow_pos_nonneg; lia).
      assert (Hpow : (2 ^ (Zpos k + 1) = 2 * 2 ^ Zpos k)%Z)
        by (rewrite Z.pow_add_r by lia; lia).
      rewrite Hpow in Hn.
      assert (Hq : (v # 2 ^ k < - (1 # 2))%Q <-> (n < 0)%Z).
      { unfold Qlt. cbn [Qnum Qden Qopp]. rewrite Pos2Z.inj_pow. nia. }
      rewrite Hq. destruct n as [| p | p]; cbn [binary_normalize].
      * split; [destruct s; discriminate | lia].
      * split; [| lia]. intros H. apply binary_round_sign in H. discriminate.
      * split; [lia | intros _].
        destruct (binary_round_integer true p) as (m' & e' & [-> | ->]); reflexivity.
Qed.

(** C8, as worded, fails: a negative value above minus one half rounds
    to negative zero, which is not below zero, so [formatCLP] hands it to
    the formatter and adds no sign of its own.  For -0.3 the es-CL
    rendering is the peso sign, a minus sign and 0: the text does not
    start with a minus sign. *)
Lemma small_negative_counterexample :
  toNumberMaybe (VString "-0,3") = Some minusThreeTenths /\
  Math_round minusThreeTenths = S754_zero true /\
  formatCLP esCL_format minusThreeTenths = "$-0" /\
  ~ negativePrefixed esCL_format minusThreeTenths.
Proof.
  split; [vm_compute; reflexivity |]. split; [vm_compute; reflexivity |].
  split; [vm_compute; reflexivity |]. intros H.
  destruct H as [rest Hr]; [vm_compute; reflexivity |].
  vm_compute in Hr. discriminate.
Qed.

(** C8, amended.  The coercion maps the string "1.234,56" to the number
    1234.56 (the binary64 nearest to it).  [formatCLP] formats the value
    rounded by [Math.round]: 1234.56 reads "$1.235" in the es-CL
    rendering, with no decimals and a separator between the thousands.  A
    finite value below minus one half reads as a minus sign followed by
    the rendering of the absolute value of the rounded value; every other
    finite value reads as the rendering of the rounded value.  For every
    binary64 number (a representation that is valid) the rounded value is
    the nearest integer, the upper one on a tie.  Only a negative value
    gets the minus sign. *)
Theorem coercion_and_currency_format :
  toNumberMaybe (VString "1.234,56") = Some precio /\
  Number_ "1234.56" = Some precio /\
  (Qabs (valueOf precio - (123456 # 100)) <= 1 # (2 ^ 43))%Q /\
  formatCLP esCL_format precio = "$1.235" /\
  (forall (fmt : number -> string) (x : number),
     isFinite x = true ->
     ((valueOf x < - (1 # 2))%Q ->
      formatCLP fmt x = "-" +:+ fmt (Math_abs (Math_round x))) /\
     (~ (valueOf x < - (1 # 2))%Q ->
      formatCLP fmt x = fmt (Math_round x))) /\
  (forall x : number,
     valid_binary prec emax x = true -> isFinite x = true ->
     isFinite (Math_round x) = true /\
     exists n : Z,
       (valueOf (Math_round x) == inject_Z n)%Q /\
       (inject_Z n - (1 # 2) <= valueOf x)%Q /\
       (valueOf x < inject_Z n + (1 # 2))%Q) /\
  (forall x : number,
     isFinite x = true -> SFltb (Math_round x) zero = true ->
     exists m e, x = S754_finite true m e).
Proof.
  split; [vm_compute; reflexivity |].
  split; [vm_compute; reflexivity |].
  split; [apply Qle_bool_iff; vm_compute; reflexivity |].
  split; [vm_compute; reflexivity |].
  split; [| split].
  - intros fmt x Hfin. pose proof (rounded_below_half x Hfin) as Hiff.
    unfold formatCLP. rewrite Hfin. cbn [negb]. split; intros H.
    + apply Hiff in H. now rewrite H.
    + destruct (SFltb (Math_round x) zero) eqn:E; [| reflexivity].
      elim H. now apply Hiff.
  - apply Math_round_spec.
  - intros x Hfin Hlt. apply rounded_below_zero in Hlt.
    destruct x as [s | s | | s m e]; try discriminate; try contradiction.
    subst s. eauto.
Qed.

Lemma coercion_and_currency_format_witness :
  option_map (formatCLP esCL_format) (toNumberMaybe (VString "-1.234.567,56")) =
  Some "-$1.234.568".
Proof.
  assert (E : toNumberMaybe (VString "-1.234.567,56") =
              Some (ofDecimal true 123456756 (-2))) by (vm_compute; reflexivity).
  rewrite E. unfold option_map. apply (f_equal Some).
  rewrite (proj1 (proj1 (proj2 (proj2 (proj2 (proj2 coercion_and_currency_format))))
                    esCL_format (ofDecimal true 123456756 (-2)) eq_refl)).
  - vm_compute. reflexivity.
  - vm_compute. reflexivity.
Defined.

(** * The sanitation of the generated SQL *)

(** ** The white-space pattern: each maximal run is one match *)

Lemma span_run (p : ascii -> bool) (s : string) :
  exists xs r, s = xs +:+ r /\ allChars p xs = true /\
               match r with String c _ => p c = false | EmptyString => True end.
Proof.
  induction s as [| c s IH].
  - exists "", "". now rewrite append_nil_l.
  - destruct (p c) eqn:Ec.
    + destruct IH as [xs [r [-> [Hxs Hr]]]].
      exists (String c xs), r. rewrite append_cons. simpl. now rewrite Ec.
    + exists "", (String c s). now rewrite append_nil_l.
Qed.

Lemma matchAt_plus_run (p : ascii -> bool) (x : ascii) (xs r : string)
    (pv : option ascii) (i : nat) :
  allChars p (String x xs) = true ->
  match r with String c _ => p c = false | EmptyString => True end ->
  matchAt false (Plus p) pv i (String x xs +:+ r) = Some (MkMatch i (String x xs) []).
Proof.
  intros Hall Hr. simpl in Hall. apply andb_true_iff in Hall. destruct Hall as [Hx Hxs].
  unfold matchAt. rewrite append_cons. cbn [rmatch rest pos prev caps]. rewrite Hx.
  erewrite (greedy_run p xs (Some x) (S i) r [] Some); [| exact Hxs | exact Hr | reflexivity].
  cbn [pos]. f_equal. f_equal.
  replace (S i + String.length xs - i) with (String.length (String x xs)) by (simpl; lia).
  rewrite <- append_cons. apply firstn_append.
Qed.

Lemma matchAt_plus_none (p : ascii -> bool) (s : string) (pv : option ascii) (i : nat) :
  match s with String c _ => p c = false | EmptyString => True end ->
  matchAt false (Plus p) pv i s = None.
Proof.
  intros H. unfold matchAt. destruct s as [| c s]; simpl; [reflexivity |].
  now rewrite H.
Qed.

Lemma collapse_run (xs r : string) :
  allChars isWhiteSpace xs = true ->
  match r with String c _ => isWhiteSpace c = false | EmptyString => True end ->
  collapse true (xs +:+ r) = collapse false r.
Proof.
  intros Hxs Hr. induction xs as [| x xs IH].
  - rewrite append_nil_l. destruct r as [| c r]; simpl; [reflexivity |]. now rewrite Hr.
  - simpl in Hxs. apply andb_true_iff in Hxs. destruct Hxs as [Hx Hxs].
    rewrite append_cons. simpl. rewrite Hx. now apply IH.
Qed.

Lemma collapse_scan (n : nat) :
  forall (s : string) (pv : option ascii) (i i0 : nat) (g : string),
    String.length s <= n ->
    i0 + String.length g = i ->
    replaceMatches (fun _ => " ") (scan false (Plus isWhiteSpace) 0 pv i s) i0 (g +:+ s) =
    g +:+ collapse false s.
Proof.
  induction n as [| n IH]; intros s pv i i0 g Hn Hpos.
  - destruct s; [| simpl in Hn; lia]. reflexivity.
  - destruct s as [| c s']; [reflexivity |].
    destruct (isWhiteSpace c) eqn:Ec.
    + destruct (span_run isWhiteSpace s') as [xs [r [-> [Hxs Hr]]]].
      assert (Hall : allChars isWhiteSpace (String c xs) = true) by (simpl; now rewrite Ec).
      assert (Em : matchAt false (Plus isWhiteSpace) pv i (String c (xs +:+ r)) =
                   Some (MkMatch i (String c xs) [])).
      { rewrite <- append_cons. now apply matchAt_plus_run. }
      cbn [scan]. rewrite Em.
      cbn [matched String.length]. simpl Nat.sub. rewrite Nat.sub_0_r.
      rewrite scan_skip. cbn [replaceMatches index matched].
      replace (i - i0) with (String.length g) by lia.
      rewrite firstn_append, skipn_append_more.
      change (String c (xs +:+ r)) with (String c xs +:+ r) at 1.
      rewrite skipn_append.
      simpl collapse at 1. rewrite Ec.
      rewrite (collapse_run xs r Hxs Hr).
      specialize (IH r (lastChar (Some c) xs) (S i + String.length xs)
                    (i + String.length (String c xs)) "").
      rewrite append_nil_l in IH. rewrite IH.
      * now rewrite append_nil_l, append_cons, append_nil_l.
      * simpl in Hn. rewrite length_append in Hn. lia.
      * simpl. lia.
    + cbn [scan]. rewrite (matchAt_plus_none isWhiteSpace (String c s') pv i Ec).
      specialize (IH s' (Some c) (S i) i0 (g +:+ String c "")).
      rewrite append_assoc, append_cons, append_nil_l in IH.
      rewrite IH; [| simpl in Hn; lia | rewrite length_append; simpl; lia].
      simpl collapse. rewrite Ec.
      now rewrite append_assoc, append_cons, append_nil_l.
Qed.

Lemma collapseWhiteSpace_collapse (s : string) :
  collapseWhiteSpace s = collapse false s.
Proof.
  unfold collapseWhiteSpace, replaceAll, matchAll.
  exact (collapse_scan (String.length s) s None 0 0 "" (Nat.le_refl _) eq_refl).
Qed.

(** ** What [trim] leaves, and what the collapse makes of it *)

Lemma singleSpaced_collapse (t : string) :
  forall pv, singleSpaced (spaceOpt pv) (collapse (spaceOpt pv) t) =
             negb (spaceOpt (lastChar pv t)).
Proof.
  induction t as [| c r IH]; intros pv; [reflexivity |].
  cbn [collapse lastChar]. destruct (isWhiteSpace c) eqn:Ec.
  - destruct (spaceOpt pv) eqn:Ep.
    + rewrite <- (IH (Some c)). simpl. now rewrite Ec.
    + cbn [singleSpaced]. change (isWhiteSpace " ") with true. cbv iota.
      rewrite <- (IH (Some c)). simpl. now rewrite Ec.
  - cbn [singleSpaced]. rewrite Ec. rewrite <- (IH (Some c)). simpl. now rewrite Ec.
Qed.

Lemma trimEnd_last (s : string) :
  forall pv, spaceOpt pv = false -> spaceOpt (lastChar pv (trimEnd s)) = false.
Proof.
  induction s as [| c r IH]; intros pv Hpv; [exact Hpv |].
  cbn [trimEnd]. destruct (trimEnd r) as [| d t] eqn:Et.
  - destruct (isWhiteSpace c) eqn:Ec; [exact Hpv | simpl; exact Ec].
  - exact (IH pv Hpv).
Qed.

Lemma dropSpaces_head (s : string) :
  match dropSpaces s with String c _ => isWhiteSpace c = false | EmptyString => True end.
Proof.
  induction s as [| c r IH]; simpl; [exact I |].
  destruct (isWhiteSpace c) eqn:Ec; [exact IH | exact Ec].
Qed.

Lemma trimEnd_head (s : string) :
  match s with String c _ => isWhiteSpace c = false | EmptyString => True end ->
  match trimEnd s with String c _ => isWhiteSpace c = false | EmptyString => True end.
Proof.
  destruct s as [| c r]; [trivial |]. intros Hc. cbn [trimEnd].
  destruct (trimEnd r); [rewrite Hc |]; exact Hc.
Qed.

Lemma trim_head (s : string) :
  match trim s with String c _ => isWhiteSpace c = false | EmptyString => True end.
Proof. apply trimEnd_head, dropSpaces_head. Qed.

Lemma trim_last (s : string) : spaceOpt (lastChar None (trim s)) = false.
Proof. now apply trimEnd_last. Qed.

Lemma singleSpaced_trimEnd (u : string) :
  forall b, singleSpaced b u = true -> trimEnd u = u.
Proof.
  induction u as [| c r IH]; intros b H; [reflexivity |].
  cbn [singleSpaced] in H. cbn [trimEnd].
  assert (Hr : singleSpaced (isWhiteSpace c) r = true).
  { destruct (isWhiteSpace c); [| exact H].
    apply andb_true_iff in H. apply H. }
  rewrite (IH _ Hr). destruct r as [| d r']; [| reflexivity].
  simpl in Hr. now destruct (isWhiteSpace c).
Qed.

Lemma singleLine_trim (u : string) : singleLine u = true -> trim u = u.
Proof.
  destruct u as [| c r]; [reflexivity |]. unfold singleLine, trim. intros H.
  assert (Hc : isWhiteSpace c = false).
  { cbn [singleSpaced] in H. destruct (isWhiteSpace c); [| reflexivity].
    now rewrite andb_false_r in H. }
  cbn [dropSpaces]. rewrite Hc. exact (singleSpaced_trimEnd _ _ H).
Qed.

Lemma singleLine_collapse (t : string) :
  match t with String c _ => isWhiteSpace c = false | EmptyString => True end ->
  spaceOpt (lastChar None t) = false ->
  singleLine (collapse false t) = true.
Proof.
  intros Hhead Hlast.
  pose proof (singleSpaced_collapse t None) as H. rewrite Hlast in H.
  destruct t as [| c r]; [reflexivity |].
  cbn [collapse] in *. rewrite Hhead in *.
  unfold singleLine. cbn [singleSpaced spaceOpt] in *. rewrite Hhead in *. exact H.
Qed.

Lemma singleSpaced_collapse_id (u : string) :
  forall b, singleSpaced b u = true -> collapse b u = u.
Proof.
  induction u as [| c r IH]; intros b H; [reflexivity |].
  cbn [singleSpaced] in H. cbn [collapse].
  destruct (isWhiteSpace c).
  - apply andb_true_iff in H. destruct H as [H Hr].
    apply andb_true_iff in H. destruct H as [Hc Hb].
    apply Ascii.eqb_eq in Hc. subst c.
    destruct b; [discriminate |]. now rewrite (IH true Hr).
  - now rewrite (IH false H).
Qed.

Lemma sanitize_singleLine (content : string) : singleLine (sanitize content) = true.
Proof.
  unfold sanitize. rewrite collapseWhiteSpace_collapse.
  assert (H : singleLine (collapse false (trim (stripFences (trim content)))) = true)
    by (apply singleLine_collapse; [apply trim_head | apply trim_last]).
  now rewrite (singleLine_trim _ H).
Qed.

Lemma singleSpaced_inv (a : string) (x : ascii) (b : string) :
  forall afterSpace pv,
    (afterSpace = match pv with Some c => isWhiteSpace c | None => true end) ->
    singleSpaced afterSpace (a +:+ String x b) = true ->
    isWhiteSpace x = true ->
    x = " "%char /\
    match lastChar pv a with Some y => isWhiteSpace y = false | None => False end /\
    match peek b with Some z => isWhiteSpace z = false | None => False end.
Proof.
  induction a as [| c a IH]; intros afterSpace pv Hpv H Hx.
  - rewrite append_nil_l in H. cbn [singleSpaced] in H. rewrite Hx in H.
    apply andb_true_iff in H. destruct H as [H Hb].
    apply andb_true_iff in H. destruct H as [Hc Ha].
    apply Ascii.eqb_eq in Hc. split; [exact Hc |]. split.
    + simpl. destruct pv as [y |]; subst afterSpace; [| discriminate].
      now destruct (isWhiteSpace y).
    + destruct b as [| z b']; [discriminate |]. simpl in *.
      destruct (isWhiteSpace z); [| reflexivity]. now rewrite andb_false_r in Hb.
  - rewrite append_cons in H. cbn [singleSpaced] in H. cbn [lastChar].
    apply (IH (isWhiteSpace c) (Some c) eq_refl); [| exact Hx].
    destruct (isWhiteSpace c); [| exact H].
    apply andb_true_iff in H. apply H.
Qed.

(** X1 [nodeGenerateSQL], sanitation: whatever the model replies, the
    sanitised text is a single line.  It has no white space at either end,
    and each white-space code unit in it is a space with a code unit that is
    not white space on either side: no line feed, no tab, no run of
    spaces is left. *)
Theorem sanitized_sql_is_one_line (content : string) :
  trim (sanitize content) = sanitize content /\
  forall (a : string) (x : ascii) (b : string),
    sanitize content = a +:+ String x b ->
    isWhiteSpace x = true ->
    x = " "%char /\
    match lastChar None a with Some y => isWhiteSpace y = false | None => False end /\
    match peek b with Some z => isWhiteSpace z = false | None => False end.
Proof.
  pose proof (sanitize_singleLine content) as H. split.
  - now apply singleLine_trim.
  - intros a x b E Hx. rewrite E in H.
    apply (singleSpaced_inv a x b true None eq_refl); [| exact Hx].
    unfold singleLine in H.
    destruct (a +:+ String x b) eqn:Eab; [| exact H].
    destruct a; discriminate.
Qed.

(** ** Fences *)

Lemma dropCloseFence_eq (s : string) :
  dropCloseFence s =
  if String.eqb s fence then EmptyString
  else match s with
       | EmptyString => EmptyString
       | String c r => String c (dropCloseFence r)
       end.
Proof. destruct s; reflexivity. Qed.

Lemma dropCloseFence_fence (x : string) : dropCloseFence (x +:+ fence) = x.
Proof.
  induction x as [| c r IH].
  - reflexivity.
  - rewrite append_cons, dropCloseFence_eq.
    destruct (String.eqb (String c (r +:+ fence)) fence) eqn:E.
    + apply String.eqb_eq in E. apply (f_equal String.length) in E.
      simpl in E. rewrite length_append in E. simpl in E. lia.
    + now rewrite IH.
Qed.

Lemma dropCloseFence_none (t : string) :
  allChars (fun c => negb (Ascii.eqb c backtick)) t = true -> dropCloseFence t = t.
Proof.
  induction t as [| c r IH]; intros H; [reflexivity |].
  rewrite dropCloseFence_eq.
  destruct (String.eqb (String c r) fence) eqn:E.
  - apply String.eqb_eq in E. rewrite E in H. discriminate.
  - simpl in H. apply andb_true_iff in H. now rewrite (IH (proj2 H)).
Qed.

Lemma dropOpenFence_none (t : string) :
  allChars (fun c => negb (Ascii.eqb c backtick)) t = true -> dropOpenFence t = t.
Proof.
  intros H. unfold dropOpenFence.
  destruct t as [| c r]; [reflexivity |].
  simpl in H. apply andb_true_iff in H. destruct H as [Hc _].
  apply negb_true_iff, Ascii.eqb_neq in Hc.
  unfold fence. cbn [prefix]. destruct (ascii_dec backtick c) as [E | _]; [| reflexivity].
  now elim Hc.
Qed.

Lemma dropLetters_run (lang rest : string) :
  allChars isLetter lang = true ->
  match rest with String c _ => isLetter c = false | EmptyString => True end ->
  dropLetters (lang +:+ rest) = rest.
Proof.
  intros Hl Hr. induction lang as [| c l IH].
  - rewrite append_nil_l. destruct rest as [| c r]; simpl; [reflexivity |]. now rewrite Hr.
  - simpl in Hl. apply andb_true_iff in Hl. destruct Hl as [Hc Hl].
    rewrite append_cons. simpl. rewrite Hc. now apply IH.
Qed.

(** ** [trim] on text with white space after it *)

Lemma trimEnd_blank (w : string) : allChars isWhiteSpace w = true -> trimEnd w = "".
Proof.
  induction w as [| c r IH]; intros H; [reflexivity |].
  simpl in H. apply andb_true_iff in H. destruct H as [Hc Hr].
  simpl. now rewrite (IH Hr), Hc.
Qed.

Lemma dropSpaces_all (w : string) : allChars isWhiteSpace w = true -> dropSpaces w = "".
Proof.
  induction w as [| c r IH]; intros H; [reflexivity |].
  simpl in H. apply andb_true_iff in H. destruct H as [Hc Hr].
  simpl. now rewrite Hc, (IH Hr).
Qed.

Lemma trimEnd_app_blank (s w : string) :
  allChars isWhiteSpace w = true -> trimEnd (s +:+ w) = trimEnd s.
Proof.
  intros Hw. induction s as [| c r IH].
  - rewrite append_nil_l. now apply trimEnd_blank.
  - rewrite append_cons. cbn [trimEnd]. now rewrite IH.
Qed.

Lemma trim_app_blank (s w : string) :
  allChars isWhiteSpace w = true -> trim (s +:+ w) = trim s.
Proof.
  intros Hw. unfold trim. induction s as [| c r IH].
  - rewrite append_nil_l. now rewrite (dropSpaces_all w Hw).
  - rewrite append_cons. cbn [dropSpaces]. destruct (isWhiteSpace c); [exact IH |].
    rewrite <- append_cons. now apply trimEnd_app_blank.
Qed.

Lemma trimEnd_id (s : string) :
  forall pv, spaceOpt (lastChar pv s) = false -> trimEnd s = s.
Proof.
  induction s as [| c r IH]; intros pv H; [reflexivity |].
  cbn [lastChar] in H. cbn [trimEnd]. rewrite (IH _ H).
  destruct r as [| d r']; [| reflexivity]. simpl in H. now rewrite H.
Qed.

Lemma allChars_dropSpaces (p : ascii -> bool) (s : string) :
  allChars p s = true -> allChars p (dropSpaces s) = true.
Proof.
  induction s as [| c r IH]; intros H; [reflexivity |].
  simpl. destruct (isWhiteSpace c); [| exact H].
  simpl in H. apply andb_true_iff in H. now apply IH.
Qed.

Lemma allChars_trimEnd (p : ascii -> bool) (s : string) :
  allChars p s = true -> allChars p (trimEnd s) = true.
Proof.
  induction s as [| c r IH]; intros H; [reflexivity |].
  simpl in H. apply andb_true_iff in H. destruct H as [Hc Hr].
  cbn [trimEnd]. specialize (IH Hr). destruct (trimEnd r) as [| d t].
  - destruct (isWhiteSpace c); [reflexivity |]. simpl. now rewrite Hc.
  - cbn [allChars] in *. now rewrite Hc.
Qed.

Lemma allChars_trim (p : ascii -> bool) (s : string) :
  allChars p s = true -> allChars p (trim s) = true.
Proof. intros H. now apply allChars_trimEnd, allChars_dropSpaces. Qed.

Lemma singleLine_collapse_id (s : string) : singleLine s = true -> collapse false s = s.
Proof.
  destruct s as [| c r]; [reflexivity |]. unfold singleLine. intros H.
  cbn [singleSpaced] in H. cbn [collapse].
  destruct (isWhiteSpace c).
  - now rewrite andb_false_r in H.
  - now rewrite (singleSpaced_collapse_id r false H).
Qed.

(** What the sanitation makes of a reply in a fence. *)
Lemma sanitize_fenced (lang inner : string) :
  allChars isLetter lang = true ->
  sanitize (fence +:+ lang +:+ nl +:+ inner +:+ fence) =
  trim (collapseWhiteSpace (trim inner)).
Proof.
  intros Hl. unfold sanitize.
  assert (Ht : trim (fence +:+ lang +:+ nl +:+ inner +:+ fence) =
               fence +:+ lang +:+ nl +:+ inner +:+ fence).
  { unfold trim.
    change (fence +:+ lang +:+ nl +:+ inner +:+ fence) with
      (String backtick (String backtick (String backtick
         (lang +:+ nl +:+ inner +:+ fence)))) at 1.
    cbn [dropSpaces]. change (isWhiteSpace backtick) with false. cbv iota.
    apply (trimEnd_id _ None).
    change (String backtick (String backtick (String backtick
              (lang +:+ nl +:+ inner +:+ fence))))
      with (fence +:+ lang +:+ nl +:+ inner +:+ fence).
    now rewrite !lastChar_append. }
  rewrite Ht. f_equal. f_equal. f_equal.
  unfold stripFences, dropOpenFence.
  rewrite prefix_append.
  change 3 with (String.length fence). rewrite skipn_append.
  rewrite (dropLetters_run lang (nl +:+ inner +:+ fence) Hl) by reflexivity.
  change (dropNewline (nl +:+ inner +:+ fence)) with (inner +:+ fence).
  apply dropCloseFence_fence.
Qed.

Lemma dropSpaces_blank_app (w s : string) :
  allChars isWhiteSpace w = true -> dropSpaces (w +:+ s) = dropSpaces s.
Proof.
  intros Hw. induction w as [| c r IH]; [now rewrite append_nil_l |].
  simpl in Hw. apply andb_true_iff in Hw. destruct Hw as [Hc Hr].
  rewrite append_cons. simpl. rewrite Hc. now apply IH.
Qed.

Lemma trim_around (w1 s w2 : string) :
  allChars isWhiteSpace w1 = true -> allChars isWhiteSpace w2 = true ->
  trim (w1 +:+ s +:+ w2) = trim s.
Proof.
  intros H1 H2. rewrite <- (trim_app_blank s w2 H2). unfold trim.
  now rewrite dropSpaces_blank_app.
Qed.

Lemma trim_idem (s : string) : trim (trim s) = trim s.
Proof.
  unfold trim at 1.
  assert (Hd : dropSpaces (trim s) = trim s).
  { pose proof (trim_head s) as H. destruct (trim s) as [| c r]; [reflexivity |].
    simpl. now rewrite H. }
  rewrite Hd. apply (trimEnd_id _ None), trim_last.
Qed.

Lemma sanitize_around (w1 s w2 : string) :
  allChars isWhiteSpace w1 = true -> allChars isWhiteSpace w2 = true ->
  sanitize (w1 +:+ s +:+ w2) = sanitize s.
Proof. intros H1 H2. unfold sanitize. now rewrite trim_around. Qed.

Lemma sanitize_plain (text : string) :
  allChars (fun c => negb (Ascii.eqb c backtick)) text = true ->
  sanitize text = trim (collapseWhiteSpace (trim text)).
Proof.
  intros H. unfold sanitize, stripFences.
  rewrite (dropOpenFence_none (trim text)) by now apply allChars_trim.
  rewrite (dropCloseFence_none (trim text)) by now apply allChars_trim.
  now rewrite trim_idem.
Qed.

(** X2 [nodeGenerateSQL], sanitation: a reply wrapped in a Markdown fence
    gives the same SQL as the bare reply.  The fence may carry a language
    tag made of letters and may have white space around it; the text
    inside is any text without a backtick. *)
Theorem fenced_reply_same_as_bare (w1 lang inner w2 : string) :
  allChars isWhiteSpace w1 = true ->
  allChars isLetter lang = true ->
  allChars (fun c => negb (Ascii.eqb c backtick)) inner = true ->
  allChars isWhiteSpace w2 = true ->
  sanitize (w1 +:+ (fence +:+ lang +:+ nl +:+ inner +:+ nl +:+ fence) +:+ w2) =
  sanitize inner.
Proof.
  intros H1 Hl Hi H2. rewrite (sanitize_around _ _ _ H1 H2).
  replace (fence +:+ lang +:+ nl +:+ inner +:+ nl +:+ fence)
    with (fence +:+ lang +:+ nl +:+ (inner +:+ nl) +:+ fence)
    by now rewrite <- (append_assoc inner nl fence).
  rewrite (sanitize_fenced lang (inner +:+ nl) Hl).
  rewrite (trim_app_blank inner nl eq_refl).
  now rewrite (sanitize_plain inner Hi).
Qed.

Lemma fenced_reply_same_as_bare_witness :
  sanitize (nl +:+ (fence +:+ "sql" +:+ nl +:+ "SELECT  1" +:+ nl +:+ fence) +:+ nl) =
  sanitize "SELECT  1".
Proof.
  apply (fenced_reply_same_as_bare nl "sql" "SELECT  1" nl); reflexivity.
Defined.

(** X3 [RagController.ask] and [nodeGenerateSQL]: the Markdown body the
    controller sends for a single-line SQL text is read back by the
    sanitation as that same text: the fence labelled sql and the line
    feeds around the text are all that is removed. *)
Theorem markdown_body_read_back (sqlText : string) :
  singleLine sqlText = true ->
  sanitize (mdBody sqlText) = sqlText.
Proof.
  intros H. unfold mdBody.
  replace (fence +:+ "sql" +:+ nl +:+ sqlText +:+ nl +:+ fence +:+ nl)
    with ("" +:+ (fence +:+ "sql" +:+ nl +:+ (sqlText +:+ nl) +:+ fence) +:+ nl).
  2: { rewrite append_nil_l. rewrite <- !append_assoc. reflexivity. }
  rewrite (sanitize_around "" _ nl eq_refl eq_refl).
  rewrite (sanitize_fenced "sql" (sqlText +:+ nl) eq_refl).
  rewrite (trim_app_blank sqlText nl eq_refl).
  rewrite (singleLine_trim _ H), collapseWhiteSpace_collapse.
  rewrite (singleLine_collapse_id _ H). now apply singleLine_trim.
Qed.

Lemma markdown_body_read_back_witness :
  sanitize (mdBody ("SELECT * FROM " +:+ quoted "public" +:+ "." +:+ quoted "producto")) =
  "SELECT * FROM " +:+ quoted "public" +:+ "." +:+ quoted "producto".
Proof.
  apply (markdown_body_read_back
           ("SELECT * FROM " +:+ quoted "public" +:+ "." +:+ quoted "producto")).
  reflexivity.
Defined.

(** X4 [nodeGenerateSQL], sanitation: an SQL text that is already a
    single line and holds no backtick goes through the sanitation
    unchanged. *)
Theorem clean_sql_is_unchanged (sqlText : string) :
  singleLine sqlText = true ->
  allChars (fun c => negb (Ascii.eqb c backtick)) sqlText = true ->
  sanitize sqlText = sqlText.
Proof.
  intros H Hb. rewrite (sanitize_plain sqlText Hb).
  rewrite (singleLine_trim _ H), collapseWhiteSpace_collapse.
  rewrite (singleLine_collapse_id _ H). now apply singleLine_trim.
Qed.

Lemma clean_sql_is_unchanged_witness :
  sanitize "SELECT COUNT(*) FROM public.producto" = "SELECT COUNT(*) FROM public.producto".
Proof.
  apply (clean_sql_is_unchanged "SELECT COUNT(*) FROM public.producto"); reflexivity.
Defined.

(** * The nodes, call by call *)

Lemma loadDatabaseSchema_cases (db : Database) (log : list Event) :
  loadDatabaseSchema db log =
  match connect db log with
  | Some e => (Thrown e, log ++ [Connect])
  | None =>
      match query db (log ++ [Connect]) catalogQuery with
      | inl e => (Thrown e, log ++ [Connect; Query catalogQuery; Release])
      | inr tablesRes =>
          (Returned (join nl (List.map tableLine (groupColumns tablesRes)),
                     List.map fst (groupColumns tablesRes)),
           log ++ [Connect; Query catalogQuery; Release])
      end
  end.
Proof.
  unfold loadDatabaseSchema, bind, pool_connect, tryFinally, client_query,
    client_release, ret.
  destruct (connect db log); [reflexivity |].
  destruct (query db (log ++ [Connect]) catalogQuery);
    now rewrite <- !app_assoc.
Qed.

Lemma nodeIntrospect_cases (db : Database) (log : list Event) :
  nodeIntrospect db log =
  match connect db log with
  | Some e => (Thrown e, log ++ [Connect])
  | None =>
      match query db (log ++ [Connect]) catalogQuery with
      | inl e => (Thrown e, log ++ [Connect; Query catalogQuery; Release])
      | inr tablesRes =>
          (Returned (schemaAndTables
                       (join nl (List.map tableLine (groupColumns tablesRes)))
                       (List.map fst (groupColumns tablesRes))),
           log ++ [Connect; Query catalogQuery; Release])
      end
  end.
Proof.
  unfold nodeIntrospect, bind. rewrite loadDatabaseSchema_cases.
  destruct (connect db log); [reflexivity |].
  destruct (query db (log ++ [Connect]) catalogQuery); reflexivity.
Qed.

(** The text [nodeGenerateSQL] goes on with, from the model's reply. *)
Lemma nodeGenerateSQL_cases (removePattern : string -> string -> JsError + string)
    (llm : Llm) (q text : string) (allowed : list string) (log : list Event) :
  nodeGenerateSQL removePattern llm q text allowed log =
  match invoke llm log generateSystem (generatePrompt text allowed q) with
  | inl e => (Thrown e, log ++ [Complete generateSystem (generatePrompt text allowed q)])
  | inr content =>
      let s := qualifySqlTables (sanitize (contentText content)) allowed in
      let v := validateSqlTables s allowed in
      (if negb (ok v) then
         Returned (sqlAnswerError s
           (if noneFound v
            then "SQL must reference at least one fully-qualified table from: " +:+
                 join ", " allowed +:+ ". Use schema.table names."
            else "SQL references unknown tables: " +:+ join ", " (unknown v) +:+
                 ". Allowed tables: " +:+ join ", " allowed) "UNKNOWN_TABLES")
       else
         match foundTables v with
         | [table] =>
             match removePattern (qualifierPattern table) s with
             | inr clean => Returned (sqlAndClean s clean)
             | inl e => Thrown e
             end
         | _ => Returned (sqlAndClean s s)
         end,
       log ++ [Complete generateSystem (generatePrompt text allowed q)])
  end.
Proof.
  unfold nodeGenerateSQL, bind, llm_invoke.
  destruct (invoke llm log generateSystem (generatePrompt text allowed q)) as [e | content];
    [reflexivity |].
  cbv zeta.
  destruct (negb (ok _)); [reflexivity |].
  destruct (foundTables _) as [| table [| t2 l]]; try reflexivity.
  destruct (removePattern _ _); reflexivity.
Qed.

Lemma nodeExecuteSQL_blocked (db : Database) (s : string) (allowed : list string)
    (log : list Event) :
  ok (validateSqlTables s allowed) = false ->
  nodeExecuteSQL db s allowed log =
  (Returned (rowsAndAnswer [] (Some (blockedMessage (validateSqlTables s allowed)))), log).
Proof. intros H. unfold nodeExecuteSQL. now rewrite H. Qed.

Lemma nodeExecuteSQL_trace (db : Database) (s : string) (allowed : list string)
    (log : list Event) :
  ok (validateSqlTables s allowed) = true ->
  (exists e, connect db log = Some e /\
             nodeExecuteSQL db s allowed log = (Thrown e, log ++ [Connect])) \/
  (connect db log = None /\
   exists rs a,
     (nodeExecuteSQL db s allowed log =
        (Returned (rowsAndAnswer rs a), log ++ [Connect; Query s; Release]) \/
      exists table,
        In table (foundTables (validateSqlTables s allowed)) /\
        query db (log ++ [Connect]) s = inr [] /\
        nodeExecuteSQL db s allowed log =
          (Returned (rowsAndAnswer rs a),
           log ++ [Connect; Query s; Query (countQuery table); Release]))).
Proof.
  intros Hok. unfold nodeExecuteSQL. rewrite Hok. cbn [negb].
  unfold bind, pool_connect, tryFinally, tryCatch, client_query, client_release, ret.
  destruct (connect db log) as [e |]; [left; eauto |].
  right. split; [reflexivity |].
  destruct (query db (log ++ [Connect]) s) as [e | [| row others]].
  - eexists _, _. left; rewrite <- !app_assoc; reflexivity.
  - destruct (foundTables (validateSqlTables s allowed)) as [| first l] eqn:Ef.
    + eexists _, _. left; rewrite <- !app_assoc; reflexivity.
    + destruct (truthy first).
      * fold (countQuery first).
        destruct (query db ((log ++ [Connect]) ++ [Query s]) (countQuery first)).
        -- eexists _, _. right; exists first; split; [now left |]; split;
             [reflexivity | rewrite <- !app_assoc; reflexivity].
        -- eexists _, _. right; exists first; split; [now left |]; split;
             [reflexivity | rewrite <- !app_assoc; reflexivity].
      * eexists _, _. left; rewrite <- !app_assoc; reflexivity.
  - eexists _, _. left; rewrite <- !app_assoc; reflexivity.
Qed.

Lemma truthy_ne (s : string) : truthy s = true -> s <> "".
Proof. intros H ->. discriminate. Qed.

Lemma nodeAnswer_trace (JSON_stringify : list Row -> string)
    (answerMessages : State -> string * string) (apiKey : option string)
    (llm : Llm) (state : State) (log : list Event) :
  exists trace,
    (if hasKey apiKey then exists s u, trace = [Complete s u] else trace = []) /\
    ((exists e, nodeAnswer JSON_stringify answerMessages apiKey llm state log =
                (Thrown e, log ++ trace)) \/
     (exists a, a <> "" /\
                nodeAnswer JSON_stringify answerMessages apiKey llm state log =
                (Returned (answerOnly a), log ++ trace))).
Proof.
  unfold nodeAnswer. destruct (hasKey apiKey); cbn [negb].
  - exists [Complete (fst (answerMessages state)) (snd (answerMessages state))].
    split; [eauto |]. unfold bind, llm_invoke.
    destruct (invoke llm log _ _) as [e | content]; [left; eauto |].
    right. unfold ret. eexists. split; [| reflexivity].
    destruct (truthy (trim (contentText content))) eqn:Et; [now apply truthy_ne |].
    destruct (answer state) as [p |]; [| discriminate].
    destruct (truthy p) eqn:Ep; [now apply truthy_ne | discriminate].
  - exists []. split; [reflexivity |]. right. unfold ret. rewrite app_nil_r.
    eexists. split; [| reflexivity].
    unfold notBlank. destruct (answer state) as [p |].
    + destruct (truthy p) eqn:Ep; cbn [andb].
      * destruct (Nat.ltb 0 (String.length (trim p))).
        -- cbn [tmpl]. rewrite Ep. cbn [negb]. now apply truthy_ne.
        -- cbn [truthy String.eqb negb].
           destruct (rows state) as [[| row others] |]; discriminate.
      * cbn [truthy String.eqb negb].
        destruct (rows state) as [[| row others] |]; discriminate.
    + cbn [truthy String.eqb negb].
      destruct (rows state) as [[| row others] |]; discriminate.
Qed.

(** * The graph *)

Ltac state_simpl :=
  cbn [ret mergeState orElse initialState schemaAndTables sqlAnswerError sqlAndClean
         rowsAndAnswer answerOnly question schema allowedTables sql sqlClean rows
         answer error tmpl tablesOf].

Section Runs.

Variable removePattern : string -> string -> JsError + string.
Variable JSON_stringify : list Row -> string.
Variable answerMessages : State -> string * string.

Local Abbreviation run := (runSqlAgent removePattern JSON_stringify answerMessages).

Lemma run_db_down (apiKey : option string) (db : Database) (llm : Llm) (q : string)
    (log : list Event) (e : JsError) :
  connect db log = Some e ->
  run apiKey db llm q log = (Thrown e, log ++ [Connect]).
Proof.
  intros H. unfold runSqlAgent, runNode, bind.
  now rewrite nodeIntrospect_cases, H.
Qed.

Lemma run_catalog_fails (apiKey : option string) (db : Database) (llm : Llm)
    (q : string) (log : list Event) (e : JsError) :
  connect db log = None ->
  query db (log ++ [Connect]) catalogQuery = inl e ->
  run apiKey db llm q log = (Thrown e, log ++ [Connect; Query catalogQuery; Release]).
Proof.
  intros Hc Hq. unfold runSqlAgent, runNode, bind.
  now rewrite nodeIntrospect_cases, Hc, Hq.
Qed.

(** Every run, classified by how far it gets. *)
Lemma run_trace (apiKey : option string) (db : Database) (llm : Llm) (q : string)
    (log : list Event) :
  exists o trace, run apiKey db llm q log = (o, log ++ trace) /\
    (forall st, o = Returned st ->
       question st = Some q /\ (exists s, sql st = Some s) /\ rows st <> None /\
       exists a, answer st = Some a /\ a <> "") /\
    ((exists e, connect db log = Some e) /\ trace = [Connect] \/
     (exists e, query db (log ++ [Connect]) catalogQuery = inl e) /\
       trace = [Connect; Query catalogQuery; Release] \/
     exists tablesRes gen,
       connect db log = None /\
       query db (log ++ [Connect]) catalogQuery = inr tablesRes /\
       (exists user, gen = Complete generateSystem user) /\
       (trace = [Connect; Query catalogQuery; Release; gen] \/
        exists s mid ans,
          trace = [Connect; Query catalogQuery; Release; gen] ++ mid ++ ans /\
          (mid = [] \/
           ok (validateSqlTables s (List.map fst (groupColumns tablesRes))) = true /\
           (mid = [Connect] /\ ans = [] \/
            mid = [Connect; Query s; Release] \/
            exists table,
              In table (foundTables
                          (validateSqlTables s (List.map fst (groupColumns tablesRes)))) /\
              mid = [Connect; Query s; Query (countQuery table); Release])) /\
          (ans = [] \/ exists system user, ans = [Complete system user]))).
Proof.
  unfold runSqlAgent, runNode, bind. rewrite nodeIntrospect_cases.
  destruct (connect db log) as [e |] eqn:Ec.
  { exists (Thrown e), [Connect]. split; [reflexivity |].
    split; [discriminate | left; eauto]. }
  destruct (query db (log ++ [Connect]) catalogQuery) as [e | tablesRes] eqn:Eq.
  { eexists _, _. split; [reflexivity |]. split; [discriminate | right; left; eauto]. }
  unfold ret at 1.
  rewrite nodeGenerateSQL_cases.
  set (tables := List.map fst (groupColumns tablesRes)).
  set (text := join nl (List.map tableLine (groupColumns tablesRes))).
  state_simpl.
  set (gen := Complete generateSystem (generatePrompt text tables q)).
  destruct (invoke llm _ generateSystem _) as [e | content].
  { eexists _, _. split; [rewrite <- app_assoc; reflexivity |].
    split; [discriminate |].
    right; right. exists tablesRes, gen. split; [reflexivity |]. split; [reflexivity |].
    split; [eexists; reflexivity | now left]. }
  cbv zeta.
  set (s := qualifySqlTables (sanitize (contentText content)) tables).
  set (log1 := (log ++ [Connect; Query catalogQuery; Release]) ++ [gen]).
  assert (Hans : forall state log2, exists ans o,
            (ans = [] \/ exists system user, ans = [Complete system user]) /\
            nodeAnswer JSON_stringify answerMessages apiKey llm state log2 =
              (o, log2 ++ ans) /\
            forall u, o = Returned u -> exists a, u = answerOnly a /\ a <> "").
  { intros state log2.
    destruct (nodeAnswer_trace JSON_stringify answerMessages apiKey llm state log2)
      as [ans [Hans [[e E] | [a [Ha E]]]]]; exists ans; eexists;
      (split; [destruct (hasKey apiKey); [right; exact Hans | left; exact Hans] |]);
      (split; [exact E |]); intros u [= <-]; eauto. }
  destruct (ok (validateSqlTables s tables)) eqn:Eok; cbn [negb].
  - set (g := match foundTables (validateSqlTables s tables) with
              | [table] => _ | _ => _ end).
    assert (Hg : (exists e, g = Thrown e) \/ exists clean, g = Returned (sqlAndClean s clean)).
    { subst g. destruct (foundTables _) as [| table [| t2 l]]; eauto.
      destruct (removePattern _ _); eauto. }
    destruct Hg as [[e ->] | [clean ->]].
    { eexists _, _. split; [subst log1; rewrite <- app_assoc; reflexivity |].
      split; [discriminate |].
      right; right. exists tablesRes, gen. split; [reflexivity |]. split; [reflexivity |].
      split; [eexists; reflexivity | now left]. }
    state_simpl.
    destruct (nodeExecuteSQL_trace db s tables log1 Eok)
      as [[e [Hc E]] | [Hc [rs [ea [E | [table [Hin [HQ E]]]]]]]]; rewrite E.
    + eexists _, _. split; [subst log1; rewrite <- !app_assoc; reflexivity |].
      split; [discriminate |].
      right; right. exists tablesRes, gen. split; [reflexivity |]. split; [reflexivity |].
      split; [eexists; reflexivity |]. right. exists s, [Connect], [].
      split; [reflexivity |]. split; [right; split; [exact Eok | left; now split] | now left].
    + state_simpl.
      match goal with |- context [nodeAnswer _ _ _ _ ?st0 ?l2] =>
        set (state := st0); set (log2 := l2);
        destruct (Hans state log2) as [ans [o [Ha [E2 Ho]]]]; rewrite E2 end.
      assert (Hout : exists o',
                match o with
                | Returned a => ret (mergeState state a) (log2 ++ ans)
                | Thrown e => (Thrown e, log2 ++ ans)
                end = (o', log2 ++ ans) /\
                forall st', o' = Returned st' ->
                  exists a, st' = mergeState state (answerOnly a) /\ a <> "").
      { destruct o as [u |]; eexists; (split; [reflexivity |]); [| discriminate].
        intros st' [= <-]. destruct (Ho u eq_refl) as [a [-> Hne]]. eauto. }
      destruct Hout as [o' [-> Ho']]. subst state log2.
      exists o'. eexists. split; [subst log1; rewrite <- !app_assoc; reflexivity |].
      split.
      { intros st' Est. destruct (Ho' st' Est) as [a [-> Hne]].
        state_simpl. split; [reflexivity |]. split; [eauto |].
        split; [discriminate | eauto]. }
      right; right. exists tablesRes, gen. split; [reflexivity |]. split; [reflexivity |].
      split; [eexists; reflexivity |]. right.
      exists s, [Connect; Query s; Release], ans.
      split; [reflexivity |]. split; [right; split; [exact Eok | right; now left] | exact Ha].
    + state_simpl.
      match goal with |- context [nodeAnswer _ _ _ _ ?st0 ?l2] =>
        set (state := st0); set (log2 := l2);
        destruct (Hans state log2) as [ans [o [Ha [E2 Ho]]]]; rewrite E2 end.
      assert (Hout : exists o',
                match o with
                | Returned a => ret (mergeState state a) (log2 ++ ans)
                | Thrown e => (Thrown e, log2 ++ ans)
                end = (o', log2 ++ ans) /\
                forall st', o' = Returned st' ->
                  exists a, st' = mergeState state (answerOnly a) /\ a <> "").
      { destruct o as [u |]; eexists; (split; [reflexivity |]); [| discriminate].
        intros st' [= <-]. destruct (Ho u eq_refl) as [a [-> Hne]]. eauto. }
      destruct Hout as [o' [-> Ho']]. subst state log2.
      exists o'. eexists. split; [subst log1; rewrite <- !app_assoc; reflexivity |].
      split.
      { intros st' Est. destruct (Ho' st' Est) as [a [-> Hne]].
        state_simpl. split; [reflexivity |]. split; [eauto |].
        split; [discriminate | eauto]. }
      right; right. exists tablesRes, gen. split; [reflexivity |]. split; [reflexivity |].
      split; [eexists; reflexivity |]. right.
      exists s, [Connect; Query s; Query (countQuery table); Release], ans.
      split; [reflexivity |].
      split; [right; split; [exact Eok | right; right; exists table; now split] | exact Ha].
  - state_simpl. rewrite (nodeExecuteSQL_blocked db s tables log1 Eok).
    state_simpl.
    match goal with |- context [nodeAnswer _ _ _ _ ?st0 ?l2] =>
      set (state := st0); set (log2 := l2);
      destruct (Hans state log2) as [ans [o [Ha [E2 Ho]]]]; rewrite E2 end.
    assert (Hout : exists o',
              match o with
              | Returned a => ret (mergeState state a) (log2 ++ ans)
              | Thrown e => (Thrown e, log2 ++ ans)
              end = (o', log2 ++ ans) /\
              forall st', o' = Returned st' ->
                exists a, st' = mergeState state (answerOnly a) /\ a <> "").
    { destruct o as [u |]; eexists; (split; [reflexivity |]); [| discriminate].
      intros st' [= <-]. destruct (Ho u eq_refl) as [a [-> Hne]]. eauto. }
    destruct Hout as [o' [-> Ho']]. subst state log2.
    exists o'. eexists. split; [subst log1; rewrite <- !app_assoc; reflexivity |].
    split.
    { intros st' Est. destruct (Ho' st' Est) as [a [-> Hne]].
      state_simpl. split; [reflexivity |]. split; [eauto |].
      split; [discriminate | eauto]. }
    right; right. exists tablesRes, gen. split; [reflexivity |]. split; [reflexivity |].
    split; [eexists; reflexivity |]. right. exists s, [], ans.
    split; [reflexivity |]. split; [now left | exact Ha].
Qed.

End Runs.

(** X5 [runSqlAgent]: whatever the database and the model answer, the
    calls of a run follow the pool protocol.  A query is only sent on a
    client obtained before; a client that has served a query is released
    before the next call of another kind; the model is never called while
    a client is held; no serving client is left at the end. *)
Theorem run_follows_protocol (removePattern : string -> string -> JsError + string)
    (JSON_stringify : list Row -> string) (answerMessages : State -> string * string)
    (apiKey : option string) (db : Database) (llm : Llm) (q : string)
    (log : list Event) :
  exists trace,
    snd (runSqlAgent removePattern JSON_stringify answerMessages apiKey db llm q log) =
      log ++ trace /\
    protocol Idle trace = true.
Proof.
  destruct (run_trace removePattern JSON_stringify answerMessages apiKey db llm q log)
    as (o & trace & E & _ & H).
  exists trace. rewrite E. split; [reflexivity |].
  destruct H as [[_ ->] | [[_ ->] | (tablesRes & gen & _ & _ & [user ->] & H)]];
    try reflexivity.
  destruct H as [-> | (s & mid & ans & -> & Hmid & Hans)]; [reflexivity |].
  destruct Hans as [-> | (system & u & ->)];
    destruct Hmid as [-> | [_ [[-> Ha] | [-> | (table & _ & ->)]]]];
    try reflexivity; discriminate.
Qed.

(** X6 [runSqlAgent]: after the catalogue query, no text reaches the
    database unless [validateSqlTables] accepts it against the tables
    the catalogue gave; the one other query is the row count of a table
    found in such a text. *)
Theorem only_validated_sql_is_executed
    (removePattern : string -> string -> JsError + string)
    (JSON_stringify : list Row -> string) (answerMessages : State -> string * string)
    (apiKey : option string) (db : Database) (llm : Llm) (q : string)
    (log : list Event) (tablesRes : list Row) :
  connect db log = None ->
  query db (log ++ [Connect]) catalogQuery = inr tablesRes ->
  exists trace,
    snd (runSqlAgent removePattern JSON_stringify answerMessages apiKey db llm q log) =
      log ++ [Connect; Query catalogQuery; Release] ++ trace /\
    forall text, In (Query text) trace ->
      ok (validateSqlTables text (List.map fst (groupColumns tablesRes))) = true \/
      exists s table,
        ok (validateSqlTables s (List.map fst (groupColumns tablesRes))) = true /\
        In table (foundTables
                    (validateSqlTables s (List.map fst (groupColumns tablesRes)))) /\
        text = countQuery table.
Proof.
  intros Hc Hq.
  destruct (run_trace removePattern JSON_stringify answerMessages apiKey db llm q log)
    as (o & trace & E & _ & H).
  rewrite E. cbn [snd].
  destruct H as [[[e He] _] | [[[e He] _] | (rows' & gen & _ & Hq' & [user ->] & H)]];
    [congruence | congruence |].
  rewrite Hq in Hq'. injection Hq' as <-.
  assert (Hno : forall text system u, ~ In (Query text) [Complete system u])
    by (intros text system u [F | []]; discriminate).
  destruct H as [-> | (s & mid & ans & -> & Hmid & Hans)].
  { eexists. split; [reflexivity |]. intros text Hin. now apply Hno in Hin. }
  exists ([Complete generateSystem user] ++ mid ++ ans). split; [reflexivity |].
  intros text Hin. apply in_app_or in Hin. destruct Hin as [Hin | Hin];
    [now apply Hno in Hin |].
  apply in_app_or in Hin. destruct Hin as [Hin | Hin].
  - destruct Hmid as [-> | [Hok [[-> _] | [-> | (table & Ht & ->)]]]].
    + destruct Hin.
    + destruct Hin as [F | []]. discriminate.
    + destruct Hin as [F | [F | [F | []]]]; try discriminate.
      injection F as <-. now left.
    + destruct Hin as [F | [F | [F | [F | []]]]]; try discriminate.
      * injection F as <-. now left.
      * injection F as <-. right. exists s, table. auto.
  - destruct Hans as [-> | (system & u & ->)]; [destruct Hin | now apply Hno in Hin].
Qed.

Lemma only_validated_sql_is_executed_witness :
  exists trace,
    snd (runSqlAgent removeNothing jsonOfRows someMessages None dbShop
           (llmReplying "SELECT nombre FROM producto") "productos" []) =
      [] ++ [Connect; Query catalogQuery; Release] ++ trace /\
    forall text, In (Query text) trace ->
      ok (validateSqlTables text (List.map fst (groupColumns shopCatalog))) = true \/
      exists s table,
        ok (validateSqlTables s (List.map fst (groupColumns shopCatalog))) = true /\
        In table (foundTables
                    (validateSqlTables s (List.map fst (groupColumns shopCatalog)))) /\
        text = countQuery table.
Proof.
  apply (only_validated_sql_is_executed removeNothing jsonOfRows someMessages None
           dbShop (llmReplying "SELECT nombre FROM producto") "productos" []
           shopCatalog); reflexivity.
Defined.

(** X7 [runSqlAgent], [loadDatabaseSchema]: a failure of the database
    during introspection ends the run with that error, and the model is
    not called.  When no client can be obtained nothing else happens; when
    the catalogue query fails the client is released first. *)
Theorem introspection_failure_ends_run
    (removePattern : string -> string -> JsError + string)
    (JSON_stringify : list Row -> string) (answerMessages : State -> string * string)
    (apiKey : option string) (db : Database) (llm : Llm) (q : string)
    (log : list Event) (e : JsError) :
  (connect db log = Some e ->
   runSqlAgent removePattern JSON_stringify answerMessages apiKey db llm q log =
     (Thrown e, log ++ [Connect])) /\
  (connect db log = None ->
   query db (log ++ [Connect]) catalogQuery = inl e ->
   runSqlAgent removePattern JSON_stringify answerMessages apiKey db llm q log =
     (Thrown e, log ++ [Connect; Query catalogQuery; Release])).
Proof.
  split.
  - apply run_db_down.
  - apply run_catalog_fails.
Qed.

Lemma introspection_failure_ends_run_witness :
  runSqlAgent removeNothing jsonOfRows someMessages None dbDown
    (llmReplying "SELECT 1") "productos" [] =
    (Thrown (MkError (Some "connection refused")), [Connect]) /\
  runSqlAgent removeNothing jsonOfRows someMessages None dbNoCatalog
    (llmReplying "SELECT 1") "productos" [] =
    (Thrown (MkError (Some "permission denied")),
     [Connect; Query catalogQuery; Release]).
Proof.
  split.
  - apply (proj1 (introspection_failure_ends_run removeNothing jsonOfRows someMessages
                    None dbDown (llmReplying "SELECT 1") "productos" []
                    (MkError (Some "connection refused")))).
    reflexivity.
  - apply (proj2 (introspection_failure_ends_run removeNothing jsonOfRows someMessages
                    None dbNoCatalog (llmReplying "SELECT 1") "productos" []
                    (MkError (Some "permission denied")))); reflexivity.
Defined.

Lemma trim_keeps_head (c : ascii) (r : string) :
  isWhiteSpace c = false -> exists t, trim (String c r) = String c t.
Proof.
  intros Hc. unfold trim. cbn [dropSpaces]. rewrite Hc. cbn [trimEnd].
  destruct (trimEnd r); [rewrite Hc |]; eauto.
Qed.

Lemma notBlank_blockedMessage (v : ValidationResult) :
  notBlank (Some (blockedMessage v)) = true.
Proof.
  unfold blockedMessage.
  destruct (noneFound v); [reflexivity |].
  destruct (trim_keeps_head "B"
              ("locked execution. Unknown tables: " +:+ join ", " (unknown v)) eq_refl)
    as [t Ht].
  unfold notBlank.
  change ("Blocked execution. Unknown tables: " +:+ join ", " (unknown v))
    with (String "B" ("locked execution. Unknown tables: " +:+ join ", " (unknown v))).
  now rewrite Ht.
Qed.

Lemma nodeAnswer_prior (JSON_stringify : list Row -> string)
    (answerMessages : State -> string * string) (apiKey : option string)
    (llm : Llm) (state : State) (log : list Event) (p : string) :
  hasKey apiKey = false -> answer state = Some p -> notBlank (Some p) = true ->
  nodeAnswer JSON_stringify answerMessages apiKey llm state log =
  (Returned (answerOnly p), log).
Proof.
  intros Hk Hp Hb. unfold nodeAnswer. rewrite Hk, Hp, Hb. cbn [negb tmpl].
  unfold notBlank in Hb. apply andb_true_iff in Hb. destruct Hb as [Ht _].
  now rewrite Ht.
Qed.

(** X8 [runSqlAgent], [nodeGenerateSQL]: when the model cannot be reached
    the run ends with that error.  By then the client of the
    introspection is released, and no SQL is ever run. *)
Theorem model_failure_ends_run
    (removePattern : string -> string -> JsError + string)
    (JSON_stringify : list Row -> string) (answerMessages : State -> string * string)
    (apiKey : option string) (db : Database) (llm : Llm) (q : string)
    (log : list Event) (tablesRes : list Row) (e : JsError) :
  connect db log = None ->
  query db (log ++ [Connect]) catalogQuery = inr tablesRes ->
  invoke llm (log ++ [Connect; Query catalogQuery; Release]) generateSystem
    (generatePrompt (join nl (List.map tableLine (groupColumns tablesRes)))
       (List.map fst (groupColumns tablesRes)) q) = inl e ->
  runSqlAgent removePattern JSON_stringify answerMessages apiKey db llm q log =
  (Thrown e,
   log ++ [Connect; Query catalogQuery; Release;
           Complete generateSystem
             (generatePrompt (join nl (List.map tableLine (groupColumns tablesRes)))
                (List.map fst (groupColumns tablesRes)) q)]).
Proof.
  intros Hc Hq Hm. unfold runSqlAgent, runNode, bind.
  rewrite nodeIntrospect_cases, Hc, Hq. unfold ret at 1. state_simpl.
  rewrite nodeGenerateSQL_cases, Hm. now rewrite <- app_assoc.
Qed.

Lemma model_failure_ends_run_witness :
  runSqlAgent removeNothing jsonOfRows someMessages None dbShop llmFailing
    "productos" [] =
  (Thrown (MkError (Some "rate limit")),
   [] ++ [Connect; Query catalogQuery; Release;
          Complete generateSystem
            (generatePrompt (join nl (List.map tableLine (groupColumns shopCatalog)))
               (List.map fst (groupColumns shopCatalog)) "productos")]).
Proof.
  apply (model_failure_ends_run removeNothing jsonOfRows someMessages None dbShop
           llmFailing "productos" [] shopCatalog (MkError (Some "rate limit")));
    reflexivity.
Defined.

(** X9 [runSqlAgent]: an SQL text that the validation of [nodeGenerateSQL]
    rejects is never run.  The run makes no database call after the
    introspection; if it returns, the state carries that SQL, no row, the
    error kind UNKNOWN_TABLES and no cleaned SQL, and without an API key
    the answer is the message of the blocked execution (which replaces
    the message of the generation). *)
Theorem flagged_sql_is_never_run
    (removePattern : string -> string -> JsError + string)
    (JSON_stringify : list Row -> string) (answerMessages : State -> string * string)
    (apiKey : option string) (db : Database) (llm : Llm) (q : string)
    (log : list Event) (tablesRes : list Row) (content : Content) :
  let tables := List.map fst (groupColumns tablesRes) in
  let text := join nl (List.map tableLine (groupColumns tablesRes)) in
  let s := qualifySqlTables (sanitize (contentText content)) tables in
  connect db log = None ->
  query db (log ++ [Connect]) catalogQuery = inr tablesRes ->
  invoke llm (log ++ [Connect; Query catalogQuery; Release]) generateSystem
    (generatePrompt text tables q) = inr content ->
  ok (validateSqlTables s tables) = false ->
  exists o ans,
    runSqlAgent removePattern JSON_stringify answerMessages apiKey db llm q log =
      (o, log ++ [Connect; Query catalogQuery; Release;
                  Complete generateSystem (generatePrompt text tables q)] ++ ans) /\
    (if hasKey apiKey then exists system user, ans = [Complete system user]
     else ans = []) /\
    forall st, o = Returned st ->
      sql st = Some s /\ rows st = Some [] /\ error st = Some "UNKNOWN_TABLES" /\
      sqlClean st = None /\
      (hasKey apiKey = false ->
       answer st = Some (blockedMessage (validateSqlTables s tables))).
Proof.
  intros tables text s Hc Hq Hm Hok. unfold runSqlAgent, runNode, bind.
  rewrite nodeIntrospect_cases, Hc, Hq. unfold ret at 1. state_simpl.
  rewrite nodeGenerateSQL_cases. fold tables text. rewrite Hm. cbv zeta. fold s.
  rewrite Hok. cbn [negb]. state_simpl.
  rewrite (nodeExecuteSQL_blocked db s tables _ Hok). state_simpl.
  match goal with |- context [nodeAnswer _ _ _ _ ?st0 ?l2] =>
    set (state := st0); set (log2 := l2) end.
  destruct (hasKey apiKey) eqn:Hk.
  - destruct (nodeAnswer_trace JSON_stringify answerMessages apiKey llm state log2)
      as [ans [Hans [[e E] | [a [Ha E]]]]]; rewrite Hk in Hans; rewrite E.
    + exists (Thrown e), ans. split; [subst log2; now rewrite <- !app_assoc |].
      split; [exact Hans | discriminate].
    + eexists _, ans. split; [subst log2; state_simpl; now rewrite <- !app_assoc |].
      split; [exact Hans |]. intros st [= <-]. subst state. state_simpl.
      repeat (split; [reflexivity |]). discriminate.
  - rewrite (nodeAnswer_prior JSON_stringify answerMessages apiKey llm state log2
               (blockedMessage (validateSqlTables s tables)) Hk eq_refl
               (notBlank_blockedMessage _)).
    eexists _, []. split; [subst log2; state_simpl; now rewrite <- !app_assoc |].
    split; [reflexivity |]. intros st [= <-]. subst state. state_simpl.
    repeat (split; [reflexivity |]). reflexivity.
Qed.

Lemma flagged_sql_is_never_run_witness :
  let tables := List.map fst (groupColumns shopCatalog) in
  let text := join nl (List.map tableLine (groupColumns shopCatalog)) in
  let s := qualifySqlTables
             (sanitize (contentText (StringContent "SELECT * FROM secret.users"))) tables in
  exists o ans,
    runSqlAgent removeNothing jsonOfRows someMessages None dbShop
      (llmReplying "SELECT * FROM secret.users") "usuarios" [] =
      (o, [] ++ [Connect; Query catalogQuery; Release;
                 Complete generateSystem (generatePrompt text tables "usuarios")] ++ ans) /\
    (if hasKey None then exists system user, ans = [Complete system user]
     else ans = []) /\
    forall st, o = Returned st ->
      sql st = Some s /\ rows st = Some [] /\ error st = Some "UNKNOWN_TABLES" /\
      sqlClean st = None /\
      (hasKey None = false ->
       answer st = Some (blockedMessage (validateSqlTables s tables))).
Proof.
  apply (flagged_sql_is_never_run removeNothing jsonOfRows someMessages None dbShop
           (llmReplying "SELECT * FROM secret.users") "usuarios" [] shopCatalog
           (StringContent "SELECT * FROM secret.users")); reflexivity.
Defined.

(** * The service and the controller over the graph *)



Lemma ask_blank (runSqlAgent : string -> M State) (q : string) (log : list Event) :
  blank q ->
  ask runSqlAgent q log = (Returned (Rejected "Missing query parameter q"), log).
Proof.
  intros H. unfold ask, trim. rewrite (dropSpaces_blank q H). simpl.
  now rewrite orb_true_r.
Qed.

(** X11 [RagController.ask]: a request without [q], or with a blank one,
    is answered without running the agent.  Only the JSON response says
    why: under [format=sql] and [format=sqldownload] the body is the empty
    text, under [format=md] an empty fence; the format is matched as it
    is written, any other value gives the JSON response. *)
Theorem rejected_request_by_format (runSqlAgent : string -> M State)
    (q format : option string) (log : list Event) :
  match q with Some text => blank text | None => True end ->
  exists resp,
    RagController.ask runSqlAgent q format log = (Returned resp, log) /\
    (formatIs format "sql" || formatIs format "sqldownload" = true ->
     body resp = TextBody "") /\
    (formatIs format "md" = true -> body resp = TextBody (mdBody "")) /\
    (formatIs format "sql" || formatIs format "md" || formatIs format "sqldownload" = false ->
     resp = MkResponse [] (JsonBody (Rejected "Missing query parameter q"))).
Proof.
  intros Hq. unfold RagController.ask, bind.
  assert (Hb : blank (match q with Some s => s | None => "" end)).
  { destruct q as [text |]; [exact Hq |]. intros c []. }
  rewrite (ask_blank runSqlAgent _ log Hb).
  destruct format as [f |]; cbn [formatIs].
  - destruct (String.eqb f "sql") eqn:E1.
    { apply String.eqb_eq in E1. subst f. eexists. split; [reflexivity |].
      repeat split; intros; first [reflexivity | discriminate]. }
    destruct (String.eqb f "md") eqn:E2.
    { apply String.eqb_eq in E2. subst f. eexists. split; [reflexivity |].
      repeat split; intros; first [reflexivity | discriminate]. }
    destruct (String.eqb f "sqldownload") eqn:E3.
    { eexists. split; [reflexivity |].
      repeat split; intros; first [reflexivity | discriminate]. }
    eexists. split; [reflexivity |].
    repeat split; intros; first [reflexivity | discriminate].
  - eexists. split; [reflexivity |].
    repeat split; intros; first [reflexivity | discriminate].
Qed.

Lemma rejected_request_by_format_witness :
  exists resp,
    RagController.ask shopAgent (Some "  ") (Some "sql") [] = (Returned resp, []) /\
    (formatIs (Some "sql") "sql" || formatIs (Some "sql") "sqldownload" = true ->
     body resp = TextBody "") /\
    (formatIs (Some "sql") "md" = true -> body resp = TextBody (mdBody "")) /\
    (formatIs (Some "sql") "sql" || formatIs (Some "sql") "md" ||
       formatIs (Some "sql") "sqldownload" = false ->
     resp = MkResponse [] (JsonBody (Rejected "Missing query parameter q"))).
Proof.
  apply (rejected_request_by_format shopAgent (Some "  ") (Some "sql") []).
  intros c [<- | [<- | []]]; reflexivity.
Defined.

(** * Introspection *)

Lemma pushColumn_keys (key column : string) (byTable : list (string * list string)) :
  List.map fst (pushColumn key column byTable) = JsSet.add key (List.map fst byTable).
Proof.
  induction byTable as [| [k columns] others IH]; [reflexivity |].
  cbn [pushColumn List.map fst]. unfold JsSet.add, JsSet.has in *. cbn [existsb].
  rewrite (String.eqb_sym key k).
  destruct (String.eqb k key); [reflexivity |]. cbn [orb List.map fst].
  rewrite IH. now destruct (existsb (String.eqb key) (List.map fst others)).
Qed.

Lemma pushColumn_columns (key column k : string) (byTable : list (string * list string)) :
  columnsOf k (pushColumn key column byTable) =
  if String.eqb key k then columnsOf k byTable ++ [column] else columnsOf k byTable.
Proof.
  unfold columnsOf.
  induction byTable as [| [k' columns] others IH]; cbn [pushColumn find fst snd].
  - rewrite (String.eqb_sym key k). now destruct (String.eqb k key).
  - destruct (String.eqb k' key) eqn:E1; cbn [find fst snd].
    + apply String.eqb_eq in E1. subst k'.
      destruct (String.eqb key k); reflexivity.
    + destruct (String.eqb k' k) eqn:E2; [| exact IH].
      destruct (String.eqb key k) eqn:E3; [| reflexivity].
      apply String.eqb_eq in E2, E3. subst. now rewrite String.eqb_refl in E1.
Qed.

Lemma groupColumns_fold (tablesRes : list Row) :
  forall byTable,
    let grouped :=
      fold_left (fun m row => pushColumn (tableKey row) (columnOf row) m)
        tablesRes byTable in
    List.map fst grouped =
      fold_left (fun s x => JsSet.add x s) (List.map tableKey tablesRes)
        (List.map fst byTable) /\
    forall k, columnsOf k grouped =
              columnsOf k byTable ++ List.map columnOf (rowsOfTable k tablesRes).
Proof.
  induction tablesRes as [| row others IH]; intros byTable; cbn [fold_left List.map].
  - split; [reflexivity |]. intros k. now rewrite app_nil_r.
  - destruct (IH (pushColumn (tableKey row) (columnOf row) byTable)) as [Hk Hc].
    split.
    + cbv zeta in Hk. rewrite Hk. now rewrite pushColumn_keys.
    + intros k. cbv zeta in Hc. rewrite Hc, pushColumn_columns.
      unfold rowsOfTable. cbn [List.filter].
      destruct (String.eqb (tableKey row) k); [| reflexivity].
      cbn [List.map]. now rewrite <- app_assoc.
Qed.

Lemma columnsOf_In (byTable : list (string * list string)) (entry : string * list string) :
  NoDup (List.map fst byTable) -> In entry byTable ->
  columnsOf (fst entry) byTable = snd entry.
Proof.
  unfold columnsOf. induction byTable as [| e others IH]; intros Hnd Hin; [destruct Hin |].
  cbn [List.map] in Hnd. inversion Hnd as [| x l Hx Hnd']; subst.
  cbn [find]. destruct Hin as [-> | Hin].
  - now rewrite String.eqb_refl.
  - destruct (String.eqb (fst e) (fst entry)) eqn:E; [| now apply IH].
    apply String.eqb_eq in E. elim Hx. rewrite E. now apply in_map.
Qed.

(** X12 [loadDatabaseSchema]: when the catalogue query succeeds, the
    allow-list holds each [schema.table] key of the rows once, in the
    order of first appearance, and the schema text has one line for each
    of them, which lists the columns of that table in the order of the
    rows; the client is released. *)
Theorem schema_groups_columns_by_table (db : Database) (log : list Event)
    (tablesRes : list Row) :
  connect db log = None ->
  query db (log ++ [Connect]) catalogQuery = inr tablesRes ->
  exists schemaText allowed,
    loadDatabaseSchema db log =
      (Returned (schemaText, allowed), log ++ [Connect; Query catalogQuery; Release]) /\
    allowed = JsSet.of_list (List.map tableKey tablesRes) /\
    NoDup allowed /\
    (forall key, In key allowed <-> exists row, In row tablesRes /\ tableKey row = key) /\
    schemaText =
      join nl
        (List.map
           (fun key => "TABLE " +:+ key +:+ " ( " +:+
                       join ", " (List.map columnOf (rowsOfTable key tablesRes)) +:+ " )")
           allowed).
Proof.
  intros Hc Hq. rewrite loadDatabaseSchema_cases, Hc, Hq.
  destruct (groupColumns_fold tablesRes []) as [Hk Hcols]. cbv zeta in Hk, Hcols.
  fold (groupColumns tablesRes) in Hk, Hcols.
  assert (Ha : List.map fst (groupColumns tablesRes) =
               JsSet.of_list (List.map tableKey tablesRes)) by exact Hk.
  eexists _, _. split; [reflexivity |]. split; [exact Ha |].
  split; [rewrite Ha; apply of_list_NoDup |]. split.
  - intros key. rewrite Ha, of_list_In, in_map_iff.
    split; intros [row [H1 H2]]; exists row; now split.
  - f_equal. rewrite map_map. apply map_ext_in. intros entry Hin.
    assert (Hcols' : forall k, columnsOf k (groupColumns tablesRes) =
                               List.map columnOf (rowsOfTable k tablesRes))
      by (intros k; apply Hcols).
    unfold tableLine. rewrite <- (Hcols' (fst entry)).
    rewrite (columnsOf_In (groupColumns tablesRes) entry); [reflexivity | | exact Hin].
    rewrite Ha. apply of_list_NoDup.
Qed.

Lemma schema_groups_columns_by_table_witness :
  exists schemaText allowed,
    loadDatabaseSchema dbShop [] =
      (Returned (schemaText, allowed), [] ++ [Connect; Query catalogQuery; Release]) /\
    allowed = JsSet.of_list (List.map tableKey shopCatalog) /\
    NoDup allowed /\
    (forall key, In key allowed <-> exists row, In row shopCatalog /\ tableKey row = key) /\
    schemaText =
      join nl
        (List.map
           (fun key => "TABLE " +:+ key +:+ " ( " +:+
                       join ", " (List.map columnOf (rowsOfTable key shopCatalog)) +:+ " )")
           allowed).
Proof.
  apply (schema_groups_columns_by_table dbShop [] shopCatalog); reflexivity.
Defined.

(** * Execution and answer *)

Lemma execution_without_diagnostic_paths (db : Database) (s : string)
    (allowed : list string) (log : list Event) :
  ok (validateSqlTables s allowed) = true ->
  (forall e, connect db log = Some e ->
     nodeExecuteSQL db s allowed log = (Thrown e, log ++ [Connect])) /\
  (forall row others,
     connect db log = None ->
     query db (log ++ [Connect]) s = inr (row :: others) ->
     nodeExecuteSQL db s allowed log =
       (Returned (rowsAndAnswer (row :: others) None),
        log ++ [Connect; Query s; Release])).
Proof.
  intros Hok. unfold nodeExecuteSQL. rewrite Hok. cbn [negb].
  unfold bind, pool_connect, tryFinally, tryCatch, client_query, client_release, ret.
  split.
  - intros e ->. reflexivity.
  - intros row others -> ->. now rewrite <- !app_assoc.
Qed.

(** X13 [nodeExecuteSQL]: the two paths of a validated query that end
    without a diagnostic.  When no client can be obtained the error is
    not caught: the node throws it, and nothing is released.  When the
    query gives rows, they are returned as they came, with no answer, after
    that one query and the release. *)
Theorem execution_without_diagnostic (db : Database) (s : string)
    (allowed : list string) (log : list Event) :
  ok (validateSqlTables s allowed) = true ->
  (forall e, connect db log = Some e ->
     nodeExecuteSQL db s allowed log = (Thrown e, log ++ [Connect])) /\
  (forall row others,
     connect db log = None ->
     query db (log ++ [Connect]) s = inr (row :: others) ->
     nodeExecuteSQL db s allowed log =
       (Returned (rowsAndAnswer (row :: others) None),
        log ++ [Connect; Query s; Release])).
Proof. apply execution_without_diagnostic_paths. Qed.

Lemma execution_without_diagnostic_witness :
  nodeExecuteSQL dbDown "SELECT * FROM public.producto" ["public.producto"] [] =
    (Thrown (MkError (Some "connection refused")), [Connect]) /\
  nodeExecuteSQL dbShop "SELECT * FROM public.producto" ["public.producto"] [] =
    (Returned (rowsAndAnswer [[("nombre", VString "pan")]] None),
     [Connect; Query "SELECT * FROM public.producto"; Release]).
Proof.
  split.
  - apply (proj1 (execution_without_diagnostic dbDown "SELECT * FROM public.producto"
                    ["public.producto"] [] eq_refl)).
    reflexivity.
  - apply (proj2 (execution_without_diagnostic dbShop "SELECT * FROM public.producto"
                    ["public.producto"] [] eq_refl)); reflexivity.
Defined.

(** X14 [nodeAnswer]: the answer is never the empty string.  Without an
    API key no call is made, and a diagnostic that an earlier node wrote
    (an answer that is not blank) is kept as it is. *)
Theorem answer_is_never_empty (JSON_stringify : list Row -> string)
    (answerMessages : State -> string * string) (apiKey : option string)
    (llm : Llm) (state st : State) (log log' : list Event) :
  nodeAnswer JSON_stringify answerMessages apiKey llm state log = (Returned st, log') ->
  exists a,
    st = answerOnly a /\ a <> "" /\
    (hasKey apiKey = false ->
     log' = log /\ (notBlank (answer state) = true -> answer state = Some a)).
Proof.
  intros E.
  destruct (nodeAnswer_trace JSON_stringify answerMessages apiKey llm state log)
    as [trace [Ht [[e E'] | [a [Ha E']]]]]; rewrite E' in E; [discriminate |].
  injection E as <- <-. exists a. split; [reflexivity |]. split; [exact Ha |].
  intros Hk. rewrite Hk in Ht. subst trace. split; [apply app_nil_r |].
  intros Hb. destruct (answer state) as [p |] eqn:Ep; [| discriminate].
  rewrite (nodeAnswer_prior JSON_stringify answerMessages apiKey llm state log p
             Hk Ep Hb) in E'.
  now injection E' as <-.
Qed.

Lemma answer_is_never_empty_witness :
  exists a,
    answerOnly "No results. Diagnostics: empty." = answerOnly a /\ a <> "" /\
    (hasKey None = false ->
     [Connect] = [Connect] /\
     (notBlank (answer (rowsAndAnswer [] (Some "No results. Diagnostics: empty."))) = true ->
      answer (rowsAndAnswer [] (Some "No results. Diagnostics: empty.")) = Some a)).
Proof.
  apply (answer_is_never_empty jsonOfRows someMessages None llmFailing
           (rowsAndAnswer [] (Some "No results. Diagnostics: empty."))
           (answerOnly "No results. Diagnostics: empty.") [Connect] [Connect]).
  reflexivity.
Defined.

(** X15 [runSqlAgent]: the run whose SQL passes the validation and gets
    rows from the database.  If the pattern that strips the qualifier of
    the one table found cannot be built, the run throws that error before
    any execution.  Otherwise the database is called twice, for the
    catalogue and for that SQL, each time on a client that is released;
    the answer takes one call of the model when there is an API key and
    none without; and a state that is returned carries the question, that
    SQL, those rows, no error kind and an answer that is not empty.
    Without an API key the run always returns, and the answer is the
    summary of [nodeAnswer]: the number of rows, the keys of the first row
    and the first three rows serialised. *)
Theorem validated_rows_are_answered
    (removePattern : string -> string -> JsError + string)
    (JSON_stringify : list Row -> string) (answerMessages : State -> string * string)
    (apiKey : option string) (db : Database) (llm : Llm) (q : string)
    (log : list Event) (tablesRes : list Row) (content : Content)
    (row : Row) (others : list Row) :
  let tables := List.map fst (groupColumns tablesRes) in
  let text := join nl (List.map tableLine (groupColumns tablesRes)) in
  let s := qualifySqlTables (sanitize (contentText content)) tables in
  let log1 := log ++ [Connect; Query catalogQuery; Release;
                      Complete generateSystem (generatePrompt text tables q)] in
  let run := runSqlAgent removePattern JSON_stringify answerMessages apiKey db llm q log in
  connect db log = None ->
  query db (log ++ [Connect]) catalogQuery = inr tablesRes ->
  invoke llm (log ++ [Connect; Query catalogQuery; Release]) generateSystem
    (generatePrompt text tables q) = inr content ->
  ok (validateSqlTables s tables) = true ->
  connect db log1 = None ->
  query db (log1 ++ [Connect]) s = inr (row :: others) ->
  (forall table e,
     foundTables (validateSqlTables s tables) = [table] ->
     removePattern (qualifierPattern table) s = inl e ->
     run = (Thrown e, log1)) /\
  ((forall table,
      foundTables (validateSqlTables s tables) = [table] ->
      exists clean, removePattern (qualifierPattern table) s = inr clean) ->
   exists o ans,
     run = (o, log1 ++ [Connect; Query s; Release] ++ ans) /\
     (if hasKey apiKey then exists system user, ans = [Complete system user]
      else ans = [] /\ exists st, o = Returned st) /\
     forall st, o = Returned st ->
       question st = Some q /\ allowedTables st = Some tables /\ sql st = Some s /\
       rows st = Some (row :: others) /\ error st = None /\
       (exists a, answer st = Some a /\ a <> "") /\
       (hasKey apiKey = false ->
        answer st =
          Some ("Found " +:+ Number_toString (ofZ (Z.of_nat (S (List.length others)))) +:+
                " rows. Keys: " +:+ join ", " (Object_keys row) +:+
                ". Sample: " +:+ JSON_stringify (firstn 3 (row :: others))))).
Proof.
  intros tables text s log1 run Hc Hq Hm Hok Hc1 Hq1. subst run.
  unfold runSqlAgent, runNode, bind.
  rewrite nodeIntrospect_cases, Hc, Hq. unfold ret at 1. state_simpl.
  rewrite nodeGenerateSQL_cases. fold tables text. rewrite Hm. cbv zeta. fold s.
  rewrite Hok. cbn [negb].
  replace ((log ++ [Connect; Query catalogQuery; Release]) ++
           [Complete generateSystem (generatePrompt text tables q)]) with log1
    by (subst log1; now rewrite <- app_assoc).
  split.
  - intros table e Hf He. now rewrite Hf, He.
  - intros Hrp.
    set (g := match foundTables (validateSqlTables s tables) with
              | [table] => _ | _ => _ end).
    assert (Hg : exists clean, g = Returned (sqlAndClean s clean)).
    { subst g. destruct (foundTables _) as [| table [| t2 l]]; eauto.
      destruct (Hrp table eq_refl) as [clean ->]. eauto. }
    destruct Hg as [clean ->]. state_simpl.
    rewrite (proj2 (execution_without_diagnostic_paths db s tables log1 Hok)
               row others Hc1 Hq1).
    state_simpl.
    match goal with |- context [nodeAnswer _ _ _ _ ?st0 ?l2] =>
      set (state := st0); set (log2 := l2) end.
    destruct (hasKey apiKey) eqn:Hk.
    + destruct (nodeAnswer_trace JSON_stringify answerMessages apiKey llm state log2)
        as [ans [Hans [[e E] | [a [Ha E]]]]]; rewrite Hk in Hans; rewrite E.
      * exists (Thrown e), ans. split; [subst log2; now rewrite <- !app_assoc |].
        split; [exact Hans | discriminate].
      * eexists _, ans. split; [subst log2; state_simpl; now rewrite <- !app_assoc |].
        split; [exact Hans |]. intros st [= <-]. subst state. state_simpl.
        repeat (split; [reflexivity |]). split; [eauto | discriminate].
    + subst state log2. unfold nodeAnswer. rewrite Hk. cbn [negb].
      state_simpl. cbn [notBlank truthy String.eqb negb]. state_simpl.
      eexists _, []. split; [now rewrite app_nil_r |].
      split; [split; [reflexivity | eauto] |].
      intros st [= <-]. state_simpl. repeat (split; [reflexivity |]).
      split; [| reflexivity]. eexists. split; [reflexivity | discriminate].
Qed.

Lemma validated_rows_are_answered_witness :
  let tables := List.map fst (groupColumns shopCatalog) in
  let text := join nl (List.map tableLine (groupColumns shopCatalog)) in
  let s := qualifySqlTables
             (sanitize (contentText (StringContent "SELECT nombre FROM producto")))
             tables in
  let log1 := [] ++ [Connect; Query catalogQuery; Release;
                     Complete generateSystem (generatePrompt text tables "productos")] in
  exists o ans,
    runSqlAgent removeNothing jsonOfRows someMessages (Some "sk-test") dbShop
      (llmReplying "SELECT nombre FROM producto") "productos" [] =
      (o, log1 ++ [Connect; Query s; Release] ++ ans) /\
    (if hasKey (Some "sk-test") then exists system user, ans = [Complete system user]
     else ans = [] /\ exists st, o = Returned st) /\
    forall st, o = Returned st ->
      question st = Some "productos" /\ allowedTables st = Some tables /\
      sql st = Some s /\
      rows st = Some [[("nombre", VString "pan")]] /\ error st = None /\
      (exists a, answer st = Some a /\ a <> "") /\
      (hasKey (Some "sk-test") = false ->
       answer st =
         Some ("Found " +:+ Number_toString (ofZ (Z.of_nat (S (List.length (@nil Row))))) +:+
               " rows. Keys: " +:+ join ", " (Object_keys [("nombre", VString "pan")]) +:+
               ". Sample: " +:+ jsonOfRows (firstn 3 [[("nombre", VString "pan")]]))).
Proof.
  apply (proj2 (validated_rows_are_answered removeNothing jsonOfRows someMessages
                  (Some "sk-test") dbShop
                  (llmReplying "SELECT nombre FROM producto") "productos" [] shopCatalog
                  (StringContent "SELECT nombre FROM producto")
                  [("nombre", VString "pan")] []
                  eq_refl eq_refl eq_refl eq_refl eq_refl eq_refl)).
  intros table _. eexists. reflexivity.
Defined.

(** * The helpers of the answer *)

Lemma removeAll_removeAll (p q : ascii -> bool) (s : string) :
  removeAll q (removeAll p s) = removeAll (fun c => p c || q c) s.
Proof.
  induction s as [| c r IH]; [reflexivity |]. simpl.
  destruct (p c); simpl; [exact IH |]. destruct (q c); now rewrite IH.
Qed.

Lemma removeAll_skip (p : ascii -> bool) (a : string) (c : ascii) (b : string) :
  p c = true -> removeAll p (a +:+ String c b) = removeAll p (a +:+ b).
Proof.
  intros Hc. induction a as [| x a IH].
  - rewrite !append_nil_l. simpl. now rewrite Hc.
  - rewrite !append_cons. simpl. now rewrite IH.
Qed.

(** X16 [toNumberMaybe]: a full stop or a white-space code unit anywhere
    in a string does not change the number it is read as.  Full stops are
    taken for thousands separators: the string 1.5 is read as 15. *)
Theorem separators_do_not_change_the_number (a : string) (c : ascii) (b : string) :
  isWhiteSpace c = true \/ c = "."%char ->
  toNumberMaybe (VString (a +:+ String c b)) = toNumberMaybe (VString (a +:+ b)).
Proof.
  intros Hc. unfold toNumberMaybe. rewrite !removeAll_removeAll.
  rewrite removeAll_skip; [reflexivity |].
  destruct Hc as [Hc | ->]; [now rewrite Hc | apply orb_true_r].
Qed.

Lemma separators_do_not_change_the_number_witness :
  toNumberMaybe (VString ("1" +:+ String "." "5")) = toNumberMaybe (VString ("1" +:+ "5")).
Proof.
  apply (separators_do_not_change_the_number "1" "." "5"). now right.
Defined.

Lemma removeAll_blank (s : string) : blank s -> removeAll isWhiteSpace s = "".
Proof.
  unfold blank. induction s as [| c r IH]; intros H; simpl; [reflexivity |].
  rewrite (H c) by (simpl; now left). apply IH.
  intros d Hd. apply H. simpl. now right.
Qed.

(** X17 [toNumberMaybe]: a string that is empty or made of white space
    only is read as the number zero, so it counts among the numeric values
    of its column. *)
Theorem blank_string_reads_as_zero (s : string) :
  blank s -> toNumberMaybe (VString s) = Some zero.
Proof.
  intros H. unfold toNumberMaybe. rewrite (removeAll_blank s H). reflexivity.
Qed.

Lemma blank_string_reads_as_zero_witness :
  toNumberMaybe (VString "  ") = Some zero.
Proof.
  apply (blank_string_reads_as_zero "  ").
  intros c [<- | [<- | []]]; reflexivity.
Defined.

Lemma allChars_append (p : ascii -> bool) (x y : string) :
  allChars p (x +:+ y) = allChars p x && allChars p y.
Proof.
  induction x as [| c r IH]; [now rewrite append_nil_l |].
  rewrite append_cons. simpl. now rewrite IH, andb_assoc.
Qed.

Lemma replaceWith_allChars (p q : ascii -> bool) (a : ascii) (w s : string) :
  allChars q w = true ->
  (forall c, Ascii.eqb c a = false -> p c = true -> q c = true) ->
  allChars p s = true -> allChars q (replaceWith a w s) = true.
Proof.
  intros Hw Hpq. induction s as [| c r IH]; intros H; [reflexivity |].
  simpl in H. apply andb_true_iff in H. destruct H as [Hc Hr].
  cbn [replaceWith]. destruct (Ascii.eqb c a) eqn:E.
  - now rewrite allChars_append, Hw, (IH Hr).
  - cbn [allChars]. now rewrite (Hpq c E Hc), (IH Hr).
Qed.

Lemma allChars_and (f g : ascii -> bool) (w : string) :
  allChars (fun c => f c && g c) w = allChars f w && allChars g w.
Proof.
  induction w as [| c r IH]; [reflexivity |]. simpl. rewrite IH.
  destruct (f c), (g c), (allChars f r), (allChars g r); reflexivity.
Qed.

Lemma allChars_prefix (r : ascii -> bool) (w : string) :
  forall big, prefix w big = true -> allChars r big = true -> allChars r w = true.
Proof.
  induction w as [| c w IH]; intros big Hp Hb; [reflexivity |].
  destruct big as [| d big]; [discriminate |]. simpl in Hp.
  destruct (ascii_dec c d) as [<- | _]; [| discriminate].
  simpl in Hb. apply andb_true_iff in Hb. destruct Hb as [Hc Hb].
  simpl. now rewrite Hc, (IH big Hp Hb).
Qed.

Lemma allChars_includes (r : ascii -> bool) (w big : string) :
  includes big w = true -> allChars r big = true -> allChars r w = true.
Proof.
  induction big as [| d big IH]; intros Hi Hb.
  - simpl in Hi. rewrite orb_false_r in Hi. now apply (allChars_prefix r w "").
  - cbn [includes] in Hi. apply orb_true_iff in Hi. destruct Hi as [Hp | Hi].
    + now apply (allChars_prefix r w (String d big)).
    + simpl in Hb. apply andb_true_iff in Hb. now apply IH.
Qed.

(** The escape keeps a property of the code units that the five entities
    have, and leaves none of the four code units. *)
Lemma escapeHtml_allChars (r : ascii -> bool) (s : string) :
  allChars r "&amp;&lt;&gt;&quot;&#39;" = true ->
  allChars r s = true ->
  allChars (fun c => htmlSafe c && r c) (escapeHtml s) = true.
Proof.
  intros Hr Hs. unfold escapeHtml.
  assert (Hent : forall w, includes "&amp;&lt;&gt;&quot;&#39;" w = true ->
                           allChars r w = true)
    by (intros w Hw; exact (allChars_includes r w _ Hw Hr)).
  set (e1 := replaceWith "&" "&amp;" s).
  assert (H1 : allChars r e1 = true)
    by (apply (replaceWith_allChars r r); [now apply Hent | auto | exact Hs]).
  set (e2 := replaceWith "<" "&lt;" e1).
  assert (H2 : allChars (fun c => negb (Ascii.eqb c "<") && r c) e2 = true).
  { apply (replaceWith_allChars r); [| | exact H1].
    - rewrite allChars_and, (Hent "&lt;" eq_refl). reflexivity.
    - intros c E Hc. now rewrite E, Hc. }
  set (e3 := replaceWith ">" "&gt;" e2).
  assert (H3 : allChars (fun c => negb (Ascii.eqb c ">") &&
                                  (negb (Ascii.eqb c "<") && r c)) e3 = true).
  { apply (replaceWith_allChars (fun c => negb (Ascii.eqb c "<") && r c)); [| | exact H2].
    - rewrite !allChars_and, (Hent "&gt;" eq_refl). reflexivity.
    - intros c E Hc. now rewrite E, Hc. }
  set (e4 := replaceWith dquote "&quot;" e3).
  assert (H4 : allChars (fun c => negb (Ascii.eqb c dquote) &&
                                  (negb (Ascii.eqb c ">") &&
                                   (negb (Ascii.eqb c "<") && r c))) e4 = true).
  { apply (replaceWith_allChars
             (fun c => negb (Ascii.eqb c ">") && (negb (Ascii.eqb c "<") && r c)));
      [| | exact H3].
    - rewrite !allChars_and, (Hent "&quot;" eq_refl). reflexivity.
    - intros c E Hc. now rewrite E, Hc. }
  apply (replaceWith_allChars
           (fun c => negb (Ascii.eqb c dquote) &&
                     (negb (Ascii.eqb c ">") && (negb (Ascii.eqb c "<") && r c))));
    [| | exact H4].
  - rewrite allChars_and, (Hent "&#39;" eq_refl). reflexivity.
  - intros c E Hc. unfold htmlSafe. rewrite E.
    destruct (Ascii.eqb c dquote), (Ascii.eqb c ">"), (Ascii.eqb c "<");
      try discriminate. exact Hc.
Qed.

(** X18 [escapeHtml]: the escaped text holds none of the four code units
    that open or close a tag or an attribute value: no less-than sign, no
    greater-than sign, no double quote, no apostrophe. *)
Theorem escaped_text_is_html_safe (str : string) :
  allChars htmlSafe (escapeHtml str) = true.
Proof.
  assert (Ht : allChars (fun _ => true) str = true)
    by (induction str as [| c r IH]; [reflexivity | exact IH]).
  pose proof (escapeHtml_allChars (fun _ => true) str eq_refl Ht) as H.
  revert H. apply allChars_impl. intros c Hc. now rewrite andb_true_r in Hc.
Qed.

Lemma replaceClass_allChars (p : ascii -> bool) (b : ascii) (s : string) :
  p b = false -> allChars (fun c => negb (p c)) (replaceClass p b s) = true.
Proof.
  intros Hb. induction s as [| c r IH]; [reflexivity |].
  cbn [replaceClass allChars]. rewrite IH.
  destruct (p c) eqn:E; [now rewrite Hb | now rewrite E].
Qed.

(** X19 [escapeCell]: the text of a cell holds no line feed, no carriage
    return, and none of the four code units that [escapeHtml] removes;
    [null] and [undefined] give the empty text. *)
Theorem cell_text_is_one_safe_line (v : JsValue) :
  allChars (fun c => htmlSafe c && negb (isLineBreak c)) (escapeCell v) = true /\
  (v = VNull \/ v = VUndefined -> escapeCell v = "").
Proof.
  split.
  - destruct v as [| | b | x | s]; try reflexivity;
      (apply escapeHtml_allChars; [reflexivity | now apply replaceClass_allChars]).
  - intros [-> | ->]; reflexivity.
Qed.

(** X20 [isMoneyColumn]: the test looks for the hints anywhere in the
    name, whatever the case.  A name that holds a money name holds the
    hint too: with a prefix and a suffix added it is still a money
    column. *)
Theorem money_name_inside_a_name (a name b : string) :
  isMoneyColumn name = true ->
  isMoneyColumn (a +:+ name +:+ b) = true.
Proof.
  unfold isMoneyColumn. rewrite !lower_append, !existsb_exists.
  intros [h [Hin Hh]]. exists h. split; [exact Hin |].
  now apply includes_append_l, includes_append_r.
Qed.

Lemma money_name_inside_a_name_witness : isMoneyColumn ("pre" +:+ "Venta" +:+ "_id") = true.
Proof.
  apply (money_name_inside_a_name "pre" "Venta" "_id"). reflexivity.
Defined.

(** * Qualification and the tokens of the validation *)

(** X21 [qualifySqlTables]: the rewriting of a bare table name.  The
    text holds one keyword FROM or JOIN in upper case, at a word boundary,
    followed by white space and a bare name that ends the text or is
    followed by a code unit that is no word character; the lower-cased
    allow-list has exactly one entry whose second part is the name in
    lower case.  Then the keyword, one space and the two parts of that
    entry in double quotes, the table part being the name in lower case,
    take the place of the keyword, the white space and the name; the rest
    of the text is kept. *)
Theorem unique_bare_name_is_qualified (pre kw ws t post : string)
    (allowed : list string) (entry : string) :
  kw = "FROM" \/ kw = "JOIN" ->
  isWordOpt (lastChar None pre) = false ->
  noKeywordBefore (String.length pre) (pre +:+ kw +:+ ws +:+ t +:+ post) = true ->
  whiteRun ws = true -> bareName t = true ->
  isWordOpt (peek post) = false ->
  noKeywordBefore (S (String.length post)) post = true ->
  List.filter (fun fq => bool_decide (second (split "." fq) = Some (toLowerCase t)))
    (List.map toLowerCase allowed) = [entry] ->
  qualifySqlTables (pre +:+ kw +:+ ws +:+ t +:+ post) allowed =
  pre +:+ kw +:+ " " +:+ quoted (tmpl (first (split "." entry))) +:+ "." +:+
  quoted (toLowerCase t) +:+ post.
Proof. apply qualify_bare_name. Qed.

Lemma unique_bare_name_is_qualified_witness :
  qualifySqlTables ("SELECT * " +:+ "FROM" +:+ (nl +:+ "  ") +:+ "Producto" +:+ ";")
    ["ventas.pedido"; "Public.Producto"] =
  "SELECT * " +:+ "FROM" +:+ " " +:+
  quoted (tmpl (first (split "." "public.producto"))) +:+ "." +:+
  quoted (toLowerCase "Producto") +:+ ";".
Proof.
  apply (unique_bare_name_is_qualified "SELECT * " "FROM" (nl +:+ "  ")
           "Producto" ";" ["ventas.pedido"; "Public.Producto"] "public.producto");
    try reflexivity.
  now left.
Defined.

(** X22 [qualifySqlTables]: when every one-part target after FROM or
    JOIN has no candidate in the allow-list, or more than one, the text
    is returned as it is. *)
Theorem unresolvable_targets_are_left_alone (sqlText : string) (allowed : list string) :
  (forall m p0,
     In m (matchAll false qualifyRe sqlText) ->
     split "." (unquote (tmpl (group 2 m))) = [p0] ->
     List.length (entriesFor (Some (toLowerCase p0)) (List.map toLowerCase allowed)) <> 1) ->
  qualifySqlTables sqlText allowed = sqlText.
Proof. apply qualify_unchanged. Qed.

Lemma unresolvable_targets_are_left_alone_witness :
  qualifySqlTables "SELECT * FROM pedido JOIN cliente ON 1 = 1"
    ["ventas.pedido"; "compras.pedido"] =
  "SELECT * FROM pedido JOIN cliente ON 1 = 1".
Proof.
  apply (unresolvable_targets_are_left_alone
           "SELECT * FROM pedido JOIN cliente ON 1 = 1"
           ["ventas.pedido"; "compras.pedido"]).
  intros m p0 Hm Hp.
  vm_compute in Hm. destruct Hm as [<- | [<- | []]];
    vm_compute in Hp; injection Hp as <-; vm_compute; lia.
Defined.

(** X23 [validateSqlTables]: each token of the full-text scan is an
    occurrence in the text of an identifier, a dot and an identifier, in
    lower case; it splits at the dot into these two parts, which is how
    [nodeExecuteSQL] and [nodeGenerateSQL] take a found table apart. *)
Theorem scanned_tokens_occur_in_the_text (sqlText : string) (tok : string) :
  In tok (qualifiedTokens sqlText) ->
  exists a b pre post,
    sqlText = pre +:+ a +:+ "." +:+ b +:+ post /\
    bareName a = true /\ bareName b = true /\
    tok = toLowerCase a +:+ "." +:+ toLowerCase b /\
    split "." tok = [toLowerCase a; toLowerCase b].
Proof. apply qualifiedTokens_shape. Qed.

Lemma scanned_tokens_occur_in_the_text_witness :
  exists a b pre post,
    "SELECT * FROM Public.Producto" = pre +:+ a +:+ "." +:+ b +:+ post /\
    bareName a = true /\ bareName b = true /\
    "public.producto" = toLowerCase a +:+ "." +:+ toLowerCase b /\
    split "." "public.producto" = [toLowerCase a; toLowerCase b].
Proof.
  apply (scanned_tokens_occur_in_the_text "SELECT * FROM Public.Producto" "public.producto").
  vm_compute. now left.
Defined.

(** * The statistics *)

Lemma toNumberMaybe_finite (v : JsValue) (n : number) :
  toNumberMaybe v = Some n -> isFinite n = true.
Proof.
  unfold toNumberMaybe. destruct v as [| | b | x | s]; try discriminate.
  - destruct (isFinite x) eqn:E; [| discriminate]. now intros [= <-].
  - destruct (Number_ _) as [m |]; [| discriminate].
    destruct (isFinite m) eqn:E; [| discriminate]. now intros [= <-].
Qed.

Lemma numsOf_finite (k : string) (rs : list Row) :
  Forall (fun n => isFinite n = true) (numsOf k rs).
Proof.
  apply Forall_forall. intros n Hn. unfold numsOf in Hn. apply in_flat_map in Hn.
  destruct Hn as [r [_ Hn]].
  destruct (toNumberMaybe (property k r)) as [m |] eqn:E; [| destruct Hn].
  destruct Hn as [<- | []]. exact (toNumberMaybe_finite _ _ E).
Qed.

Lemma numsOf_length (k : string) (rs : list Row) :
  List.length (numsOf k rs) <= List.length rs.
Proof.
  induction rs as [| r rs IH]; [apply Nat.le_refl |]. cbn [numsOf flat_map].
  rewrite length_app. fold (numsOf k rs).
  destruct (toNumberMaybe (property k r)); simpl; lia.
Qed.

Lemma lowerOf_choice (lowest x : number) :
  isNaN lowest = false -> isFinite x = true ->
  (lowerOf lowest x = lowest \/ lowerOf lowest x = x) /\
  isNaN (lowerOf lowest x) = false.
Proof.
  intros Hl Hx. unfold lowerOf. rewrite Hl.
  assert (Hn : isNaN x = false) by now destruct x.
  rewrite Hn. cbn [orb].
  destruct (isZeroOfSign true x && isZeroOfSign false lowest); [now split; [right |] |].
  destruct (SFltb x lowest); split; auto.
Qed.

Lemma higherOf_choice (highest x : number) :
  isNaN highest = false -> isFinite x = true ->
  (higherOf highest x = highest \/ higherOf highest x = x) /\
  isNaN (higherOf highest x) = false.
Proof.
  intros Hl Hx. unfold higherOf. rewrite Hl.
  assert (Hn : isNaN x = false) by now destruct x.
  rewrite Hn. cbn [orb].
  destruct (isZeroOfSign false x && isZeroOfSign true highest); [now split; [right |] |].
  destruct (SFltb highest x); split; auto.
Qed.

Section Extremum.

Variable step : number -> number -> number.
Hypothesis step_choice : forall acc x,
  isNaN acc = false -> isFinite x = true ->
  (step acc x = acc \/ step acc x = x) /\ isNaN (step acc x) = false.

Lemma fold_choice (nums : list number) :
  forall acc, isNaN acc = false ->
    Forall (fun n => isFinite n = true) nums ->
    fold_left step nums acc = acc \/ In (fold_left step nums acc) nums.
Proof using step_choice.
  induction nums as [| x nums IH]; intros acc Ha Hf; [now left |].
  inversion Hf as [| y l Hx Hf']; subst. cbn [fold_left].
  destruct (step_choice acc x Ha Hx) as [Hc Hn].
  destruct (IH (step acc x) Hn Hf') as [E | Hin].
  - rewrite E. destruct Hc as [-> | ->]; [now left | right; now left].
  - right. now right.
Qed.

End Extremum.

Lemma Math_min_In (n : number) (ns : list number) :
  Forall (fun x => isFinite x = true) (n :: ns) -> In (Math_min (n :: ns)) (n :: ns).
Proof.
  intros Hf. inversion Hf as [| y l Hn Hf']; subst.
  unfold Math_min. cbn [fold_left].
  assert (E : lowerOf (S754_infinity false) n = n) by now destruct n as [[|] | | | [|] m e].
  rewrite E.
  destruct (fold_choice lowerOf lowerOf_choice ns n) as [-> | Hin];
    [now destruct n | exact Hf' | now left | now right].
Qed.

Lemma Math_max_In (n : number) (ns : list number) :
  Forall (fun x => isFinite x = true) (n :: ns) -> In (Math_max (n :: ns)) (n :: ns).
Proof.
  intros Hf. inversion Hf as [| y l Hn Hf']; subst.
  unfold Math_max. cbn [fold_left].
  assert (E : higherOf (S754_infinity true) n = n) by now destruct n as [[|] | | | [|] m e].
  rewrite E.
  destruct (fold_choice higherOf higherOf_choice ns n) as [-> | Hin];
    [now destruct n | exact Hf' | now left | now right].
Qed.

(** X24 [nodeAnswer], statistics: every entry of [numericStats] is for a
    key of the first row; its count is the number of values of that column,
    among the first hundred rows, that [toNumberMaybe] reads as numbers,
    which is at least one and at most a hundred; its minimum and its
    maximum are two of these numbers, so they are finite. *)
Theorem numeric_stats_come_from_the_column (rows : option (list Row)) (k : string)
    (st : NumericStats.t) :
  In (k, st) (numericStats rows) ->
  let nums := numsOf k (rowsForStats rows) in
  In k (Object_keys (hd [] (rowsForStats rows))) /\
  NumericStats.count st = List.length nums /\
  1 <= NumericStats.count st <= 100 /\
  In (NumericStats.min st) nums /\ In (NumericStats.max st) nums /\
  isFinite (NumericStats.min st) = true /\ isFinite (NumericStats.max st) = true.
Proof.
  intros Hin. cbv zeta. unfold numericStats in Hin.
  assert (Hlen : List.length (rowsForStats rows) <= 100).
  { unfold rowsForStats. destruct rows as [rs |]; [| simpl; lia].
    rewrite length_firstn. lia. }
  destruct (rowsForStats rows) as [| row others] eqn:Er; [destruct Hin |].
  apply in_flat_map in Hin. destruct Hin as [k' [Hk Hin]].
  pose proof (numsOf_finite k' (row :: others)) as Hf.
  pose proof (numsOf_length k' (row :: others)) as Hl.
  destruct (numsOf k' (row :: others)) as [| n ns] eqn:En; [destruct Hin |].
  destruct Hin as [[= <- <-] | []]. rewrite En. cbn [NumericStats.count
    NumericStats.min NumericStats.max hd].
  pose proof (Math_min_In n ns Hf) as Hmin.
  pose proof (Math_max_In n ns Hf) as Hmax.
  rewrite Forall_forall in Hf.
  split; [exact Hk |]. split; [reflexivity |].
  split; [simpl in *; lia |]. split; [exact Hmin |]. split; [exact Hmax |].
  split; apply Hf; assumption.
Qed.

Lemma numeric_stats_come_from_the_column_witness :
  let rows := Some [[("nombre", VString "pan"); ("precio", VString "1.234,56")];
                    [("nombre", VString "te"); ("precio", VNumber (ofZ 800))]] in
  let st := NumericStats.Mk 2 (ofZ 800) (ofDecimal false 123456 (-2))
              (SFdiv prec emax
                 (SFadd prec emax (ofDecimal false 123456 (-2)) (ofZ 800)) (ofZ 2)) in
  let nums := numsOf "precio" (rowsForStats rows) in
  In "precio" (Object_keys (hd [] (rowsForStats rows))) /\
  NumericStats.count st = List.length nums /\
  1 <= NumericStats.count st <= 100 /\
  In (NumericStats.min st) nums /\ In (NumericStats.max st) nums /\
  isFinite (NumericStats.min st) = true /\ isFinite (NumericStats.max st) = true.
Proof.
  apply (numeric_stats_come_from_the_column
           (Some [[("nombre", VString "pan"); ("precio", VString "1.234,56")];
                  [("nombre", VString "te"); ("precio", VNumber (ofZ 800))]])
           "precio"
           (NumericStats.Mk 2 (ofZ 800) (ofDecimal false 123456 (-2))
              (SFdiv prec emax
                 (SFadd prec emax (ofDecimal false 123456 (-2)) (ofZ 800)) (ofZ 2)))).
  vm_compute. left. reflexivity.
Defined.
